(** * nana.live.acc: the crawler pipeline of [scripts/crawler.py]

    A shallow embedding of [NanaLiveAnalyzer]: the date normaliser
    ([parse_date]), the list and detail page parsers ([get_live_history],
    [get_songs_from_detail_page]), the song cache and the three persistence
    operations ([save_live_history], [save_song],
    [save_live_song_relations_batch]) and the orchestrator loop ([run]).

    Python [str] values are modelled by their UTF-8 bytes ([string]); the
    class [\d], [int] and the blanks of [strip] are those of Unicode, as
    Python 3.11 has them. The store
    is modelled with its three tables, each a finite map keyed by the
    conflict target of its insert statement, and every connection a
    persistence call opens may fail at connect, at a statement or at
    commit, as a schedule of faults says. *)

From Stdlib Require Import ZArith Lia Bool Ascii.
From stdpp Require Import base option list strings gmap fin_maps.

Local Open Scope Z_scope.

(** ** Python outcomes: a call either returns or raises *)

Inductive exn : Type :=
  | ValueError        (* strptime mismatch, datetime(...) out of range, urljoin *)
  | IndexError        (* list index out of range *)
  | OSError           (* os.environ: setenv refuses the name *)
  | RequestException  (* session.get / raise_for_status *)
  | ParserError       (* BeautifulSoup *)
  | OperationalError. (* psycopg: connect, execute or commit *)

Inductive outcome (A : Type) : Type :=
  | Return (a : A)
  | Raise (e : exn).
Arguments Return {A} a.
Arguments Raise {A} e.

Definition raises {A} (o : outcome A) : bool :=
  match o with Return _ => false | Raise _ => true end.

(** ** DateNormalizer: [parse_date] *)

Module DateNormalizer.

(** [datetime.date]: year, month, day. *)
Definition pydate : Type := Z * Z * Z.

Definition is_leap (y : Z) : bool :=
  (y mod 4 =? 0) && (negb (y mod 100 =? 0) || (y mod 400 =? 0)).

Definition days_in_month (y m : Z) : Z :=
  if m =? 2 then (if is_leap y then 29 else 28)
  else if (m =? 4) || (m =? 6) || (m =? 9) || (m =? 11) then 30
  else 31.

(** [datetime(year, month, day).date()]: ValueError outside the calendar. *)
Definition make_date (y m d : Z) : outcome pydate :=
  if (1 <=? y) && (y <=? 9999) && (1 <=? m) && (m <=? 12)
     && (1 <=? d) && (d <=? days_in_month y m)
  then Return (y, m, d)
  else Raise ValueError.

(** *** Texts

    A [str] is kept as its UTF-8 bytes. [re], [strptime], [int] and
    [str.strip] work on its characters: [chars] gives them as code
    points. *)
Definition code (c : ascii) : Z := Z.of_N (Ascii.N_of_ascii c).
Definition is_char (x : ascii) (c : ascii) : bool := code c =? code x.
Definition between (lo hi c : Z) : bool := (lo <=? c) && (c <=? hi).

(** A text is a list of code points. *)
Definition text : Type := list Z.

(** UTF-8 decoding: [acc] is what the bytes read of the current character
    have given, [need] the number of bytes that character still lacks
    (bytes that are no UTF-8 give code points of no interest). *)
Fixpoint chars_from (acc : Z) (need : nat) (s : string) : text :=
  match s with
  | EmptyString => []
  | String b s' =>
      let c := code b in
      match need with
      | O =>
          if c <? 128 then c :: chars_from 0 0 s'
          else if c <? 224 then chars_from (c - 192) 1 s'
          else if c <? 240 then chars_from (c - 224) 2 s'
          else chars_from (c - 240) 3 s'
      | S O => (64 * acc + (c - 128)) :: chars_from 0 0 s'
      | S n => chars_from (64 * acc + (c - 128)) n s'
      end
  end.

Definition chars (s : string) : text := chars_from 0 0 s.

(** The decimal digits of Unicode 14.0, which is what Python 3.11 has:
    the characters [\d] matches and [int] reads. Every zero of the list
    is followed by its digits 1 to 9. *)
Definition digit_zeros : list Z :=
  [48; 1632; 1776; 1984; 2406; 2534; 2662; 2790; 2918; 3046; 3174; 3302;
   3430; 3558; 3664; 3792; 3872; 4160; 4240; 6112; 6160; 6470; 6608; 6784;
   6800; 6992; 7088; 7232; 7248; 42528; 43216; 43264; 43472; 43504; 43600;
   44016; 65296; 66720; 68912; 69734; 69872; 69942; 70096; 70384; 70736;
   70864; 71248; 71360; 71472; 71904; 72016; 72784; 73040; 73120; 92768;
   92864; 93008; 120782; 120792; 120802; 120812; 120822; 123200; 123632;
   125264; 130032].

(** The value of a decimal digit. *)
Definition decimal (c : Z) : option Z :=
  match List.find (fun z => between z (z + 9) c) digit_zeros with
  | Some z => Some (c - z)
  | None => None
  end.

(** [\d] and [[^\d]] *)
Definition is_digit (c : Z) : bool :=
  match decimal c with Some _ => true | None => false end.
Definition non_digit (c : Z) : bool := negb (is_digit c).
(** a character of the pattern *)
Definition char_is (x : ascii) (c : Z) : bool := c =? code x.

(** [str.isspace]: TAB..CR, FS..US, the space, and U+0085, U+00A0,
    U+1680, U+2000..U+200A, U+2028, U+2029, U+202F, U+205F, U+3000. *)
Definition is_space (c : Z) : bool :=
  between 9 13 c || between 28 32 c || (c =? 133) || (c =? 160)
  || (c =? 5760) || between 8192 8202 c || (c =? 8232) || (c =? 8233)
  || (c =? 8239) || (c =? 8287) || (c =? 12288).

(** [str.strip()] on the characters. *)
Fixpoint ltrim (t : text) : text :=
  match t with
  | c :: t' => if is_space c then ltrim t' else t
  | [] => []
  end.

Fixpoint rtrim (t : text) : text :=
  match t with
  | c :: t' =>
      match rtrim t' with
      | [] => if is_space c then [] else [c]
      | r => c :: r
      end
  | [] => []
  end.

Definition trim (t : text) : text := rtrim (ltrim t).

(** [int(text)] on a run of decimal digits (a leading blank, which the
    last alternative of [%d] admits, is skipped as [int] does). *)
Fixpoint int_acc (acc : Z) (t : text) : Z :=
  match t with
  | c :: t' =>
      match decimal c with
      | Some v => int_acc (10 * acc + v) t'
      | None => int_acc acc t'
      end
  | [] => acc
  end.
Definition int (t : text) : Z := int_acc 0 t.

(** A backtracking matcher in continuation style, as [re] runs it: every
    combinator gets the rest of the pattern as [k] and returns the first
    match found. *)
Section Matcher.
Context {R : Type}.

Definition orelse (a b : option R) : option R :=
  match a with Some r => Some r | None => b end.

(** one character of class [cls] *)
Definition one (cls : Z -> bool) (s : text)
    (k : Z -> text -> option R) : option R :=
  match s with
  | c :: s' => if cls c then k c s' else None
  | [] => None
  end.

(** a literal *)
Fixpoint lit (l s : text) (k : text -> option R) : option R :=
  match l with
  | [] => k s
  | x :: l' =>
      match s with
      | c :: s' => if x =? c then lit l' s' k else None
      | [] => None
      end
  end.

(** greedy [cls{lo,hi}] ([hi = None]: unbounded); [acc] is the text
    matched so far *)
Fixpoint rep (cls : Z -> bool) (lo : nat) (hi : option nat)
    (s : text) (acc : text) (k : text -> text -> option R)
    {struct s} : option R :=
  let stop := match lo with O => k acc s | S _ => None end in
  let more_allowed := match hi with Some O => false | _ => true end in
  match s with
  | c :: s' =>
      if cls c && more_allowed
      then orelse (rep cls (Nat.pred lo) (Nat.pred <$> hi) s' (acc ++ [c]) k) stop
      else stop
  | [] => stop
  end.
End Matcher.

Definition str2 (a b : Z) : text := [a; b].
Definition str1 (a : Z) : text := [a].

(** The directives of the three formats and the patterns [_strptime]
    compiles them to. *)
Inductive directive : Type :=
  | DY                 (* %Y : \d\d\d\d *)
  | Dm                 (* %m : 1[0-2]|0[1-9]|[1-9] *)
  | Dd                 (* %d : 3[0-1]|[1-2]\d|0[1-9]|[1-9]| [1-9] *)
  | DLit (l : string).

Record fields : Type := { f_Y : text; f_m : text; f_d : text }.

Definition re_Y {R} (s : text) (k : text -> text -> option R) : option R :=
  rep is_digit 4 (Some 4%nat) s [] k.

Definition re_m {R} (s : text) (k : text -> text -> option R) : option R :=
  orelse (one (char_is "1") s (fun a s1 => one (between 48 50) s1 (fun b s2 => k (str2 a b) s2)))
 (orelse (one (char_is "0") s (fun a s1 => one (between 49 57) s1 (fun b s2 => k (str2 a b) s2)))
         (one (between 49 57) s (fun a s1 => k (str1 a) s1))).

Definition re_d {R} (s : text) (k : text -> text -> option R) : option R :=
  orelse (one (char_is "3") s (fun a s1 => one (between 48 49) s1 (fun b s2 => k (str2 a b) s2)))
 (orelse (one (between 49 50) s (fun a s1 => one is_digit s1 (fun b s2 => k (str2 a b) s2)))
 (orelse (one (char_is "0") s (fun a s1 => one (between 49 57) s1 (fun b s2 => k (str2 a b) s2)))
 (orelse (one (between 49 57) s (fun a s1 => k (str1 a) s1))
         (one (char_is " ") s (fun a s1 => one (between 49 57) s1 (fun b s2 => k (str2 a b) s2)))))).

(** [format_regex.match(data_string)]: the fields found and the text left. *)
Fixpoint re_format (fmt : list directive) (s : text) (fs : fields)
    : option (fields * text) :=
  match fmt with
  | [] => Some (fs, s)
  | DY :: fmt' => re_Y s (fun y s' => re_format fmt' s' {| f_Y := y; f_m := f_m fs; f_d := f_d fs |})
  | Dm :: fmt' => re_m s (fun m s' => re_format fmt' s' {| f_Y := f_Y fs; f_m := m; f_d := f_d fs |})
  | Dd :: fmt' => re_d s (fun d s' => re_format fmt' s' {| f_Y := f_Y fs; f_m := f_m fs; f_d := d |})
  | DLit l :: fmt' => lit (chars l) s (fun s' => re_format fmt' s' fs)
  end.

(** [datetime.strptime(s, fmt).date()]: ValueError when the text does not
    match, when text remains after the match, or when the fields are not
    a date. Absent fields default to 1900-01-01. *)
Definition strptime (s : text) (fmt : list directive) : outcome pydate :=
  match re_format fmt s {| f_Y := chars "1900"; f_m := chars "1"; f_d := chars "1" |} with
  | None => Raise ValueError
  | Some (fs, []) => make_date (int (f_Y fs)) (int (f_m fs)) (int (f_d fs))
  | Some (_, _ :: _) => Raise ValueError
  end.

Definition fmt_dash : list directive := [DY; DLit "-"; Dm; DLit "-"; Dd].
Definition fmt_kanji : list directive := [DY; DLit "年"; Dm; DLit "月"; Dd; DLit "日"].
Definition fmt_slash : list directive := [DY; DLit "/"; Dm; DLit "/"; Dd].
Definition formats : list (list directive) := [fmt_dash; fmt_kanji; fmt_slash].

(** [(\d{4})[^\d]*(\d{1,2})[^\d]*(\d{1,2})] anchored at the head of [s]. *)
Definition re_ymd_at (s : text) : option (text * text * text) :=
  rep is_digit 4 (Some 4%nat) s [] (fun y s1 =>
  rep non_digit 0 None s1 [] (fun _ s2 =>
  rep is_digit 1 (Some 2%nat) s2 [] (fun m s3 =>
  rep non_digit 0 None s3 [] (fun _ s4 =>
  rep is_digit 1 (Some 2%nat) s4 [] (fun d _ =>
  Some (y, m, d)))))).

(** [re.search]: the leftmost position with a match. *)
Fixpoint re_search_ymd (s : text) : option (text * text * text) :=
  match re_ymd_at s with
  | Some g => Some g
  | None =>
      match s with
      | _ :: s' => re_search_ymd s'
      | [] => None
      end
  end.

(** The [for fmt in ...] loop: a ValueError moves on to the next format. *)
Fixpoint try_formats (fmts : list (list directive)) (s : text)
    : option (outcome pydate) :=
  match fmts with
  | [] => None
  | fmt :: fmts' =>
      match strptime s fmt with
      | Return d => Some (Return d)
      | Raise ValueError => try_formats fmts' s
      | Raise e => Some (Raise e)
      end
  end.

(** The body of [parse_date], inside its outer [try]. *)
Definition parse_date_body (date_str : string) : outcome (option pydate) :=
  match try_formats formats (trim (chars date_str)) with
  | Some (Return d) => Return (Some d)
  | Some (Raise e) => Raise e
  | None =>
      match re_search_ymd (chars date_str) with
      | Some (y, m, d) =>
          match make_date (int y) (int m) (int d) with
          | Return dt => Return (Some dt)
          | Raise e => Raise e
          end
      | None => Return None
      end
  end.

(** [parse_date]: [except Exception: return None]. *)
Definition parse_date (date_str : string) : outcome (option pydate) :=
  match parse_date_body date_str with
  | Return r => Return r
  | Raise _ => Return None
  end.

(** *** [str.strip()] on the bytes of a text *)

Definition blank3 (a b c : Z) : bool :=
  ((a =? 225) && (b =? 154) && (c =? 128))
  || ((a =? 226) && (b =? 128)
      && (between 128 138 c || (c =? 168) || (c =? 169) || (c =? 175)))
  || ((a =? 226) && (b =? 129) && (c =? 159))
  || ((a =? 227) && (b =? 128) && (c =? 128)).

(** The number of bytes of the blank a text starts with, 0 when it
    starts with none. The blanks are those of [is_space]: one byte below
    U+0080, C2 85 and C2 A0, E1 9A 80, E2 80 80..8A, E2 80 A8, E2 80 A9,
    E2 80 AF, E2 81 9F and E3 80 80. *)
Definition blank_len (s : string) : nat :=
  match s with
  | String a s1 =>
      if between 9 13 (code a) || between 28 32 (code a) then 1
      else
        match s1 with
        | String b s2 =>
            if (code a =? 194) && ((code b =? 133) || (code b =? 160)) then 2
            else
              match s2 with
              | String c _ => if blank3 (code a) (code b) (code c) then 3 else 0
              | EmptyString => 0
              end
        | EmptyString => 0
        end
  | EmptyString => 0
  end.

(** [str.lstrip()]: [skip] bytes of a blank are still to be passed. *)
Fixpoint lstrip_from (skip : nat) (s : string) : string :=
  match s with
  | EmptyString => EmptyString
  | String _ s' =>
      match skip with
      | S n => lstrip_from n s'
      | O =>
          match blank_len s with
          | O => s
          | S n => lstrip_from n s'
          end
      end
  end.

Definition lstrip (s : string) : string := lstrip_from 0 s.

(** [str.rstrip()]: the text up to where only blanks follow. *)
Fixpoint rstrip (s : string) : string :=
  match s with
  | EmptyString => EmptyString
  | String c s' =>
      match lstrip s with
      | EmptyString => EmptyString
      | String _ _ => String c (rstrip s')
      end
  end.

(** [str.strip()]. *)
Definition strip (s : string) : string := rstrip (lstrip s).

End DateNormalizer.

Import DateNormalizer.

(** ** Python truthiness *)

Definition truthy_str (s : string) : bool :=
  match s with EmptyString => false | String _ _ => true end.
Definition truthy_int (z : Z) : bool := negb (z =? 0).
Definition truthy_opt {A} (t : A -> bool) (o : option A) : bool :=
  match o with Some a => t a | None => false end.

(** ** Markup, as the parsers query it through BeautifulSoup *)

(** [<a>]: [get_text(strip=True)] and [get('href')]. *)
Record anchor : Type := { a_text : string; a_href : option string }.
(** [<td>]: [get_text(strip=True)] and [find('a')]. *)
Record td : Type := { td_text : string; td_anchor : option anchor }.
(** [<tr>]: [row.find_all('td')]. *)
Definition tr : Type := list td.
(** [<table class="table-fixed">]: the [get_text()] of its [th] elements
    and [find_all('tr')]. *)
Record table : Type := { th_texts : list string; trs : list tr }.
(** A parsed page: its tables of class [table-fixed], in document order. *)
Definition document : Type := list table.
(** [session.get(url)], [raise_for_status()] and [BeautifulSoup(...)]. *)
Inductive response : Type :=
  | Fails (e : exn)
  | Parsed (d : document).

(** ['needle' in hay] *)
Fixpoint str_in (needle hay : string) : bool :=
  String.prefix needle hay ||
  match hay with
  | String _ hay' => str_in needle hay'
  | EmptyString => false
  end.

(** ** The records the crawler passes around *)

Record live_data : Type := {
  ld_date : pydate;
  ld_performance_name : string;
  ld_venue : string;
  ld_url : option string
}.

Record song_info : Type := {
  si_name : string;
  si_url : string;
  si_remark : option string
}.

Definition set_remark (si : song_info) (r : string) : song_info :=
  {| si_name := si_name si; si_url := si_url si; si_remark := Some r |}.

(** ** The store: three tables, each keyed by the columns of the
    [ON CONFLICT] target of its insert statement, and the two id
    sequences behind [RETURNING id]. *)

Record show_row : Type := { show_id : Z; show_venue : string; show_url : option string }.
Record song_row : Type := { song_id : Z; song_url : option string }.
Record assoc_row : Type := { song_order : Z; remark : option string }.

Record store : Type := {
  live_history : gmap (pydate * string) show_row;
  live_history_seq : Z;
  live_song : gmap string song_row;
  live_song_seq : Z;
  live_history_song : gmap (Z * Z) assoc_row
}.

(** [INSERT INTO live_history ... ON CONFLICT (date, performance_name)
    DO UPDATE SET ... RETURNING id]. A new row takes the next value of
    the sequence. PostgreSQL also draws a value when the insert meets
    the conflict or is rolled back, so the identity of a new row may be
    larger there than here; the properties are stated on the rows, and
    on identities being positive, distinct and kept, not on their
    values. The same holds for [live_song]. *)
Definition upsert_live_history (s : store) (ld : live_data) : store * Z :=
  let key := (ld_date ld, ld_performance_name ld) in
  match live_history s !! key with
  | Some r =>
      ({| live_history :=
            <[key := {| show_id := show_id r; show_venue := ld_venue ld;
                        show_url := ld_url ld |}]> (live_history s);
          live_history_seq := live_history_seq s;
          live_song := live_song s;
          live_song_seq := live_song_seq s;
          live_history_song := live_history_song s |}, show_id r)
  | None =>
      let id := live_history_seq s + 1 in
      ({| live_history :=
            <[key := {| show_id := id; show_venue := ld_venue ld;
                        show_url := ld_url ld |}]> (live_history s);
          live_history_seq := id;
          live_song := live_song s;
          live_song_seq := live_song_seq s;
          live_history_song := live_history_song s |}, id)
  end.

(** [INSERT INTO live_song ... ON CONFLICT (name) DO UPDATE SET
    song_url = EXCLUDED.song_url RETURNING id] *)
Definition upsert_live_song (s : store) (name : string) (url : option string)
    : store * Z :=
  match live_song s !! name with
  | Some r =>
      ({| live_history := live_history s;
          live_history_seq := live_history_seq s;
          live_song := <[name := {| song_id := song_id r; song_url := url |}]> (live_song s);
          live_song_seq := live_song_seq s;
          live_history_song := live_history_song s |}, song_id r)
  | None =>
      let id := live_song_seq s + 1 in
      ({| live_history := live_history s;
          live_history_seq := live_history_seq s;
          live_song := <[name := {| song_id := id; song_url := url |}]> (live_song s);
          live_song_seq := id;
          live_history_song := live_history_song s |}, id)
  end.

(** A tuple of [relations_data]:
    [(live_history_id, song_id, order, remark)]. *)
Definition relation : Type := Z * Z * Z * option string.

(** [INSERT INTO live_history_song ... ON CONFLICT (live_history_id,
    live_song_id) DO UPDATE SET song_order = ..., remark = ...] *)
Definition upsert_live_history_song (s : store) (r : relation) : store :=
  let '(live_id, sid, order, rem) := r in
  {| live_history := live_history s;
     live_history_seq := live_history_seq s;
     live_song := live_song s;
     live_song_seq := live_song_seq s;
     live_history_song :=
       <[(live_id, sid) := {| song_order := order; remark := rem |}]>
         (live_history_song s) |}.

(** What can go wrong with the connection a persistence call opens:
    [ExecuteFails k] makes the statement of index [k] on it raise (no
    effect when fewer statements are run). These are the faults
    considered: after a statement or a commit that fails, the
    [rollback] and [close] of the handler run; a connection that is
    lost so that the [rollback] raises as well is not among them. *)
Inductive db_fault : Type :=
  | NoFault
  | ConnectFails
  | ExecuteFails (k : nat)
  | CommitFails.

Definition connect (f : db_fault) : outcome unit :=
  match f with ConnectFails => Raise OperationalError | _ => Return tt end.

Definition execute_fails (f : db_fault) (k : nat) : bool :=
  match f with ExecuteFails j => Nat.eqb j k | _ => false end.

Definition commit (f : db_fault) : outcome unit :=
  match f with CommitFails => Raise OperationalError | _ => Return tt end.

(** [cursor.executemany(insert_sql, rows)] inside the open transaction
    [txn]: the statements run in order from index [k]; the transaction as
    the failing statement found it is returned with the exception. *)
Fixpoint executemany (f : db_fault) (k : nat) (rows : list relation)
    (txn : store) : store * outcome unit :=
  match rows with
  | [] => (txn, Return tt)
  | r :: rows' =>
      if execute_fails f k then (txn, Raise OperationalError)
      else executemany f (S k) rows' (upsert_live_history_song txn r)
  end.

(** ** The analyzer and its world *)

Inductive event : Type :=
  | EvBegin (i : nat)       (* the loop of [run] starts on entry [i] *)
  | EvGet (url : string)    (* [session.get(url)] *)
  | EvSkip                  (* [continue] after a failed [save_live_history] *)
  | EvSleep.                (* [time.sleep(0.5)] *)

Record world : Type := {
  db : store;                    (* what is committed *)
  song_cache : gmap string Z;    (* self.song_cache *)
  faults : list db_fault;        (* one per connection opened, oldest first *)
  trace : list event             (* newest last *)
}.

Definition M (A : Type) : Type := world -> outcome A * world.

Definition ret {A} (a : A) : M A := fun w => (Return a, w).
Definition raise {A} (e : exn) : M A := fun w => (Raise e, w).
Definition bind {A B} (m : M A) (k : A -> M B) : M B :=
  fun w => match m w with
           | (Return a, w') => k a w'
           | (Raise e, w') => (Raise e, w')
           end.

Notation "'do' x <- m ; k" := (bind m (fun x => k))
  (at level 10, x name, m at level 100, k at level 200).
Notation "'act' m ; k" := (bind m (fun _ => k))
  (at level 10, m at level 100, k at level 200).

Definition log (e : event) : M unit := fun w =>
  (Return tt, {| db := db w; song_cache := song_cache w; faults := faults w;
                 trace := trace w ++ [e] |}).

Definition set_db (w : world) (s : store) : world :=
  {| db := s; song_cache := song_cache w; faults := faults w; trace := trace w |}.
Definition set_cache (w : world) (c : gmap string Z) : world :=
  {| db := db w; song_cache := c; faults := faults w; trace := trace w |}.

(** The fault of the next connection (none when the schedule is over). *)
Definition pop_fault (w : world) : db_fault * world :=
  match faults w with
  | [] => (NoFault, w)
  | f :: fs => (f, {| db := db w; song_cache := song_cache w; faults := fs;
                      trace := trace w |})
  end.

(** [for x in xs: body(x)], an exception leaving the loop. *)
Fixpoint for_each {A} (xs : list A) (body : A -> M unit) : M unit :=
  match xs with
  | [] => ret tt
  | x :: xs' => act body x; for_each xs' body
  end.

(** [enumerate(xs, start)] *)
Fixpoint enumerate {A} (start : nat) (xs : list A) : list (nat * A) :=
  match xs with
  | [] => []
  | x :: xs' => (start, x) :: enumerate (S start) xs'
  end.

Section Crawler.

(** [urllib.parse.urljoin] and the network are taken as given: [urljoin]
    returns an address or raises (ValueError on a malformed one, such as
    [http://[::1]). *)
Variable urljoin : string -> string -> outcome string.
Variable http_get : string -> response.

Definition base_url : string := "https://anifesdb.net".
Definition main_url : string :=
  "https://anifesdb.net/live/%E6%B0%B4%E6%A8%B9%E5%A5%88%E3%80%85/".

(** [link = cell.find('a')]; [link and link.get('href')]: the anchor and
    its non-empty href. *)
Definition linked (cell : td) : option (anchor * string) :=
  match td_anchor cell with
  | Some a =>
      match a_href a with
      | Some h => if truthy_str h then Some (a, h) else None
      | None => None
      end
  | None => None
  end.

(** *** ListPageParser: [get_live_history] *)

(** [detail_url] of a list row: [urljoin] on the href of its link, [None]
    without a link. *)
Definition detail_url_of (cell : td) : outcome (option string) :=
  match linked cell with
  | Some (_, h) =>
      match urljoin base_url h with
      | Return u => Return (Some u)
      | Raise e => Raise e
      end
  | None => Return None
  end.

(** One body row of the history table: [None] when the row has fewer than
    three cells or its date does not parse. The address is joined before
    the date is parsed, outside any [try]. *)
Definition history_row (cells : tr) : outcome (option live_data) :=
  match cells with
  | c0 :: c1 :: c2 :: _ =>
      let date_str := td_text c0 in
      let performance_name := td_text c1 in
      let venue := td_text c2 in
      match detail_url_of c1 with
      | Raise e => Raise e
      | Return detail_url =>
          match parse_date date_str with
          | Raise e => Raise e
          | Return (Some parsed_date) =>
              Return (Some {| ld_date := parsed_date;
                              ld_performance_name := performance_name;
                              ld_venue := venue;
                              ld_url := detail_url |})
          | Return None => Return None
          end
      end
  | _ => Return None
  end.

Fixpoint history_rows (rows : list tr) (live_history : list live_data)
    : outcome (list live_data) :=
  match rows with
  | [] => Return live_history
  | row :: rows' =>
      match history_row row with
      | Raise e => Raise e
      | Return (Some ld) => history_rows rows' (live_history ++ [ld])
      | Return None => history_rows rows' live_history
      end
  end.

Definition get_live_history : M (list live_data) :=
  act log (EvGet main_url);
  match http_get main_url with
  | Fails e => raise e
  | Parsed soup =>
      match soup with
      | [] => ret []
      | table :: _ =>
          match history_rows (tail (trs table)) [] with
          | Return l => ret l
          | Raise e => raise e
          end
      end
  end.

(** *** DetailPageParser: [get_songs_from_detail_page] *)

(** One body row of the setlist table, on [(songs_with_info,
    last_song_index)]. *)
Definition detail_row (st : list song_info * Z) (cells : tr)
    : outcome (list song_info * Z) :=
  let '(songs_with_info, last_song_index) := st in
  match cells with
  | _ :: song_cell :: _ =>
      match linked song_cell with
      | Some (song_link, href) =>
          match urljoin base_url href with
          | Raise e => Raise e
          | Return song_url =>
              let songs' :=
                songs_with_info ++
                  [{| si_name := a_text song_link;
                      si_url := song_url;
                      si_remark := None |}] in
              Return (songs', Z.of_nat (length songs') - 1)
          end
      | None =>
          let remark_text := td_text song_cell in
          if truthy_str remark_text && (0 <=? last_song_index) then
            match songs_with_info !! Z.to_nat last_song_index with
            | None => Raise IndexError
            | Some cur =>
                let r :=
                  if truthy_opt truthy_str (si_remark cur)
                  then default EmptyString (si_remark cur) +:+ "; " +:+ remark_text
                  else remark_text in
                Return (<[Z.to_nat last_song_index := set_remark cur r]> songs_with_info,
                        last_song_index)
            end
          else Return st
      end
  | _ => Return st
  end.

Fixpoint detail_rows (rows : list tr) (st : list song_info * Z)
    : outcome (list song_info * Z) :=
  match rows with
  | [] => Return st
  | row :: rows' =>
      match detail_row st row with
      | Raise e => Raise e
      | Return st' => detail_rows rows' st'
      end
  end.

(** The rows loop of one table, from [songs_with_info = []] and
    [last_song_index = -1], and the list it leaves. *)
Definition table_songs (rows : list tr) : outcome (list song_info) :=
  match detail_rows rows ([], -1) with
  | Return (songs_with_info, _) => Return songs_with_info
  | Raise e => Raise e
  end.

(** [any('楽曲名' in th.get_text() for th in headers)] *)
Definition has_song_column (t : table) : bool :=
  existsb (str_in "楽曲名") (th_texts t).

(** The [for table in tables] loop: the first table with the column
    decides. *)
Fixpoint scan_tables (tables : list table) : outcome (list song_info) :=
  match tables with
  | [] => Return []
  | t :: tables' =>
      if has_song_column t then table_songs (tail (trs t))
      else scan_tables tables'
  end.

(** What is inside the [try]. *)
Definition detail_page_body (url : string) : outcome (list song_info) :=
  match http_get url with
  | Fails e => Raise e
  | Parsed soup => scan_tables soup
  end.

Definition get_songs_from_detail_page (url : option string) : M (list song_info) :=
  match url with
  | Some u =>
      if truthy_str u then
        act log (EvGet u);
        match detail_page_body u with
        | Return songs => ret songs
        | Raise _ => ret []
        end
      else ret []
  | None => ret []
  end.

(** *** SongIdentityCache and PersistenceLayer *)

(** [_load_existing_songs] *)
Definition load_existing_songs : M unit := fun w =>
  let '(f, w) := pop_fault w in
  match connect f with
  | Raise e => (Raise e, w)
  | Return _ =>
      if execute_fails f 0 then (Return tt, w)
      else (Return tt, set_cache w ((song_id <$> live_song (db w)) ∪ song_cache w))
  end.

(** [__init__] *)
Definition init : M unit := fun w =>
  load_existing_songs (set_cache w ∅).

Definition save_live_history (ld : live_data) : M (option Z) := fun w =>
  let '(f, w) := pop_fault w in
  match connect f with
  | Raise e => (Raise e, w)
  | Return _ =>
      if execute_fails f 0 then (Return None, w)
      else
        let '(txn, live_history_id) := upsert_live_history (db w) ld in
        match commit f with
        | Raise _ => (Return None, w)
        | Return _ => (Return (Some live_history_id), set_db w txn)
        end
  end.

Definition save_song (song_name : string) (song_url : option string)
    : M (option Z) := fun w =>
  match song_cache w !! song_name with
  | Some id => (Return (Some id), w)
  | None =>
      let '(f, w) := pop_fault w in
      match connect f with
      | Raise e => (Raise e, w)
      | Return _ =>
          if execute_fails f 0 then (Return None, w)
          else
            let '(txn, id) := upsert_live_song (db w) song_name song_url in
            let w := if truthy_int id
                     then set_cache w (<[song_name := id]> (song_cache w))
                     else w in
            match commit f with
            | Raise _ => (Return None, w)
            | Return _ => (Return (Some id), set_db w txn)
            end
      end
  end.

(** [relations_data], from [enumerate(songs_with_info, order)]. *)
Fixpoint relations_from (cache : gmap string Z) (live_history_id : Z)
    (order : Z) (songs_with_info : list song_info) : list relation :=
  match songs_with_info with
  | [] => []
  | si :: rest =>
      (if truthy_opt truthy_int (cache !! si_name si)
       then [(live_history_id, default 0 (cache !! si_name si), order, si_remark si)]
       else [])
      ++ relations_from cache live_history_id (order + 1) rest
  end.

Definition save_live_song_relations_batch (live_history_id : Z)
    (songs_with_info : list song_info) : M unit := fun w =>
  match songs_with_info with
  | [] => (Return tt, w)
  | _ :: _ =>
      let '(f, w) := pop_fault w in
      match connect f with
      | Raise e => (Raise e, w)
      | Return _ =>
          let relations_data :=
            relations_from (song_cache w) live_history_id 1 songs_with_info in
          match relations_data with
          | [] => (Return tt, w)
          | _ :: _ =>
              match executemany f 0 relations_data (db w) with
              | (_, Raise _) => (Return tt, w)
              | (txn, Return _) =>
                  match commit f with
                  | Raise _ => (Return tt, w)
                  | Return _ => (Return tt, set_db w txn)
                  end
              end
          end
      end
  end.

(** *** CrawlOrchestrator: [run] *)

(** The first inner loop of [run]: save the songs not cached yet. *)
Definition save_new_song (si : song_info) : M unit := fun w =>
  match song_cache w !! si_name si with
  | None => (act save_song (si_name si) (Some (si_url si)); ret tt) w
  | Some _ => (Return tt, w)
  end.

(** The body of the loop over the history. *)
Definition process_show (entry : nat * live_data) : M unit :=
  let '(i, ld) := entry in
  act log (EvBegin i);
  do live_history_id <- save_live_history ld;
  if negb (truthy_opt truthy_int live_history_id) then log EvSkip
  else
    do songs_with_info <- get_songs_from_detail_page (ld_url ld);
    act (match songs_with_info with
         | [] => ret tt
         | _ :: _ =>
             act for_each songs_with_info save_new_song;
             save_live_song_relations_batch (default 0 live_history_id) songs_with_info
         end);
    log EvSleep.

Definition run : M unit :=
  do live_history_list <- get_live_history;
  for_each (enumerate 0 live_history_list) process_show.

(** A whole execution of the script on a store: [NanaLiveAnalyzer()] and
    [run()]. *)
Definition crawl (s : store) (fs : list db_fault) : outcome unit * world :=
  (act init; run) {| db := s; song_cache := ∅; faults := fs; trace := [] |}.

(** ** Notions used to state the properties *)

(** No character of class [\d] occurs in the text. *)
Definition no_digits (s : string) : bool := forallb non_digit (chars s).

(** The text ends with a whole character: its last character lacks no
    byte. [lacking need s] is the number of bytes missing after [s] when
    [need] were missing before it. *)
Fixpoint lacking (need : nat) (s : string) : nat :=
  match s with
  | EmptyString => need
  | String b s' =>
      match need with
      | O =>
          if code b <? 128 then lacking 0 s'
          else if code b <? 224 then lacking 1 s'
          else if code b <? 240 then lacking 2 s'
          else lacking 3 s'
      | S n => lacking n s'
      end
  end.
Definition whole (s : string) : bool := Nat.eqb (lacking 0 s) 0.



(** The exception [urljoin] raises on the link of a cell, if it raises. *)
Definition link_error (cell : td) : option exn :=
  match linked cell with
  | Some (_, h) =>
      match urljoin base_url h with
      | Return _ => None
      | Raise e => Some e
      end
  | None => None
  end.

(** The same for a row of a setlist table, whose link is in the second
    cell, and for a row of the list page, which has to have three cells;
    and the first exception among rows. *)
Definition song_link_error (cells : tr) : option exn :=
  match cells with
  | _ :: c :: _ => link_error c
  | _ => None
  end.
Definition show_link_error (cells : tr) : option exn :=
  match cells with
  | _ :: c :: _ :: _ => link_error c
  | _ => None
  end.
Definition first_error (err : tr -> option exn) (rows : list tr) : option exn :=
  head (omap err rows).

(** The two kinds of body rows of a setlist table: a song row has a link
    whose address [urljoin] gives. *)
Definition song_of (cells : tr) : option song_info :=
  match cells with
  | _ :: c :: _ =>
      match linked c with
      | Some (a, h) =>
          match urljoin base_url h with
          | Return u => Some {| si_name := a_text a; si_url := u; si_remark := None |}
          | Raise _ => None
          end
      | None => None
      end
  | _ => None
  end.

(** The text a row without a link carries in its second cell, when it is
    not empty. *)
Definition remark_of (cells : tr) : option string :=
  match cells with
  | _ :: c :: _ =>
      match linked c with
      | Some _ => None
      | None => if truthy_str (td_text c) then Some (td_text c) else None
      end
  | _ => None
  end.

(** The row classification as the specification words it: an accumulator
    whose current song is the last entry; a remark is joined onto the
    remark of the current song with [; ], or dropped when there is none. *)
Definition join_remark (old : option string) (t : string) : string :=
  match old with
  | Some (String c r) => String c r +:+ "; " +:+ t
  | _ => t
  end.

Definition attach_remark (t : string) (setlist : list song_info) : list song_info :=
  match reverse setlist with
  | [] => []
  | cur :: before => reverse before ++ [set_remark cur (join_remark (si_remark cur) t)]
  end.

Definition classify (setlist : list song_info) (cells : tr) : list song_info :=
  match song_of cells, remark_of cells with
  | Some si, _ => setlist ++ [si]
  | None, Some t => attach_remark t setlist
  | None, None => setlist
  end.

Definition setlist_of (rows : list tr) : list song_info :=
  fold_left classify rows [].

(** The remark made of the notes [ts], in order. *)
Definition joined (ts : list string) : option string :=
  match ts with
  | [] => None
  | t :: ts' => Some (fold_left (fun acc t' => acc +:+ "; " +:+ t') ts' t)
  end.

(** Name and address of an entry, the remark left out. *)
Definition song_key (si : song_info) : string * string := (si_name si, si_url si).

(** The fault of the connection the next persistence call will open. *)
Definition next_fault (w : world) : db_fault := fst (pop_fault w).

(** Whether a fault reaches a batch of [n] statements. *)
Definition batch_fault_hits (f : db_fault) (n : nat) : bool :=
  match f with
  | NoFault => false
  | ConnectFails => true
  | ExecuteFails k => (k <? n)%nat
  | CommitFails => (0 <? n)%nat
  end.

(** The row a tuple of [relations_data] writes. *)
Definition relation_key (r : relation) : Z * Z :=
  let '(live_id, sid, _, _) := r in (live_id, sid).
Definition relation_row (r : relation) : assoc_row :=
  let '(_, _, order, rem) := r in {| song_order := order; remark := rem |}.
Definition relation_order (r : relation) : Z := song_order (relation_row r).

(** Rows used in examples: a setlist row with a linked title, and a row
    carrying a note. *)
Definition plain_cell (text : string) : td := {| td_text := text; td_anchor := None |}.
Definition link_cell (text href : string) : td :=
  {| td_text := text; td_anchor := Some {| a_text := text; a_href := Some href |} |}.
Definition song_cells (name href : string) : tr := [plain_cell "M"; link_cell name href].
Definition note_cells (text : string) : tr := [plain_cell EmptyString; plain_cell text].

(** The requests a call of [get_songs_from_detail_page] makes, and the
    list it returns. *)
Definition detail_requests (url : option string) : list event :=
  match url with
  | Some u => if truthy_str u then [EvGet u] else []
  | None => []
  end.

Definition page_songs (url : option string) : list song_info :=
  match url with
  | Some u =>
      if truthy_str u then
        match detail_page_body u with Return songs => songs | Raise _ => [] end
      else []
  | None => []
  end.

Definition add_trace (w : world) (evs : list event) : world :=
  {| db := db w; song_cache := song_cache w; faults := faults w;
     trace := trace w ++ evs |}.

(** [save_live_history] gives the entry a usable identity. *)
Definition show_saved (ld : live_data) (w : world) : bool :=
  match fst (save_live_history ld w) with
  | Return id => truthy_opt truthy_int id
  | Raise _ => false
  end.

(** What an execution does when no connection fails, on the committed
    store and the cache: [resolve_song] is one turn of the loop that
    saves the new songs, [show_effect] one turn of the loop of [run]. *)
Definition resolve_song (st : store * gmap string Z) (si : song_info)
    : store * gmap string Z :=
  match st.2 !! si_name si with
  | Some _ => st
  | None =>
      let '(s', id) := upsert_live_song st.1 (si_name si) (Some (si_url si)) in
      (s', if truthy_int id then <[si_name si := id]> st.2 else st.2)
  end.

Definition show_effect (st : store * gmap string Z) (ld : live_data)
    : store * gmap string Z :=
  let '(s1, id) := upsert_live_history st.1 ld in
  if truthy_int id then
    let songs := page_songs (ld_url ld) in
    let st2 := fold_left resolve_song songs (s1, st.2) in
    (fold_left upsert_live_history_song (relations_from st2.2 id 1 songs) st2.1, st2.2)
  else (s1, st.2).

(** The entries [get_live_history] returns. *)
Definition index_entries : outcome (list live_data) :=
  match http_get main_url with
  | Fails e => Raise e
  | Parsed [] => Return []
  | Parsed (t :: _) => history_rows (tail (trs t)) []
  end.

(** The store an execution without faults leaves. *)
Definition crawled (s : store) : store :=
  match index_entries with
  | Return l => (fold_left show_effect l (s, song_id <$> live_song s)).1
  | Raise _ => s
  end.

(** The three tables hold the same rows. *)
Definition same_tables (s1 s2 : store) : Prop :=
  live_history s1 = live_history s2 ∧ live_song s1 = live_song s2
  ∧ live_history_song s1 = live_history_song s2.

(** A store as the schema keeps it: identities come from the sequences,
    are positive and tell shows apart, and an association belongs to a
    show identity that has been handed out. *)
Definition wf_store (s : store) : Prop :=
  0 <= live_history_seq s ∧ 0 <= live_song_seq s
  ∧ (∀ k r, live_history s !! k = Some r -> 0 < show_id r <= live_history_seq s)
  ∧ (∀ k k' r r', live_history s !! k = Some r -> live_history s !! k' = Some r' ->
                  show_id r = show_id r' -> k = k')
  ∧ (∀ n r, live_song s !! n = Some r -> 0 < song_id r <= live_song_seq s)
  ∧ (∀ k row, live_history_song s !! k = Some row -> 0 < k.1 <= live_history_seq s).

Definition show_key (ld : live_data) : pydate * string :=
  (ld_date ld, ld_performance_name ld).

(** Every entry of the setlist has its song stored and associated with
    the show, at the 1-based index of an occurrence of that song in the
    setlist and with the remark found there. *)
Definition full_setlist (s : store) (live_id : Z) (songs : list song_info) : Prop :=
  ∀ (i : nat) si, songs !! i = Some si ->
    ∃ r (j : nat) sj rj,
      live_song s !! si_name si = Some r
      ∧ (i <= j)%nat ∧ songs !! j = Some sj
      ∧ live_song s !! si_name sj = Some rj ∧ song_id rj = song_id r
      ∧ live_history_song s !! (live_id, song_id r)
        = Some {| song_order := Z.of_nat j + 1; remark := si_remark sj |}.

(** Write-through, as a state: the cache has an entry for exactly the
    names that have a row. *)
Definition cache_agrees (w : world) : Prop :=
  ∀ n, is_Some (song_cache w !! n) ↔ is_Some (live_song (db w) !! n).

(** Pacing, read off a trace: an entry that has begun is [Running] until
    its delay; no entry may begin while another is running. With
    [skip_ends] the skip of an entry ends it as the delay does. *)
Inductive pace : Type := Idle | Running.

Definition pace_step (skip_ends : bool) (st : option pace) (e : event) : option pace :=
  match st, e with
  | None, _ => None
  | Some Idle, EvBegin _ => Some Running
  | Some Running, EvBegin _ => None
  | Some _, EvSleep => Some Idle
  | Some Running, EvSkip => if skip_ends then Some Idle else Some Running
  | Some st, _ => Some st
  end.

Definition pace_of (skip_ends : bool) (t : list event) : option pace :=
  fold_left (pace_step skip_ends) t (Some Idle).

Definition paced (skip_ends : bool) (t : list event) : bool :=
  match pace_of skip_ends t with Some _ => true | None => false end.

(** Stores and worlds used in examples. *)
Definition empty_store : store :=
  {| live_history := ∅; live_history_seq := 0; live_song := ∅; live_song_seq := 0;
     live_history_song := ∅ |}.

Definition world_of (s : store) (cache : gmap string Z) (fs : list db_fault) : world :=
  {| db := s; song_cache := cache; faults := fs; trace := [] |}.

Definition store_with_song (name : string) (id : Z) (url : option string) : store :=
  {| live_history := ∅; live_history_seq := 0;
     live_song := {[name := {| song_id := id; song_url := url |}]};
     live_song_seq := id; live_history_song := ∅ |}.

(** What a run of upserts leaves under a key: the row of the last tuple
    with that key, or what was there. *)
Definition last_write (key : Z * Z) (acc : option assoc_row) (r : relation)
    : option assoc_row :=
  if decide (relation_key r = key) then Some (relation_row r) else acc.

(** Rows stay, with their identity. *)
Definition shows_kept (m m' : gmap (pydate * string) show_row) : Prop :=
  ∀ k r, m !! k = Some r -> ∃ r', m' !! k = Some r' ∧ show_id r' = show_id r.
Definition songs_kept (m m' : gmap string song_row) : Prop :=
  ∀ n r, m !! n = Some r -> ∃ r', m' !! n = Some r' ∧ song_id r' = song_id r.

(** The cache holds identities of rows only. *)
Definition cache_sound (c : gmap string Z) (m : gmap string song_row) : Prop :=
  ∀ n id, c !! n = Some id -> ∃ r, m !! n = Some r ∧ song_id r = id.

(** The name has a row, and the cache has its identity unless that
    identity is 0. *)
Definition covered (c : gmap string Z) (m : gmap string song_row) (n : string) : Prop :=
  ∃ r, m !! n = Some r ∧ (c !! n = Some (song_id r) ∨ (c !! n = None ∧ song_id r = 0)).

(** What the second execution has reached after some entries, against
    the first execution at the same point ([A]) and at its end ([An]):
    the songs are those of the end, every show has the identity it has
    at the end, and every show and association row is the one the first
    execution had at this point or the one it has at the end. *)
Definition rerun_inv (A B An : store) : Prop :=
  live_song B = live_song An
  ∧ (∀ k, show_id <$> live_history B !! k = show_id <$> live_history An !! k)
  ∧ (∀ k, live_history B !! k = live_history A !! k
          ∨ live_history B !! k = live_history An !! k)
  ∧ (∀ k, live_history_song B !! k = live_history_song A !! k
          ∨ live_history_song B !! k = live_history_song An !! k).

(** A small site used in examples: an index of four rows, one of them
    without a date, and the detail pages of the first and the third
    show; every other address fails. *)
Definition demo_urljoin (base href : string) : outcome string :=
  if String.prefix "http://[" href then Raise ValueError else Return (base +:+ href).

Definition show_cells (date title href venue : string) : tr :=
  [plain_cell date; link_cell title href; plain_cell venue].

Definition demo_index : document :=
  [{| th_texts := ["開催日"; "公演名"; "会場"];
      trs := [[];
              show_cells "2024-05-01" "LIVE A" "/live/a" "Tokyo";
              show_cells "TBD" "LIVE X" "/live/x" "Nagoya";
              show_cells "2024年04月01日" "LIVE B" "/live/b" "Osaka";
              show_cells "2024/03/01" "LIVE C" "/live/c" "Kobe"] |}].

Definition demo_setlist_a : document :=
  [{| th_texts := ["No"; "楽曲名"];
      trs := [[];
              note_cells "Opening";
              song_cells "Intro" "/song/intro";
              note_cells "Encore note";
              song_cells "Finale" "/song/finale"] |}].

Definition demo_setlist_c : document :=
  [{| th_texts := ["No"; "楽曲名"];
      trs := [[]; song_cells "Finale" "/song/finale-2"; note_cells "x"; note_cells "y"] |}].

Definition demo_http (url : string) : response :=
  if String.eqb url main_url then Parsed demo_index
  else if String.eqb url "https://anifesdb.net/live/a" then Parsed demo_setlist_a
  else if String.eqb url "https://anifesdb.net/live/c" then Parsed demo_setlist_c
  else Fails RequestException.

Definition demo_show (date : pydate) (title href venue : string) : live_data :=
  {| ld_date := date; ld_performance_name := title; ld_venue := venue;
     ld_url := Some ("https://anifesdb.net" +:+ href) |}.

(** ** [load_env_file] and the connection settings *)

(** [os.environ] *)
Abbreviation environ := (gmap string string) (only parsing).

Fixpoint has_nul (s : string) : bool :=
  match s with
  | String c s' => (code c =? 0) || has_nul s'
  | EmptyString => false
  end.

(** [line.split('=', 1)] on a line that holds a ['=']: what is before
    the first one, and what is after it. *)
Fixpoint split_eq (line : string) : string * string :=
  match line with
  | String c rest =>
      if is_char "="%char c then (EmptyString, rest)
      else (String c (split_eq rest).1, (split_eq rest).2)
  | EmptyString => (EmptyString, EmptyString)
  end.

(** [os.environ[key] = value], on Linux: an embedded NUL and a name with
    ['='] are refused with ValueError, then [setenv] refuses the empty
    name with OSError (EINVAL); nothing is stored then. *)
Definition putenv (e : environ) (key value : string) : outcome environ :=
  if has_nul key || has_nul value then Raise ValueError
  else if str_in "=" key then Raise ValueError
  else if negb (truthy_str key) then Raise OSError
  else Return (<[key := value]> e).

(** The body of [for line in f]. *)
Definition env_line (e : environ) (raw : string) : outcome environ :=
  let line := strip raw in
  if truthy_str line && negb (String.prefix "#" line) && str_in "=" line then
    putenv e (strip (split_eq line).1) (strip (split_eq line).2)
  else Return e.

Fixpoint env_lines (lines : list string) (e : environ) : outcome environ :=
  match lines with
  | [] => Return e
  | raw :: lines' =>
      match env_line e raw with
      | Return e' => env_lines lines' e'
      | Raise x => Raise x
      end
  end.

(** [load_env_file()]: [file] is the lines of [.env], [None] when there
    is no such file. *)
Definition load_env_file (file : option (list string)) (e : environ) : outcome environ :=
  match file with
  | Some lines => env_lines lines e
  | None => Return e
  end.

(** [os.getenv(key, default)] *)
Definition getenv (e : environ) (key default_value : string) : string :=
  default default_value (e !! key).

Record db_config : Type := {
  cfg_host : string;
  cfg_user : string;
  cfg_password : string;
  cfg_database : string;
  cfg_port : string
}.

(** [self.db_config] of [NanaLiveAnalyzer.__init__]. *)
Definition crawler_db_config (e : environ) : db_config :=
  {| cfg_host := getenv e "DB_HOST" "localhost";
     cfg_user := getenv e "DB_USER" "postgres";
     cfg_password := getenv e "DB_PASSWORD" EmptyString;
     cfg_database := getenv e "DB_NAME" "nanalive";
     cfg_port := getenv e "DB_PORT" "5432" |}.

(** The arguments of [psycopg.connect] in
    [export_static_data.get_db_connection]. *)
Definition exporter_db_config (e : environ) : db_config :=
  {| cfg_host := getenv e "DB_HOST" "localhost";
     cfg_user := getenv e "DB_USER" "nanalive_user";
     cfg_password := getenv e "DB_PASSWORD" "password";
     cfg_database := getenv e "DB_NAME" "nanalive_db";
     cfg_port := getenv e "DB_PORT" "5432" |}.

(** ** More notions used to state properties *)

(** A date of the calendar, as [datetime] accepts it. *)
Definition valid_date (d : pydate) : Prop :=
  1 <= d.1.1 <= 9999 ∧ 1 <= d.1.2 <= 12 ∧ 1 <= d.2 <= days_in_month d.1.1 d.1.2.

(** Decimal digits and zero-padded numbers. *)
Definition digit (n : Z) : ascii := Ascii.ascii_of_N (Z.to_N (48 + n)).
Definition pad2 (n : Z) : string :=
  String (digit (n / 10)) (String (digit (n mod 10)) EmptyString).
Definition pad4 (n : Z) : string :=
  String (digit (n / 1000)) (String (digit (n / 100 mod 10)) (pad2 (n mod 100))).

(** A date written with the given marks after year, month and day. *)
Definition written_date (d : pydate) (after_y after_m after_d : string) : string :=
  pad4 d.1.1 +:+ after_y +:+ pad2 d.1.2 +:+ after_m +:+ pad2 d.2 +:+ after_d.

(** The text starts with a character that is neither a blank nor a
    digit. *)
Definition starts_with_word (s : string) : bool :=
  match chars s with
  | c :: _ => negb (is_space c) && non_digit c
  | [] => false
  end.

(** Association rows stay. *)
Definition assoc_kept (m m' : gmap (Z * Z) assoc_row) : Prop :=
  ∀ k row, m !! k = Some row -> is_Some (m' !! k).

(** Requests, read off a trace: after a request the next one has to
    wait for a delay. *)
Definition spaced_step (ready : option bool) (e : event) : option bool :=
  match ready, e with
  | None, _ => None
  | Some true, EvGet _ => Some false
  | Some false, EvGet _ => None
  | Some _, EvSleep => Some true
  | Some r, _ => Some r
  end.

Definition spaced (t : list event) : bool :=
  match fold_left spaced_step t (Some true) with Some _ => true | None => false end.

(** The second and third cell of a list row. *)
Definition row_title_venue (cells : tr) : option (string * string) :=
  match cells with
  | _ :: c1 :: c2 :: _ => Some (td_text c1, td_text c2)
  | _ => None
  end.

(** The marks and numbers that follow the year in [written_date]. *)
Definition written_rest (m d : Z) (after_y after_m after_d : string) : string :=
  after_y +:+ pad2 m +:+ after_m +:+ pad2 d +:+ after_d.

(** The last character is not a blank. *)
Fixpoint ends_visible (t : text) : bool :=
  match t with
  | [] => false
  | [c] => negb (is_space c)
  | _ :: t' => ends_visible t'
  end.

(** The entry has no remark, or one that is not empty. *)
Definition remark_ok (si : song_info) : Prop :=
  si_remark si = None ∨ ∃ r, si_remark si = Some r ∧ truthy_str r = true.

(** No row of the three tables is gone, and shows and songs keep their
    identity. *)
Definition rows_kept (s s' : store) : Prop :=
  shows_kept (live_history s) (live_history s')
  ∧ songs_kept (live_song s) (live_song s')
  ∧ assoc_kept (live_history_song s) (live_history_song s').

(** What a step of an execution may do to the world: no row is lost,
    the cache keeps its entries, the show sequence does not go back, and
    a well-formed store stays one. *)
Definition keeps (w w' : world) : Prop :=
  rows_kept (db w) (db w')
  ∧ song_cache w ⊆ song_cache w'
  ∧ live_history_seq (db w) <= live_history_seq (db w')
  ∧ (wf_store (db w) -> wf_store (db w')).

(** Every connection of the schedule can be opened. *)
Definition connects (w : world) : Prop :=
  Forall (fun f => f ≠ ConnectFails) (faults w).

(** The first connection, the one that loads the cache, opens and its
    query runs. *)
Definition loads (fs : list db_fault) : bool :=
  match fs with
  | ConnectFails :: _ | ExecuteFails 0 :: _ => false
  | _ => true
  end.

(** The cache is in step with the song table, the song sequence is not
    below 0, and no commit of the schedule fails. *)
Definition steady (w : world) : Prop :=
  cache_agrees w ∧ 0 <= live_song_seq (db w)
  ∧ Forall (fun f => f ≠ CommitFails) (faults w).

(** The text after its first [n] bytes. *)
Fixpoint sdrop (n : nat) (s : string) : string :=
  match n, s with
  | S n', String _ s' => sdrop n' s'
  | _, _ => s
  end.

(** The text does not start in the middle of a character: its first
    byte, when it has one, is not a continuation byte of UTF-8. *)
Definition starts_whole (x : string) : Prop :=
  match x with
  | String c _ => code c < 128 ∨ 192 <= code c
  | EmptyString => True
  end.

(** * Properties *)

(** ** DateNormalizer and ListPageParser *)

Lemma orelse_None_r {R} (a : option R) : orelse a None = a.
Proof. by destruct a. Qed.

Lemma rep_done {R} cls s acc (k : text -> text -> option R) :
  rep cls 0 (Some 0%nat) s acc k = k acc s.
Proof. destruct s; cbn; by rewrite ?andb_false_r. Qed.

Lemma rep_take {R} cls lo hi c s acc (k : text -> text -> option R) :
  cls c = true ->
  rep cls (S lo) (Some (S hi)) (c :: s) acc k = rep cls lo (Some hi) s (acc ++ [c]) k.
Proof. intros H. cbn. by rewrite H, orelse_None_r. Qed.

Lemma rep_refuse {R} cls lo hi c s acc (k : text -> text -> option R) :
  cls c = false -> rep cls (S lo) hi (c :: s) acc k = None.
Proof. intros H. cbn. by rewrite H. Qed.












Lemma parse_date_returns s : ∃ r, parse_date s = Return r.
Proof. unfold parse_date. destruct (parse_date_body s); eauto. Qed.




(** ** DetailPageParser: the row classification *)

Lemma song_of_not_remark cells si : song_of cells = Some si -> remark_of cells = None.
Proof.
  unfold song_of, remark_of. destruct cells as [|c0 [|c1 rest]]; try done.
  by destruct (linked c1).
Qed.

Lemma remark_of_not_song cells t : remark_of cells = Some t -> song_of cells = None.
Proof.
  intros H. destruct (song_of cells) eqn:E; [|done].
  by rewrite (song_of_not_remark _ _ E) in H.
Qed.

Lemma remark_of_truthy cells t : remark_of cells = Some t -> truthy_str t = true.
Proof.
  unfold remark_of. destruct cells as [|c0 [|c1 rest]]; try done.
  destruct (linked c1); [done|].
  destruct (truthy_str (td_text c1)) eqn:E; [|done]. by intros [= <-].
Qed.

Lemma join_remark_code (old : option string) (t : string) :
  (if truthy_opt truthy_str old then default EmptyString old +:+ "; " +:+ t else t)
  = join_remark old t.
Proof. by destruct old as [[|c r]|]. Qed.

Lemma attach_remark_snoc t l cur :
  attach_remark t (l ++ [cur]) = l ++ [set_remark cur (join_remark (si_remark cur) t)].
Proof. unfold attach_remark. by rewrite reverse_snoc, reverse_involutive. Qed.

Lemma first_error_cons err row rows :
  first_error err (row :: rows)
  = match err row with Some e => Some e | None => first_error err rows end.
Proof. unfold first_error. cbn. by destruct (err row). Qed.

Lemma first_error_app err a b :
  first_error err (a ++ b)
  = match first_error err a with Some e => Some e | None => first_error err b end.
Proof.
  induction a as [|r a IH]; [done|]. cbn [app]. rewrite !first_error_cons.
  by destruct (err r).
Qed.

Lemma first_error_none err rows :
  first_error err rows = None ↔ Forall (fun r => err r = None) rows.
Proof.
  induction rows as [|r rows IH]; [done|]. rewrite first_error_cons, Forall_cons.
  destruct (err r); [|by rewrite IH; intuition]. split; [done|]. by intros [? _].
Qed.

Lemma song_of_link cells si : song_of cells = Some si -> song_link_error cells = None.
Proof.
  unfold song_of, song_link_error, link_error. destruct cells as [|c0 [|c1 rest]]; try done.
  destruct (linked c1) as [[a h]|]; [|done]. by destruct (urljoin base_url h).
Qed.

Lemma remark_of_link cells t : remark_of cells = Some t -> song_link_error cells = None.
Proof.
  unfold remark_of, song_link_error, link_error. destruct cells as [|c0 [|c1 rest]]; try done.
  by destruct (linked c1) as [[a h]|].
Qed.

(** One turn of the loop is one step of the accumulator, and keeps
    [last_song_index = len(songs_with_info) - 1]; it raises what
    [urljoin] raises on the link of the row. *)
Lemma detail_row_classify songs cells :
  detail_row (songs, Z.of_nat (length songs) - 1) cells
  = match song_link_error cells with
    | None => Return (classify songs cells, Z.of_nat (length (classify songs cells)) - 1)
    | Some e => Raise e
    end.
Proof.
  unfold detail_row, classify, song_of, remark_of, song_link_error, link_error.
  destruct cells as [|c0 [|c1 rest]]; try done.
  destruct (linked c1) as [[a h]|]; [by destruct (urljoin base_url h)|].
  destruct (truthy_str (td_text c1)) eqn:Ht; simpl; [|done].
  destruct songs as [|x l _] using rev_ind; [done|].
  rewrite attach_remark_snoc, !length_app. simpl.
  replace (0 <=? Z.of_nat (length l + 1) - 1) with true by (symmetry; apply Z.leb_le; lia).
  replace (Z.to_nat (Z.of_nat (length l + 1) - 1)) with (length l + 0)%nat by lia.
  rewrite lookup_app_r by lia. replace (length l + 0 - length l)%nat with 0%nat by lia.
  simpl. rewrite join_remark_code. rewrite insert_app_r. done.
Qed.

Lemma detail_rows_classify rows songs :
  detail_rows rows (songs, Z.of_nat (length songs) - 1)
  = match first_error song_link_error rows with
    | None => Return (fold_left classify rows songs,
                      Z.of_nat (length (fold_left classify rows songs)) - 1)
    | Some e => Raise e
    end.
Proof.
  revert songs. induction rows as [|row rows IH]; intros songs;
    cbn [detail_rows fold_left]; [done|].
  rewrite detail_row_classify, first_error_cons.
  destruct (song_link_error row); [done|apply IH].
Qed.

(** The rows loop of a table: the accumulator over its rows, or the
    first exception of [urljoin]. *)
Lemma table_songs_setlist rows :
  table_songs rows
  = match first_error song_link_error rows with
    | None => Return (setlist_of rows)
    | Some e => Raise e
    end.
Proof.
  unfold table_songs, setlist_of.
  change (-1) with (Z.of_nat (length (@nil song_info)) - 1).
  rewrite detail_rows_classify. by destruct (first_error song_link_error rows).
Qed.

Lemma table_songs_returns rows songs :
  table_songs rows = Return songs ->
  first_error song_link_error rows = None ∧ songs = setlist_of rows.
Proof.
  rewrite table_songs_setlist. destruct (first_error song_link_error rows); [done|].
  by intros [= <-].
Qed.

Lemma classify_song l cells si : song_of cells = Some si -> classify l cells = l ++ [si].
Proof. intros H. unfold classify. by rewrite H. Qed.

Lemma classify_app l l2 cells :
  l2 ≠ [] -> classify (l ++ l2) cells = l ++ classify l2 cells
             ∧ classify l2 cells ≠ [].
Proof.
  intros Hne. unfold classify.
  destruct (song_of cells) as [si|].
  - split; [by rewrite <- app_assoc|]. by destruct l2.
  - destruct (remark_of cells) as [t|]; [|done].
    destruct l2 as [|x l2' _] using rev_ind; [done|].
    rewrite app_assoc, !attach_remark_snoc, <- app_assoc. split; [done|].
    by destruct l2'.
Qed.

Lemma fold_classify_app rows l l2 :
  l2 ≠ [] -> fold_left classify rows (l ++ l2) = l ++ fold_left classify rows l2.
Proof.
  revert l2. induction rows as [|row rows IH]; intros l2 Hne; simpl; [done|].
  destruct (classify_app l l2 row Hne) as [-> Hne']. by apply IH.
Qed.

(** Notes before the first song change nothing. *)
Lemma fold_classify_no_song rows :
  Forall (fun r => song_of r = None) rows -> fold_left classify rows [] = [].
Proof.
  induction 1 as [|r rows Hr _ IH]; simpl; [done|].
  unfold classify at 2. rewrite Hr. by destruct (remark_of r).
Qed.

Lemma fold_classify_notes notes ts l cur :
  Forall2 (fun r t => remark_of r = Some t) notes ts ->
  fold_left classify notes (l ++ [cur])
  = l ++ [fold_left (fun c t => set_remark c (join_remark (si_remark c) t)) ts cur].
Proof.
  intros H. revert cur. induction H as [|r t notes ts Hr _ IH]; intros cur; simpl; [done|].
  unfold classify at 2. rewrite (remark_of_not_song _ _ Hr), Hr.
  rewrite attach_remark_snoc. apply IH.
Qed.

Lemma joined_fold ts si acc :
  Forall (fun t => truthy_str t = true) ts -> truthy_str acc = true ->
  fold_left (fun c t => set_remark c (join_remark (si_remark c) t)) ts (set_remark si acc)
  = set_remark si (fold_left (fun a t' => a +:+ "; " +:+ t') ts acc).
Proof.
  intros H. revert acc. induction H as [|t ts Ht _ IH]; intros acc Hacc; simpl; [done|].
  destruct acc as [|c r]; [done|]. unfold set_remark at 2. simpl. apply IH. done.
Qed.

Lemma setlist_block before s si notes ts after :
  song_of s = Some si ->
  Forall2 (fun r t => remark_of r = Some t) notes ts ->
  (after = [] ∨ ∃ s' rest, after = s' :: rest ∧ is_Some (song_of s')) ->
  setlist_of (before ++ s :: notes ++ after)
  = setlist_of before
    ++ {| si_name := si_name si; si_url := si_url si; si_remark := joined ts |}
    :: setlist_of after.
Proof.
  intros Hs Hn Hafter. unfold setlist_of.
  rewrite fold_left_app. simpl. unfold classify at 2. rewrite Hs.
  rewrite fold_left_app, (fold_classify_notes _ _ _ _ Hn).
  assert (Hsi : si_remark si = None).
  { unfold song_of in Hs. destruct s as [|c0 [|c1 rest]]; try done.
    destruct (linked c1) as [[a h]|]; [|done].
    destruct (urljoin base_url h); [|done]. by injection Hs as <-. }
  assert (Hcur : fold_left (fun c t => set_remark c (join_remark (si_remark c) t)) ts si
                 = {| si_name := si_name si; si_url := si_url si; si_remark := joined ts |}).
  { assert (Hts : Forall (fun t => truthy_str t = true) ts).
    { clear -Hn. induction Hn; constructor; eauto using remark_of_truthy. }
    destruct Hts as [|t ts' Ht Hts']; simpl.
    - destruct si; simpl in *; by subst.
    - rewrite Hsi. simpl. by rewrite joined_fold. }
  rewrite Hcur. destruct Hafter as [->|(s' & rest & -> & [si' Hs'])]; [done|].
  cbn [fold_left]. rewrite !(classify_song _ _ _ Hs').
  rewrite fold_classify_app by done. by rewrite <- app_assoc.
Qed.

Lemma setlist_discard before r t after :
  Forall (fun x => song_of x = None) before -> remark_of r = Some t ->
  setlist_of (before ++ r :: after) = setlist_of (before ++ after).
Proof.
  intros Hb Hr. unfold setlist_of. rewrite !fold_left_app, (fold_classify_no_song _ Hb).
  simpl. unfold classify at 2. by rewrite (remark_of_not_song _ _ Hr), Hr.
Qed.

(** C4. The rows loop is the accumulator of the specification: it
    returns what the accumulator gives, unless [urljoin] raises on the
    link of a row, and then it raises that. A song row followed by
    notes, up to the next song row or the end of the table, yields one
    entry whose remark is the notes joined with [; ] in order; a note
    before the first song row leaves the result as it is without that
    row. *)
Theorem C4_remark_attachment :
  (∀ rows, table_songs rows
           = match first_error song_link_error rows with
             | None => Return (setlist_of rows)
             | Some e => Raise e
             end) ∧
  (∀ before s si notes ts after,
     song_of s = Some si ->
     Forall2 (fun r t => remark_of r = Some t) notes ts ->
     (after = [] ∨ ∃ s' rest, after = s' :: rest ∧ is_Some (song_of s')) ->
     first_error song_link_error (before ++ after) = None ->
     table_songs (before ++ s :: notes ++ after)
     = Return (setlist_of before
               ++ {| si_name := si_name si; si_url := si_url si; si_remark := joined ts |}
               :: setlist_of after)) ∧
  (∀ before r t after,
     Forall (fun x => song_of x = None) before -> remark_of r = Some t ->
     table_songs (before ++ r :: after) = table_songs (before ++ after)) ∧
  (∀ u, urljoin base_url "/a" = Return u ->
        table_songs [song_cells "A" "/a"; note_cells "x"; note_cells "y"]
        = Return [{| si_name := "A"; si_url := u; si_remark := Some "x; y" |}]) ∧
  (∀ u v, urljoin base_url "/i" = Return u -> urljoin base_url "/f" = Return v ->
          table_songs [song_cells "Intro" "/i"; note_cells "Encore note";
                       song_cells "Finale" "/f"]
          = Return [{| si_name := "Intro"; si_url := u; si_remark := Some "Encore note" |};
                    {| si_name := "Finale"; si_url := v; si_remark := None |}]).
Proof.
  split; [apply table_songs_setlist|].
  split.
  { intros before s si notes ts after Hs Hn Hafter Herr. rewrite table_songs_setlist.
    assert (Hnotes : first_error song_link_error notes = None).
    { apply first_error_none. clear -Hn. induction Hn; constructor; eauto using remark_of_link. }
    apply first_error_none in Herr. apply Forall_app in Herr as [Hb Ha].
    apply first_error_none in Hb, Ha.
    rewrite first_error_app, Hb, first_error_cons, (song_of_link _ _ Hs).
    rewrite first_error_app, Hnotes, Ha. f_equal. by eapply setlist_block. }
  split.
  { intros before r t after Hb Hr. rewrite !table_songs_setlist.
    rewrite !first_error_app, first_error_cons, (remark_of_link _ _ Hr).
    by rewrite (setlist_discard _ _ _ _ Hb Hr). }
  split.
  - intros u Hu. rewrite table_songs_setlist.
    unfold first_error, setlist_of, song_link_error, link_error, classify, song_of, remark_of.
    cbn. rewrite !Hu. cbn. by rewrite ?Hu.
  - intros u v Hu Hv. rewrite table_songs_setlist.
    unfold first_error, setlist_of, song_link_error, link_error, classify, song_of, remark_of.
    cbn. rewrite !Hu, !Hv. cbn. by rewrite ?Hu, ?Hv.
Qed.

(** ** Association batch *)

Lemma song_key_attach t l : song_key <$> attach_remark t l = song_key <$> l.
Proof.
  destruct l as [|x l _] using rev_ind; [done|].
  rewrite attach_remark_snoc, !fmap_app. done.
Qed.

Lemma song_key_fold rows l :
  song_key <$> fold_left classify rows l = (song_key <$> l) ++ (song_key <$> omap song_of rows).
Proof.
  revert l. induction rows as [|row rows IH]; intros l; simpl.
  - by rewrite app_nil_r.
  - rewrite IH. unfold classify. destruct (song_of row) as [si|].
    + rewrite fmap_app, fmap_cons, <- app_assoc. done.
    + destruct (remark_of row); [by rewrite song_key_attach|done].
Qed.

(** The entries are the song rows, in order: a note takes no position. *)
Lemma setlist_song_rows rows :
  song_key <$> setlist_of rows = song_key <$> omap song_of rows.
Proof. unfold setlist_of. by rewrite song_key_fold. Qed.

Lemma relations_from_elem cache live_id order songs rel :
  rel ∈ relations_from cache live_id order songs ↔
  ∃ (j : nat) sj sid, songs !! j = Some sj ∧ cache !! si_name sj = Some sid ∧ sid ≠ 0
                      ∧ rel = (live_id, sid, order + Z.of_nat j, si_remark sj).
Proof.
  revert order. induction songs as [|si rest IH]; intros order; simpl.
  - split; [by intros ?%elem_of_nil|]. by intros (j & sj & ? & ? & _).
  - rewrite elem_of_app, IH. split.
    + intros [H|(j & sj & sid & Hj & Hc & Hn & ->)].
      * exists 0%nat, si. destruct (cache !! si_name si) as [sid|] eqn:E; simpl in H;
          [|by apply elem_of_nil in H].
        unfold truthy_int in H. destruct (Z.eqb_spec sid 0); simpl in H;
          [by apply elem_of_nil in H|].
        apply list_elem_of_singleton in H as ->. exists sid.
        repeat split; try done. by rewrite Z.add_0_r.
      * exists (S j), sj, sid. repeat split; try done. f_equal. f_equal. lia.
    + intros (j & sj & sid & Hj & Hc & Hn & ->). destruct j as [|j]; simpl in Hj.
      * injection Hj as ->. left. rewrite Hc. simpl. unfold truthy_int.
        destruct (Z.eqb_spec sid 0); [done|]. simpl. rewrite Z.add_0_r.
        by apply list_elem_of_singleton.
      * right. exists j, sj, sid. repeat split; try done. f_equal. f_equal. lia.
Qed.

Lemma upsert_assoc_lookup s r key :
  live_history_song (upsert_live_history_song s r) !! key
  = last_write key (live_history_song s !! key) r.
Proof.
  destruct r as [[[l sid] o] rem]. unfold last_write. simpl.
  destruct (decide ((l, sid) = key)) as [<-|Hne].
  - by rewrite lookup_insert_eq.
  - by rewrite lookup_insert_ne.
Qed.

Lemma fold_upsert_lookup rels s key :
  live_history_song (fold_left upsert_live_history_song rels s) !! key
  = fold_left (last_write key) rels (live_history_song s !! key).
Proof.
  revert s. induction rels as [|r rels IH]; intros s; simpl; [done|].
  by rewrite IH, upsert_assoc_lookup.
Qed.

Lemma fold_upsert_other rels s :
  live_history (fold_left upsert_live_history_song rels s) = live_history s
  ∧ live_history_seq (fold_left upsert_live_history_song rels s) = live_history_seq s
  ∧ live_song (fold_left upsert_live_history_song rels s) = live_song s
  ∧ live_song_seq (fold_left upsert_live_history_song rels s) = live_song_seq s.
Proof.
  revert s. induction rels as [|r rels IH]; intros s; simpl; [done|].
  destruct (IH (upsert_live_history_song s r)) as (-> & -> & -> & ->).
  by destruct r as [[[l sid] o] rem].
Qed.

Lemma fold_last_write_cases key rels acc row :
  fold_left (last_write key) rels acc = Some row ->
  (∃ rel, rel ∈ rels ∧ relation_key rel = key ∧ relation_row rel = row) ∨ acc = Some row.
Proof.
  revert acc. induction rels as [|r rels IH]; intros acc; simpl; [by right|].
  intros [(rel & Hin & ? & ?)|H]%IH.
  - left. exists rel. split; [by right|done].
  - unfold last_write in H. destruct (decide (relation_key r = key)).
    + left. exists r. split; [by left|]. split; [done|congruence].
    + by right.
Qed.

Lemma fold_last_write_untouched key rels acc :
  (∀ rel, rel ∈ rels -> relation_key rel ≠ key) ->
  fold_left (last_write key) rels acc = acc.
Proof.
  revert acc. induction rels as [|r rels IH]; intros acc H; simpl; [done|].
  rewrite IH by (intros; apply H; by right).
  unfold last_write. rewrite decide_False; [done|]. apply H. by left.
Qed.

(** The tuple of the last entry with identity [sid] is the one that
    stays. *)
Lemma fold_last_write_relations cache live_id order songs acc (j : nat) sj sid :
  songs !! j = Some sj -> cache !! si_name sj = Some sid -> sid ≠ 0 ->
  (∀ (k : nat) sk, (j < k)%nat -> songs !! k = Some sk -> cache !! si_name sk ≠ Some sid) ->
  fold_left (last_write (live_id, sid)) (relations_from cache live_id order songs) acc
  = Some {| song_order := order + Z.of_nat j; remark := si_remark sj |}.
Proof.
  revert order acc j. induction songs as [|si rest IH]; intros order acc j Hj Hc Hn Hlast;
    [done|].
  simpl. rewrite fold_left_app. destruct j as [|j]; simpl in Hj.
  - injection Hj as ->. rewrite Hc. simpl. unfold truthy_int.
    destruct (Z.eqb_spec sid 0); [done|]. simpl.
    rewrite fold_last_write_untouched.
    + unfold last_write. simpl. rewrite decide_True by done. by rewrite Z.add_0_r.
    + intros rel (k & sk & sid' & Hk & Hck & _ & ->)%relations_from_elem. simpl.
      intros [= ->]. by apply (Hlast (S k) sk); [lia|..].
  - erewrite (IH (order + 1) _ j); eauto.
    + do 2 f_equal. lia.
    + intros k sk Hlt Hk. apply (Hlast (S k) sk); [lia|done].
Qed.

Lemma occurs_dec (cache : gmap string Z) (songs : list song_info) sid :
  (∃ (k : nat) sk, songs !! k = Some sk ∧ cache !! si_name sk = Some sid)
  ∨ (∀ (k : nat) sk, songs !! k = Some sk -> cache !! si_name sk ≠ Some sid).
Proof.
  induction songs as [|x rest [(k & sk & Hk & Hc)|Hnone]].
  - by right.
  - left. by exists (S k), sk.
  - destruct (decide (cache !! si_name x = Some sid)) as [Hx|Hx].
    + left. by exists 0%nat, x.
    + right. intros [|k] sk Hk; simpl in Hk; [by injection Hk as <-|by apply (Hnone k)].
Qed.

(** Among the entries from [i] on with a given identity there is a last
    one. *)
Lemma last_occurrence (cache : gmap string Z) (songs : list song_info) sid (i : nat) si :
  songs !! i = Some si -> cache !! si_name si = Some sid ->
  ∃ (j : nat) sj, (i <= j)%nat ∧ songs !! j = Some sj ∧ cache !! si_name sj = Some sid
    ∧ ∀ (k : nat) sk, (j < k)%nat -> songs !! k = Some sk -> cache !! si_name sk ≠ Some sid.
Proof.
  revert i si. induction songs as [|x rest IH]; intros i si Hi Hc; [done|].
  destruct (occurs_dec cache rest sid) as [(k & sk & Hk & Hck)|Hnone].
  - destruct (IH k sk Hk Hck) as (j & sj & Hle & Hj & Hcj & Hlast).
    destruct i as [|i].
    + exists (S j), sj. repeat split; try done; [lia|].
      intros [|k'] sk' Hlt Hk'; [lia|]. apply (Hlast k' sk'); [lia|done].
    + simpl in Hi. destruct (IH i si Hi Hc) as (j' & sj' & Hle' & Hj' & Hcj' & Hlast').
      exists (S j'), sj'. repeat split; try done; [lia|].
      intros [|k'] sk' Hlt Hk'; [lia|]. apply (Hlast' k' sk'); [lia|done].
  - destruct i as [|i].
    + exists 0%nat, si. repeat split; try done.
      intros [|k'] sk' Hlt Hk'; [lia|]. by apply (Hnone k' sk').
    + exfalso. by apply (Hnone i si).
Qed.

Lemma executemany_ok f k rels txn :
  (∀ j, (k <= j < k + length rels)%nat -> execute_fails f j = false) ->
  executemany f k rels txn = (fold_left upsert_live_history_song rels txn, Return tt).
Proof.
  revert k txn. induction rels as [|r rels IH]; intros k txn H; simpl; [done|].
  rewrite H by (simpl; lia). apply IH. intros j Hj. apply H. simpl. lia.
Qed.

Lemma executemany_fails (j k : nat) rels txn :
  (j < length rels)%nat ->
  executemany (ExecuteFails (k + j)) k rels txn
  = (fold_left upsert_live_history_song (take j rels) txn, Raise OperationalError).
Proof.
  revert k j txn. induction rels as [|r rels IH]; intros k j txn Hj; simpl in *; [lia|].
  destruct j as [|j]; simpl.
  - by rewrite Nat.add_0_r, Nat.eqb_refl.
  - replace (k + S j =? k)%nat with false by (symmetry; apply Nat.eqb_neq; lia).
    replace (k + S j)%nat with (S k + j)%nat by lia. apply IH. lia.
Qed.

Lemma pop_fault_fields w :
  db (snd (pop_fault w)) = db w ∧ song_cache (snd (pop_fault w)) = song_cache w
  ∧ trace (snd (pop_fault w)) = trace w ∧ faults (snd (pop_fault w)) = tail (faults w).
Proof. unfold pop_fault. destruct (faults w) eqn:E; simpl; by rewrite ?E. Qed.

(** What the batch does to the world, by the fault of its connection. *)
Lemma batch_world live_id songs w :
  let rels := relations_from (song_cache w) live_id 1 songs in
  let w' := snd (save_live_song_relations_batch live_id songs w) in
  song_cache w' = song_cache w ∧ trace w' = trace w
  ∧ db w' = (if batch_fault_hits (next_fault w) (length rels) then db w
             else fold_left upsert_live_history_song rels (db w)).
Proof.
  intros rels w'. subst rels w'. unfold save_live_song_relations_batch, next_fault.
  destruct songs as [|si rest]; [simpl; by destruct (fst (pop_fault w))|].
  cbv beta iota. generalize (si :: rest) as songs. intros songs.
  destruct (pop_fault_fields w) as (Hdb & Hc & Ht & _).
  destruct (pop_fault w) as [f w1]. cbn [fst snd] in *. rewrite Hc.
  set (rels := relations_from (song_cache w) live_id 1 songs).
  destruct f as [| |k|]; cbn [connect commit batch_fault_hits].
  - rewrite executemany_ok by done. rewrite <- Hdb.
    by destruct rels.
  - done.
  - destruct (Nat.ltb_spec k (length rels)) as [Hlt|Hge].
    + rewrite (executemany_fails k 0) by done. by destruct rels.
    + rewrite executemany_ok by (intros j Hj; apply Nat.eqb_neq; lia).
      rewrite <- Hdb. by destruct rels.
  - rewrite executemany_ok by done. by destruct rels.
Qed.

(** The batch returns unless the connection cannot be opened. *)
Lemma batch_returns live_id songs w :
  next_fault w ≠ ConnectFails ->
  fst (save_live_song_relations_batch live_id songs w) = Return tt.
Proof.
  unfold save_live_song_relations_batch, next_fault. intros Hf.
  destruct songs as [|si rest] eqn:Hsongs; [done|]. rewrite <- Hsongs. clear Hsongs.
  destruct (pop_fault w) as [f w1]. simpl in *.
  destruct f; simpl; try done.
  all: destruct (relations_from (song_cache w1) live_id 1 songs) as [|r rels']; [done|].
  all: destruct (executemany _ 0 (r :: rels') (db w1)) as [txn [[]|e]]; done.
Qed.

Lemma batch_written live_id songs w (j : nat) sj sid :
  next_fault w = NoFault ->
  songs !! j = Some sj -> song_cache w !! si_name sj = Some sid -> sid ≠ 0 ->
  (∀ (k : nat) sk, (j < k)%nat -> songs !! k = Some sk ->
                   song_cache w !! si_name sk ≠ Some sid) ->
  live_history_song (db (snd (save_live_song_relations_batch live_id songs w)))
    !! (live_id, sid)
  = Some {| song_order := Z.of_nat j + 1; remark := si_remark sj |}.
Proof.
  intros Hf Hj Hc Hn Hlast.
  destruct (batch_world live_id songs w) as (_ & _ & ->). rewrite Hf. simpl.
  rewrite fold_upsert_lookup, Z.add_comm. by eapply fold_last_write_relations.
Qed.

(** C5. The entries handed to the batch are the song rows of the table in
    order (a note takes no position), and once the batch is committed
    the row of every song of the setlist carries the 1-based index of
    that song among them: the index of its last occurrence, which is its
    only one when the song is played once. *)
Theorem C5_position_fidelity rows songs live_id w :
  table_songs rows = Return songs ->
  (∀ si, si ∈ songs -> truthy_opt truthy_int (song_cache w !! si_name si) = true) ->
  next_fault w = NoFault ->
  let w' := snd (save_live_song_relations_batch live_id songs w) in
  song_key <$> songs = song_key <$> omap song_of rows ∧
  (∀ (i : nat) si sid,
     songs !! i = Some si -> song_cache w !! si_name si = Some sid ->
     ∃ (j : nat) sj,
       (i <= j)%nat ∧ songs !! j = Some sj ∧ song_cache w !! si_name sj = Some sid
       ∧ (∀ (k : nat) sk, (j < k)%nat -> songs !! k = Some sk ->
                          song_cache w !! si_name sk ≠ Some sid)
       ∧ live_history_song (db w') !! (live_id, sid)
         = Some {| song_order := Z.of_nat j + 1; remark := si_remark sj |}) ∧
  (∀ (i : nat) si sid,
     songs !! i = Some si -> song_cache w !! si_name si = Some sid ->
     (∀ (k : nat) sk, k ≠ i -> songs !! k = Some sk ->
                      song_cache w !! si_name sk ≠ Some sid) ->
     live_history_song (db w') !! (live_id, sid)
     = Some {| song_order := Z.of_nat i + 1; remark := si_remark si |}).
Proof.
  intros Hrows Hres Hf w'. subst w'.
  apply table_songs_returns in Hrows as [_ ->].
  assert (Htruthy : ∀ (i : nat) si sid,
             setlist_of rows !! i = Some si -> song_cache w !! si_name si = Some sid ->
             sid ≠ 0).
  { intros i si sid Hi Hc ->. specialize (Hres si (list_elem_of_lookup_2 _ _ _ Hi)).
    by rewrite Hc in Hres. }
  split; [apply setlist_song_rows|]. split.
  - intros i si sid Hi Hc.
    destruct (last_occurrence _ _ _ _ _ Hi Hc) as (j & sj & Hle & Hj & Hcj & Hlast).
    exists j, sj. repeat split; try done.
    apply batch_written; eauto.
  - intros i si sid Hi Hc Honly. apply batch_written; eauto.
    intros k sk Hlt. apply Honly. lia.
Qed.

(** C7. The batch is all or nothing: by the fault of its connection the
    committed store is the old one with every tuple of [relations_data]
    upserted, or the old one; a statement that fails after [k] others
    ran leaves those [k] in the transaction only, which is rolled back.
    The cache is not touched. *)
Theorem C7_batch_atomic live_id songs w :
  let rels := relations_from (song_cache w) live_id 1 songs in
  let w' := snd (save_live_song_relations_batch live_id songs w) in
  db w' = (if batch_fault_hits (next_fault w) (length rels) then db w
           else fold_left upsert_live_history_song rels (db w)) ∧
  song_cache w' = song_cache w ∧
  (∀ k txn, executemany (ExecuteFails k) 0 rels txn
            = if (k <? length rels)%nat
              then (fold_left upsert_live_history_song (take k rels) txn,
                    Raise OperationalError)
              else (fold_left upsert_live_history_song rels txn, Return tt)).
Proof.
  intros rels w'. destruct (batch_world live_id songs w) as (Hc & _ & Hdb).
  split; [done|]. split; [done|]. intros k txn.
  destruct (Nat.ltb_spec k (length rels)) as [Hlt|Hge].
  - by apply (executemany_fails k 0).
  - apply executemany_ok. intros j Hj. apply Nat.eqb_neq. lia.
Qed.

(** C10. An entry whose name the cache does not resolve (absent, or
    cached with identity 0) gets no tuple, the entries that resolve keep
    their own 1-based index, and the batch goes through: it returns, and
    nothing it stores for the show carries the index of the missing
    entry (a row found there afterwards was there before). *)
Theorem C10_missing_song_gap live_id songs w (i : nat) si :
  songs !! i = Some si ->
  truthy_opt truthy_int (song_cache w !! si_name si) = false ->
  next_fault w = NoFault ->
  let rels := relations_from (song_cache w) live_id 1 songs in
  let res := save_live_song_relations_batch live_id songs w in
  (∀ rel, rel ∈ rels -> relation_order rel ≠ Z.of_nat i + 1) ∧
  (∀ (j : nat) sj sid,
     songs !! j = Some sj -> song_cache w !! si_name sj = Some sid -> sid ≠ 0 ->
     (live_id, sid, Z.of_nat j + 1, si_remark sj) ∈ rels) ∧
  fst res = Return tt ∧
  db (snd res) = fold_left upsert_live_history_song rels (db w) ∧
  (∀ sid row,
     live_history_song (db (snd res)) !! (live_id, sid) = Some row ->
     song_order row = Z.of_nat i + 1 ->
     live_history_song (db w) !! (live_id, sid) = Some row).
Proof.
  intros Hi Hmiss Hf rels res.
  assert (Hgap : ∀ rel, rel ∈ rels -> relation_order rel ≠ Z.of_nat i + 1).
  { intros rel (j & sj & sid & Hj & Hc & Hn & ->)%relations_from_elem.
    unfold relation_order. simpl. intros Heq.
    assert (j = i) as -> by lia. rewrite Hi in Hj. injection Hj as <-.
    rewrite Hc in Hmiss. simpl in Hmiss. unfold truthy_int in Hmiss.
    by destruct (Z.eqb_spec sid 0). }
  assert (Hdb : db (snd res) = fold_left upsert_live_history_song rels (db w)).
  { subst res. destruct (batch_world live_id songs w) as (_ & _ & ->). by rewrite Hf. }
  split; [done|]. split.
  { intros j sj sid Hj Hc Hn. apply relations_from_elem.
    exists j, sj, sid. repeat split; try done. by rewrite Z.add_comm. }
  split; [apply batch_returns; by rewrite Hf|]. split; [done|].
  intros sid row Hrow Hord. rewrite Hdb, fold_upsert_lookup in Hrow.
  apply fold_last_write_cases in Hrow as [(rel & Hin & _ & <-)|?]; [|done].
  by destruct (Hgap rel Hin).
Qed.

(** ** SongIdentityCache *)

(** C1. [save_song] on a name the cache misses, when the commit of the
    insert fails: the identity is already in the cache when the
    transaction is rolled back, so the call reports failure and ends
    with the name cached and no row for it in the store. The sibling
    path, where the insert itself fails, leaves the cache alone. *)
Theorem C1_cache_ahead_of_store :
  let w := world_of empty_store ∅ [CommitFails] in
  let res := save_song "A" None w in
  let sibling := save_song "A" None (world_of empty_store ∅ [ExecuteFails 0]) in
  song_cache w !! "A" = None ∧ live_song (db w) !! "A" = None ∧
  fst res = Return None ∧
  song_cache (snd res) !! "A" = Some 1 ∧
  live_song (db (snd res)) !! "A" = None ∧
  fst sibling = Return None ∧
  song_cache (snd sibling) !! "A" = None ∧
  live_song (db (snd sibling)) !! "A" = None.
Proof. by vm_compute. Qed.

(** The same, from any world: a failed commit after a cache miss leaves
    the store as it was and the new identity in the cache. *)
Lemma save_song_commit_fails name url w :
  song_cache w !! name = None -> next_fault w = CommitFails ->
  truthy_int (snd (upsert_live_song (db w) name url)) = true ->
  let res := save_song name url w in
  fst res = Return None ∧ db (snd res) = db w
  ∧ song_cache (snd res) !! name = Some (snd (upsert_live_song (db w) name url)).
Proof.
  intros Hmiss Hf Hid res. subst res. unfold save_song, next_fault in *. rewrite Hmiss.
  destruct (pop_fault_fields w) as (Hdb & Hc & _).
  destruct (pop_fault w) as [f w1]. cbn [fst snd] in *. subst f.
  cbn [connect execute_fails commit]. rewrite Hdb.
  destruct (upsert_live_song (db w) name url) as [txn id]. cbn [fst snd] in *.
  rewrite Hid. cbn. split; [done|]. split; [done|]. apply lookup_insert_eq.
Qed.

(** Apart from a failed commit, [save_song] keeps the cache and the
    table in step (on a store whose sequence hands out positive
    identities). *)
Lemma save_song_agrees name url w :
  cache_agrees w -> 0 <= live_song_seq (db w) -> next_fault w ≠ CommitFails ->
  cache_agrees (snd (save_song name url w)).
Proof.
  intros Hagree Hseq Hf. unfold save_song, next_fault in *.
  destruct (song_cache w !! name) as [id|] eqn:Hmiss; [done|].
  destruct (pop_fault_fields w) as (Hdb & Hc & _).
  destruct (pop_fault w) as [f w1]. cbn [fst snd] in *.
  assert (Hagree1 : cache_agrees w1) by (unfold cache_agrees; by rewrite Hdb, Hc).
  assert (Hnone : live_song (db w) !! name = None).
  { destruct (Hagree name) as [_ H]. rewrite Hmiss in H.
    destruct (live_song (db w) !! name); [|done]. by destruct H as [? ?]. }
  assert (Hok : cache_agrees
                  (set_db (set_cache w1 (<[name := live_song_seq (db w) + 1]> (song_cache w1)))
                     (upsert_live_song (db w1) name url).1)).
  { unfold upsert_live_song. rewrite Hdb, Hnone. intros n. cbn.
    destruct (decide (name = n)) as [<-|Hne].
    - rewrite !lookup_insert_eq. split; by eexists.
    - rewrite !lookup_insert_ne by done. rewrite Hc. apply Hagree. }
  assert (Hid : upsert_live_song (db w1) name url
                = ((upsert_live_song (db w1) name url).1, live_song_seq (db w) + 1)).
  { unfold upsert_live_song. by rewrite Hdb, Hnone. }
  assert (Htruthy : truthy_int (live_song_seq (db w) + 1) = true).
  { unfold truthy_int. destruct (Z.eqb_spec (live_song_seq (db w) + 1) 0); [lia|done]. }
  destruct f; cbn [connect execute_fails commit]; try done.
  - by rewrite Hid, Htruthy.
  - destruct (Nat.eqb k 0); [done|]. by rewrite Hid, Htruthy.
Qed.

(** C3 (amended). A name found in the cache is answered from the cache:
    the identity comes back and neither the store nor the address in it
    changes, and [run] does not even call [save_song] for it. Only on a
    cache miss does the upsert reach a row of that name, whose address it
    overwrites while the identity stays. *)
Theorem C3_known_song_url :
  (∀ w name url id,
     song_cache w !! name = Some id -> save_song name url w = (Return (Some id), w)) ∧
  (∀ w si, is_Some (song_cache w !! si_name si) -> save_new_song si w = (Return tt, w)) ∧
  (∀ w name url r,
     song_cache w !! name = None -> live_song (db w) !! name = Some r ->
     next_fault w = NoFault ->
     let res := save_song name url w in
     fst res = Return (Some (song_id r)) ∧
     live_song (db (snd res)) !! name = Some {| song_id := song_id r; song_url := url |}).
Proof.
  split; [|split].
  - intros w name url id H. unfold save_song. by rewrite H.
  - intros w si [id H]. unfold save_new_song. by rewrite H.
  - intros w name url r Hmiss Hrow Hf res. subst res. unfold save_song, next_fault in *.
    rewrite Hmiss. destruct (pop_fault_fields w) as (Hdb & Hc & _).
    destruct (pop_fault w) as [f w1]. cbn [fst snd] in *. subst f.
    cbn [connect execute_fails commit]. unfold upsert_live_song. rewrite Hdb, Hrow.
    destruct (truthy_int (song_id r)); cbn; by rewrite lookup_insert_eq.
Qed.

(** ** CrawlOrchestrator: what each step leaves in the trace *)

Lemma pop_fault_add_trace w evs :
  pop_fault (add_trace w evs) = (fst (pop_fault w), add_trace (snd (pop_fault w)) evs).
Proof. unfold pop_fault, add_trace. cbn. destruct (faults w) eqn:E; cbn; by rewrite ?E. Qed.

Lemma save_live_history_add_trace ld w evs :
  save_live_history ld (add_trace w evs)
  = (fst (save_live_history ld w), add_trace (snd (save_live_history ld w)) evs).
Proof.
  unfold save_live_history. rewrite pop_fault_add_trace.
  destruct (pop_fault w) as [f w1]. cbn [fst snd].
  destruct (connect f); [|done].
  destruct (execute_fails f 0); [done|]. cbn [add_trace db].
  destruct (upsert_live_history (db w1) ld) as [txn id].
  by destruct (commit f).
Qed.

Lemma save_live_history_trace ld w : trace (snd (save_live_history ld w)) = trace w.
Proof.
  unfold save_live_history. destruct (pop_fault_fields w) as (_ & _ & Ht & _).
  destruct (pop_fault w) as [f w1]. cbn [fst snd] in *.
  destruct (connect f); [|done].
  destruct (execute_fails f 0); [done|].
  destruct (upsert_live_history (db w1) ld) as [txn id].
  by destruct (commit f).
Qed.

Lemma get_songs_from_detail_page_spec url w :
  get_songs_from_detail_page url w
  = (Return (page_songs url), add_trace w (detail_requests url)).
Proof.
  unfold get_songs_from_detail_page, page_songs, detail_requests, add_trace, ret.
  destruct url as [u|]; [|by rewrite app_nil_r; destruct w].
  destruct (truthy_str u); [|by rewrite app_nil_r; destruct w].
  unfold bind, log. cbn. by destruct (detail_page_body u).
Qed.

Lemma save_song_trace name url w : trace (snd (save_song name url w)) = trace w.
Proof.
  unfold save_song. destruct (song_cache w !! name); [done|].
  destruct (pop_fault_fields w) as (_ & _ & Ht & _).
  destruct (pop_fault w) as [f w1]. cbn [fst snd] in *.
  destruct (connect f); [|done].
  destruct (execute_fails f 0); [done|].
  destruct (upsert_live_song (db w1) name url) as [txn id].
  by destruct (commit f), (truthy_int id).
Qed.

Lemma save_new_song_trace si w : trace (snd (save_new_song si w)) = trace w.
Proof.
  unfold save_new_song. destruct (song_cache w !! si_name si); [done|].
  unfold bind, ret. pose proof (save_song_trace (si_name si) (Some (si_url si)) w) as H.
  by destruct (save_song (si_name si) (Some (si_url si)) w) as [[id|e] w1].
Qed.

Lemma for_each_trace {A} (xs : list A) (body : A -> M unit) w :
  (∀ x w, trace (snd (body x w)) = trace w) ->
  trace (snd (for_each xs body w)) = trace w.
Proof.
  intros Hbody. revert w. induction xs as [|x xs IH]; intros w; [done|].
  cbn [for_each]. unfold bind. pose proof (Hbody x w) as H.
  destruct (body x w) as [[[]|e] w1]; cbn [snd] in *; [|done].
  by rewrite IH.
Qed.

(** One turn of the loop of [run]: the delay ends the turn of an entry
    that [save_live_history] gave an identity; the skip ends the turn of
    the others, with no delay. *)
Lemma process_show_trace i ld w :
  let res := process_show (i, ld) w in
  trace (snd res)
  = trace w ++ EvBegin i ::
      match fst res with
      | Return _ =>
          if show_saved ld w then detail_requests (ld_url ld) ++ [EvSleep] else [EvSkip]
      | Raise _ =>
          if show_saved ld w then detail_requests (ld_url ld) else []
      end.
Proof.
  cbn zeta. unfold process_show, show_saved, bind, log. fold (add_trace w [EvBegin i]).
  rewrite save_live_history_add_trace.
  pose proof (save_live_history_trace ld w) as Ht1.
  destruct (save_live_history ld w) as [[id|e] w1]; cbn [fst snd] in *;
    [|cbn; by rewrite Ht1].
  destruct (truthy_opt truthy_int id); cbn [negb]; [|by cbn; rewrite Ht1, <- app_assoc].
  rewrite get_songs_from_detail_page_spec.
  set (w2 := add_trace (add_trace w1 [EvBegin i]) (detail_requests (ld_url ld))).
  assert (Ht2 : trace w2 = trace w ++ EvBegin i :: detail_requests (ld_url ld)).
  { subst w2. cbn. by rewrite Ht1, <- app_assoc. }
  destruct (page_songs (ld_url ld)) as [|si rest] eqn:Hsongs.
  { cbn. by rewrite Ht1, <- !app_assoc. }
  rewrite <- Hsongs. clear Hsongs.
  pose proof (for_each_trace (page_songs (ld_url ld)) save_new_song w2 save_new_song_trace) as Ht3.
  destruct (for_each (page_songs (ld_url ld)) save_new_song w2) as [[[]|e] w3];
    cbn [fst snd] in *; [|by rewrite Ht3, Ht2].
  destruct (batch_world (default 0 id) (page_songs (ld_url ld)) w3) as (_ & Ht4 & _).
  destruct (save_live_song_relations_batch (default 0 id) (page_songs (ld_url ld)) w3)
    as [[[]|e] w4]; cbn [fst snd] in *.
  - rewrite Ht4, Ht3, Ht2. by rewrite <- app_assoc.
  - by rewrite Ht4, Ht3, Ht2.
Qed.

Lemma pace_of_app skip_ends t1 t2 :
  pace_of skip_ends (t1 ++ t2) = fold_left (pace_step skip_ends) t2 (pace_of skip_ends t1).
Proof. unfold pace_of. by rewrite fold_left_app. Qed.

Lemma pace_process_show i ld w :
  pace_of true (trace w) = Some Idle ->
  let res := process_show (i, ld) w in
  (fst res = Return tt -> pace_of true (trace (snd res)) = Some Idle)
  ∧ pace_of true (trace (snd res)) ≠ None.
Proof.
  intros Hidle res. subst res. rewrite process_show_trace, pace_of_app, Hidle.
  assert (Hreq : detail_requests (ld_url ld) = []
                 ∨ ∃ u, detail_requests (ld_url ld) = [EvGet u]).
  { unfold detail_requests. destruct (ld_url ld) as [u|]; [|by left].
    destruct (truthy_str u); [right; by exists u|by left]. }
  destruct (fst (process_show (i, ld) w)) as [[]|e], (show_saved ld w);
    destruct Hreq as [Hr|[u Hr]]; rewrite ?Hr; by cbn.
Qed.

Lemma pace_for_each entries w :
  pace_of true (trace w) = Some Idle ->
  let res := for_each entries process_show w in
  (fst res = Return tt -> pace_of true (trace (snd res)) = Some Idle)
  ∧ pace_of true (trace (snd res)) ≠ None.
Proof.
  revert w. induction entries as [|[i ld] entries IH]; intros w Hidle; [by cbn; rewrite Hidle|].
  cbn [for_each]. unfold bind.
  destruct (pace_process_show i ld w Hidle) as [Hret Hsome].
  destruct (process_show (i, ld) w) as [[[]|e] w1]; cbn [fst snd] in *.
  - by apply IH, Hret.
  - done.
Qed.

Lemma load_existing_songs_trace w : trace (snd (load_existing_songs w)) = trace w.
Proof.
  unfold load_existing_songs. destruct (pop_fault_fields w) as (_ & _ & Ht & _).
  destruct (pop_fault w) as [f w1]. cbn [fst snd] in *.
  destruct (connect f); [|done]. by destruct (execute_fails f 0).
Qed.

(** ** Executions without faults *)

Lemma pop_fault_nil w : faults w = [] -> pop_fault w = (NoFault, w).
Proof. unfold pop_fault. by intros ->. Qed.

Lemma save_live_history_ok ld w :
  faults w = [] ->
  save_live_history ld w
  = (Return (Some (upsert_live_history (db w) ld).2),
     set_db w (upsert_live_history (db w) ld).1).
Proof.
  intros Hf. unfold save_live_history. rewrite (pop_fault_nil _ Hf).
  cbn [connect execute_fails commit]. by destruct (upsert_live_history (db w) ld).
Qed.

Lemma save_new_song_ok si w :
  faults w = [] ->
  ∃ w', save_new_song si w = (Return tt, w') ∧ faults w' = [] ∧ trace w' = trace w
        ∧ (db w', song_cache w') = resolve_song (db w, song_cache w) si.
Proof.
  intros Hf. unfold save_new_song, resolve_song, save_song, bind, ret. cbn [fst snd].
  destruct (song_cache w !! si_name si) eqn:Hc; [by exists w|].
  rewrite (pop_fault_nil _ Hf). cbn [connect execute_fails commit].
  destruct (upsert_live_song (db w) (si_name si) (Some (si_url si))) as [txn id].
  eexists. split; [done|]. by destruct (truthy_int id).
Qed.

Lemma for_each_save_new_song_ok songs w :
  faults w = [] ->
  ∃ w', for_each songs save_new_song w = (Return tt, w') ∧ faults w' = []
        ∧ trace w' = trace w
        ∧ (db w', song_cache w') = fold_left resolve_song songs (db w, song_cache w).
Proof.
  revert w. induction songs as [|si songs IH]; intros w Hf; [by exists w|].
  cbn [for_each fold_left]. unfold bind.
  destruct (save_new_song_ok si w Hf) as (w1 & -> & Hf1 & Ht1 & <-).
  destruct (IH w1 Hf1) as (w2 & -> & Hf2 & Ht2 & <-).
  exists w2. by rewrite Ht2, Ht1.
Qed.

Lemma batch_ok live_id songs w :
  faults w = [] ->
  ∃ w', save_live_song_relations_batch live_id songs w = (Return tt, w')
        ∧ faults w' = [] ∧ song_cache w' = song_cache w
        ∧ db w' = fold_left upsert_live_history_song
                    (relations_from (song_cache w) live_id 1 songs) (db w).
Proof.
  intros Hf. unfold save_live_song_relations_batch.
  destruct songs as [|si rest]; [by exists w|].
  cbv beta iota. generalize (si :: rest) as songs. intros songs.
  rewrite (pop_fault_nil _ Hf). cbn [connect commit].
  rewrite executemany_ok by done.
  destruct (relations_from (song_cache w) live_id 1 songs); [by exists w|].
  by eexists.
Qed.

Lemma process_show_ok i ld w :
  faults w = [] ->
  ∃ w', process_show (i, ld) w = (Return tt, w') ∧ faults w' = []
        ∧ (db w', song_cache w') = show_effect (db w, song_cache w) ld.
Proof.
  intros Hf. unfold process_show, show_effect, bind, log. cbn [fst snd].
  rewrite save_live_history_ok by done.
  cbn [truthy_opt default from_option id db].
  destruct (upsert_live_history (db w) ld) as [s1 id]. cbn [fst snd].
  destruct (truthy_int id); cbn [negb]; [|by eexists].
  rewrite get_songs_from_detail_page_spec.
  set (w2 := add_trace _ _).
  destruct (page_songs (ld_url ld)) as [|si rest] eqn:Hsongs; [by eexists|].
  rewrite <- Hsongs. clear Hsongs.
  destruct (for_each_save_new_song_ok (page_songs (ld_url ld)) w2 Hf)
    as (w3 & -> & Hf3 & _ & Hst3).
  destruct (batch_ok id (page_songs (ld_url ld)) w3 Hf3) as (w4 & -> & Hf4 & Hc4 & Hdb4).
  eexists. split; [done|]. split; [done|]. cbn [db song_cache].
  subst w2. cbn [db song_cache add_trace set_db] in Hst3. rewrite <- Hst3. cbn [fst snd].
  by rewrite Hc4, Hdb4.
Qed.

Lemma for_each_process_show_ok entries w :
  faults w = [] ->
  ∃ w', for_each entries process_show w = (Return tt, w') ∧ faults w' = []
        ∧ (db w', song_cache w') = fold_left show_effect entries.*2 (db w, song_cache w).
Proof.
  revert w. induction entries as [|[i ld] entries IH]; intros w Hf; [by exists w|].
  cbn [for_each fold_left fmap list_fmap snd]. unfold bind.
  destruct (process_show_ok i ld w Hf) as (w1 & -> & Hf1 & <-).
  destruct (IH w1 Hf1) as (w2 & -> & Hf2 & <-). by exists w2.
Qed.

Lemma enumerate_snd {A} start (xs : list A) : (enumerate start xs).*2 = xs.
Proof. revert start. induction xs as [|x xs IH]; intros start; cbn; by rewrite ?IH. Qed.

(** An execution without faults returns exactly when the index page is
    fetched and parsed, and leaves the store [crawled] describes. *)
Lemma crawl_ok s :
  db (crawl s []).2 = crawled s
  ∧ (crawl s []).1 = match index_entries with Return _ => Return tt | Raise e => Raise e end.
Proof.
  unfold crawl, crawled, index_entries, bind, init, load_existing_songs.
  cbn [pop_fault faults set_cache connect execute_fails db song_cache].
  rewrite (right_id_L ∅ (∪)).
  unfold run, get_live_history, bind, log, raise, ret. cbn [db song_cache faults trace].
  destruct (http_get main_url) as [e|[|t ts]]; [done|done|].
  destruct (history_rows (tail (trs t)) []) as [l|e]; [|done].
  set (w := Build_world _ _ _ _).
  destruct (for_each_process_show_ok (enumerate 0 l) w eq_refl) as (w' & -> & _ & Hst).
  rewrite enumerate_snd in Hst. subst w. cbn [db song_cache set_cache] in Hst.
  cbn [fst snd]. by rewrite <- Hst.
Qed.

(** ** What the upserts keep *)

Lemma shows_kept_refl m : shows_kept m m.
Proof. intros k r H. by exists r. Qed.

Lemma shows_kept_trans m1 m2 m3 : shows_kept m1 m2 -> shows_kept m2 m3 -> shows_kept m1 m3.
Proof.
  intros H12 H23 k r H. destruct (H12 k r H) as (r2 & H2 & <-).
  destruct (H23 k r2 H2) as (r3 & H3 & <-). by exists r3.
Qed.

Lemma songs_kept_refl m : songs_kept m m.
Proof. intros k r H. by exists r. Qed.

Lemma songs_kept_trans m1 m2 m3 : songs_kept m1 m2 -> songs_kept m2 m3 -> songs_kept m1 m3.
Proof.
  intros H12 H23 k r H. destruct (H12 k r H) as (r2 & H2 & <-).
  destruct (H23 k r2 H2) as (r3 & H3 & <-). by exists r3.
Qed.

Lemma upsert_live_history_spec s ld :
  let key := (ld_date ld, ld_performance_name ld) in
  let res := upsert_live_history s ld in
  live_history res.1
  = <[key := {| show_id := res.2; show_venue := ld_venue ld; show_url := ld_url ld |}]>
      (live_history s)
  ∧ live_song res.1 = live_song s
  ∧ live_song_seq res.1 = live_song_seq s
  ∧ live_history_song res.1 = live_history_song s
  ∧ res.2 = match live_history s !! key with
            | Some r => show_id r
            | None => live_history_seq s + 1
            end.
Proof.
  intros key res. subst res. unfold upsert_live_history. fold key.
  by destruct (live_history s !! key).
Qed.

Lemma upsert_live_song_spec s name url :
  let res := upsert_live_song s name url in
  live_song res.1 = <[name := {| song_id := res.2; song_url := url |}]> (live_song s)
  ∧ live_history res.1 = live_history s
  ∧ live_history_seq res.1 = live_history_seq s
  ∧ live_history_song res.1 = live_history_song s
  ∧ res.2 = match live_song s !! name with
            | Some r => song_id r
            | None => live_song_seq s + 1
            end.
Proof.
  intros res. subst res. unfold upsert_live_song. by destruct (live_song s !! name).
Qed.

Lemma upsert_live_history_kept s ld :
  shows_kept (live_history s) (live_history (upsert_live_history s ld).1).
Proof.
  destruct (upsert_live_history_spec s ld) as (-> & _ & _ & _ & Hid).
  intros k r Hk.
  destruct (decide ((ld_date ld, ld_performance_name ld) = k)) as [<-|Hne].
  - rewrite lookup_insert_eq. eexists. split; [done|]. cbn. by rewrite Hid, Hk.
  - rewrite lookup_insert_ne by done. by exists r.
Qed.

Lemma upsert_live_song_kept s name url :
  songs_kept (live_song s) (live_song (upsert_live_song s name url).1).
Proof.
  destruct (upsert_live_song_spec s name url) as (-> & _ & _ & _ & Hid).
  intros k r Hk. destruct (decide (name = k)) as [<-|Hne].
  - rewrite lookup_insert_eq. eexists. split; [done|]. cbn. by rewrite Hid, Hk.
  - rewrite lookup_insert_ne by done. by exists r.
Qed.

(** One turn of the loop over the new songs. *)
Lemma resolve_song_spec st si :
  let st' := resolve_song st si in
  live_history st'.1 = live_history st.1
  ∧ live_history_seq st'.1 = live_history_seq st.1
  ∧ live_history_song st'.1 = live_history_song st.1
  ∧ songs_kept (live_song st.1) (live_song st'.1)
  ∧ (cache_sound st.2 (live_song st.1) ->
     cache_sound st'.2 (live_song st'.1)
     ∧ covered st'.2 (live_song st'.1) (si_name si)
     ∧ ∀ n, covered st.2 (live_song st.1) n -> covered st'.2 (live_song st'.1) n).
Proof.
  intros st'. subst st'. unfold resolve_song.
  destruct (st.2 !! si_name si) as [id|] eqn:Hc.
  { split; [done|]. split; [done|]. split; [done|]. split; [apply songs_kept_refl|].
    intros H. split; [done|]. split; [|done].
    destruct (H _ _ Hc) as (r & Hr & <-). exists r. split; [done|]. by left. }
  pose proof (upsert_live_song_kept st.1 (si_name si) (Some (si_url si))) as Hkept.
  destruct (upsert_live_song_spec st.1 (si_name si) (Some (si_url si)))
    as (Hsongs & Hh & Hseq & Ha & Hid).
  destruct (upsert_live_song st.1 (si_name si) (Some (si_url si))) as [s' id].
  cbn [fst snd] in *.
  split; [done|]. split; [done|]. split; [done|]. split; [done|].
  intros H. split; [|split].
  - intros n id' Hn. rewrite Hsongs.
    destruct (decide (si_name si = n)) as [<-|Hne].
    + rewrite lookup_insert_eq. eexists. split; [done|]. cbn.
      destruct (truthy_int id); [|congruence].
      rewrite lookup_insert_eq in Hn. congruence.
    + rewrite lookup_insert_ne by done. apply H.
      destruct (truthy_int id); [by rewrite lookup_insert_ne in Hn|done].
  - rewrite Hsongs. eexists. rewrite lookup_insert_eq. split; [done|]. cbn.
    unfold truthy_int. destruct (Z.eqb_spec id 0) as [->|Hne]; cbn.
    + by right.
    + left. by rewrite lookup_insert_eq.
  - intros n (r & Hr & Hcov). rewrite Hsongs. unfold covered.
    destruct (decide (si_name si = n)) as [<-|Hne].
    + rewrite lookup_insert_eq. eexists. split; [done|]. cbn.
      rewrite Hr in Hid. destruct Hcov as [Hcov|[_ H0]]; [congruence|].
      right. rewrite Hid, H0. cbn. by rewrite H0 in Hid.
    + rewrite lookup_insert_ne by done. exists r. split; [done|].
      destruct (truthy_int id); [by rewrite lookup_insert_ne|done].
Qed.

Lemma resolve_songs_spec songs st :
  let st' := fold_left resolve_song songs st in
  live_history st'.1 = live_history st.1
  ∧ live_history_seq st'.1 = live_history_seq st.1
  ∧ live_history_song st'.1 = live_history_song st.1
  ∧ songs_kept (live_song st.1) (live_song st'.1)
  ∧ (cache_sound st.2 (live_song st.1) ->
     cache_sound st'.2 (live_song st'.1)
     ∧ (∀ si, si ∈ songs -> covered st'.2 (live_song st'.1) (si_name si))
     ∧ ∀ n, covered st.2 (live_song st.1) n -> covered st'.2 (live_song st'.1) n).
Proof.
  revert st. induction songs as [|si songs IH]; intros st; cbn [fold_left].
  { split; [done|]. split; [done|]. split; [done|]. split; [apply songs_kept_refl|].
    intros H. split; [done|]. split; [|done]. by intros si ?%elem_of_nil. }
  destruct (resolve_song_spec st si) as (Hh & Hseq & Ha & Hk & Hs).
  destruct (IH (resolve_song st si)) as (Hh' & Hseq' & Ha' & Hk' & Hs').
  cbn zeta in *. rewrite Hh', Hseq', Ha'.
  split; [done|]. split; [done|]. split; [done|].
  split; [by eapply songs_kept_trans|].
  intros Hsound. destruct (Hs Hsound) as (Hs1 & Hs2 & Hs3).
  destruct (Hs' Hs1) as (Hs1' & Hs2' & Hs3'). split; [done|]. split.
  - intros si' [->|Hin]%elem_of_cons; [by apply Hs3'|by apply Hs2'].
  - intros n Hn. by apply Hs3', Hs3.
Qed.

(** One turn of the loop of [run], without faults. *)
Lemma show_effect_fields st ld :
  let up := upsert_live_history st.1 ld in
  let songs := page_songs (ld_url ld) in
  let st2 := fold_left resolve_song songs (up.1, st.2) in
  let st' := show_effect st ld in
  live_history st'.1 = live_history up.1
  ∧ (truthy_int up.2 = false ->
     live_song st'.1 = live_song st.1 ∧ st'.2 = st.2
     ∧ live_history_song st'.1 = live_history_song st.1)
  ∧ (truthy_int up.2 = true ->
     live_song st'.1 = live_song st2.1 ∧ st'.2 = st2.2
     ∧ live_history_song st'.1
       = live_history_song
           (fold_left upsert_live_history_song (relations_from st2.2 up.2 1 songs) st2.1)).
Proof.
  intros up songs st2 st'. subst st'. unfold show_effect. fold up.
  destruct (upsert_live_history_spec st.1 ld) as (_ & Hsong & _ & Hassoc & _). fold up in Hsong, Hassoc.
  destruct (resolve_songs_spec songs (up.1, st.2)) as (Hh & _). fold st2 in Hh.
  destruct up as [s1 id] eqn:Hup. cbn [fst snd] in *.
  destruct (truthy_int id); fold songs; fold st2; cbn [fst snd].
  - destruct (fold_upsert_other (relations_from st2.2 id 1 songs) st2.1) as (-> & _ & -> & _).
    repeat split; done.
  - repeat split; done.
Qed.

Lemma show_effect_kept st ld :
  let st' := show_effect st ld in
  shows_kept (live_history st.1) (live_history st'.1)
  ∧ songs_kept (live_song st.1) (live_song st'.1)
  ∧ (cache_sound st.2 (live_song st.1) -> cache_sound st'.2 (live_song st'.1)).
Proof.
  intros st'. destruct (show_effect_fields st ld) as (Hh & Hf & Ht). fold st' in Hh, Hf, Ht.
  pose proof (upsert_live_history_kept st.1 ld) as Hk.
  destruct (upsert_live_history_spec st.1 ld) as (_ & Hsong & _).
  destruct (resolve_songs_spec (page_songs (ld_url ld)) ((upsert_live_history st.1 ld).1, st.2))
    as (_ & _ & _ & Hsk & Hsound).
  cbn [fst snd] in *. rewrite Hsong in Hsk, Hsound.
  split; [by rewrite Hh|].
  destruct (truthy_int (upsert_live_history st.1 ld).2).
  - destruct (Ht eq_refl) as (-> & -> & _). split; [done|]. intros H. by apply Hsound.
  - destruct (Hf eq_refl) as (-> & -> & _). split; [apply songs_kept_refl|done].
Qed.

Lemma crawl_fold_kept l st :
  let st' := fold_left show_effect l st in
  shows_kept (live_history st.1) (live_history st'.1)
  ∧ songs_kept (live_song st.1) (live_song st'.1).
Proof.
  revert st. induction l as [|ld l IH]; intros st; cbn [fold_left].
  { split; [apply shows_kept_refl|apply songs_kept_refl]. }
  destruct (show_effect_kept st ld) as (H1 & H2 & _).
  destruct (IH (show_effect st ld)) as (H1' & H2').
  split; [by eapply shows_kept_trans|by eapply songs_kept_trans].
Qed.

(** ** A second execution over the same pages *)

Lemma resolve_songs_cached songs s (c : gmap string Z) :
  (∀ si, si ∈ songs -> is_Some (c !! si_name si)) ->
  fold_left resolve_song songs (s, c) = (s, c).
Proof.
  induction songs as [|si songs IH]; intros H; [done|]. cbn [fold_left].
  unfold resolve_song at 2. cbn [fst snd].
  destruct (H si) as [id ->]; [by left|]. apply IH. intros si' Hin. apply H. by right.
Qed.

Lemma relations_from_ext (c1 c2 : gmap string Z) live_id order songs :
  (∀ si, si ∈ songs ->
     truthy_opt truthy_int (c1 !! si_name si) = truthy_opt truthy_int (c2 !! si_name si)
     ∧ (truthy_opt truthy_int (c1 !! si_name si) = true ->
        c1 !! si_name si = c2 !! si_name si)) ->
  relations_from c1 live_id order songs = relations_from c2 live_id order songs.
Proof.
  revert order. induction songs as [|si songs IH]; intros order H; [done|].
  cbn [relations_from]. rewrite IH by (intros si' Hin; apply H; by right).
  destruct (H si) as [Ht Heq]; [by left|]. rewrite <- Ht.
  destruct (truthy_opt truthy_int (c1 !! si_name si)); [|done]. by rewrite <- Heq.
Qed.

Lemma covered_same_identity c m mn n :
  covered c m n -> songs_kept m mn ->
  truthy_opt truthy_int (c !! n) = truthy_opt truthy_int ((song_id <$> mn) !! n)
  ∧ (truthy_opt truthy_int (c !! n) = true -> c !! n = (song_id <$> mn) !! n).
Proof.
  intros (r & Hr & Hc) Hk. destruct (Hk n r Hr) as (r' & Hr' & Hid).
  rewrite lookup_fmap, Hr'. cbn. rewrite Hid.
  destruct Hc as [->|[-> ->]]; done.
Qed.

Lemma fold_last_write_same key rels a b :
  fold_left (last_write key) rels a = fold_left (last_write key) rels b
  ∨ (fold_left (last_write key) rels a = a ∧ fold_left (last_write key) rels b = b).
Proof.
  revert a b. induction rels as [|r rels IH]; intros a b; cbn [fold_left]; [by right|].
  destruct (decide (relation_key r = key)) as [He|Hne].
  - left. assert (last_write key a r = last_write key b r) as ->; [|done].
    unfold last_write. by rewrite !decide_True.
  - assert (Hx : ∀ x, last_write key x r = x)
      by (intros x; unfold last_write; by rewrite decide_False).
    rewrite !Hx. apply IH.
Qed.

Lemma rerun_step A c B An ld :
  cache_sound c (live_song A) ->
  let st' := show_effect (A, c) ld in
  shows_kept (live_history st'.1) (live_history An) ->
  songs_kept (live_song st'.1) (live_song An) ->
  rerun_inv A B An ->
  ∃ B', show_effect (B, song_id <$> live_song An) ld = (B', song_id <$> live_song An)
        ∧ rerun_inv st'.1 B' An.
Proof.
  intros Hsound st' HkS HkN (I1 & I2 & I3 & I4).
  set (d := song_id <$> live_song An).
  set (key := (ld_date ld, ld_performance_name ld)).
  destruct (show_effect_fields (A, c) ld) as (HhA & HfA & HtA). fold st' in HhA, HfA, HtA.
  destruct (show_effect_fields (B, d) ld) as (HhB & HfB & HtB).
  destruct (upsert_live_history_spec A ld) as (HA1 & HA2 & _ & HA4 & HidA).
  destruct (upsert_live_history_spec B ld) as (HB1 & HB2 & _ & HB4 & HidB).
  fold key in HA1, HB1, HidA, HidB. cbn [fst snd] in *.
  set (upA := upsert_live_history A ld) in *. set (upB := upsert_live_history B ld) in *.
  (* the second execution finds the show, under the identity of the first *)
  assert (Hid : upB.2 = upA.2 ∧ is_Some (live_history B !! key)).
  { assert (HAn : ∃ r, live_history An !! key = Some r ∧ show_id r = upA.2).
    { assert (Hrow : live_history st'.1 !! key
                     = Some {| show_id := upA.2; show_venue := ld_venue ld;
                               show_url := ld_url ld |})
        by (rewrite HhA, HA1; by rewrite lookup_insert_eq).
      destruct (HkS _ _ Hrow) as (r & Hr & Hrid). by exists r. }
    destruct HAn as (r & Hr & Hrid). specialize (I2 key). rewrite Hr in I2.
    destruct (live_history B !! key) as [rb|]; [|done]. cbn in I2.
    split; [congruence|done]. }
  destruct Hid as [Hid [rb Hrb]].
  assert (Hshows : (∀ k, show_id <$> live_history upB.1 !! k = show_id <$> live_history An !! k)
                   ∧ (∀ k, live_history upB.1 !! k = live_history upA.1 !! k
                           ∨ live_history upB.1 !! k = live_history An !! k)).
  { split; intros k; rewrite HB1, ?HA1; destruct (decide (key = k)) as [<-|Hne].
    - rewrite lookup_insert_eq. cbn. by rewrite <- I2, HidB, Hrb.
    - by rewrite lookup_insert_ne.
    - rewrite !lookup_insert_eq, Hid. by left.
    - rewrite !lookup_insert_ne by done. apply I3. }
  destruct Hshows as [I2' I3'].
  destruct (truthy_int upA.2) eqn:Htruthy.
  - (* the show is processed *)
    destruct (HtA eq_refl) as (HsA & HcA & HaA). rewrite Hid, Htruthy in HtB.
    destruct (HtB eq_refl) as (HsB & HcB & HaB). clear HfA HfB HtA HtB.
    set (songs := page_songs (ld_url ld)) in *.
    destruct (resolve_songs_spec songs (upA.1, c)) as (_ & _ & HrA & HrkA & HrsA).
    cbn [fst snd] in *. rewrite HA2 in HrsA.
    destruct (HrsA Hsound) as (Hsound2 & Hcov & _).
    set (stA := fold_left resolve_song songs (upA.1, c)) in *.
    assert (Hres : fold_left resolve_song songs (upB.1, d) = (upB.1, d)).
    { apply resolve_songs_cached. intros si Hin.
      destruct (Hcov si Hin) as (r & Hr & _). rewrite <- HsA in Hr.
      destruct (HkN _ _ Hr) as (r' & Hr' & _). subst d. rewrite lookup_fmap, Hr'. by eexists. }
    rewrite Hres in HsB, HcB, HaB. cbn [fst snd] in *.
    assert (Hrels : relations_from stA.2 upA.2 1 songs = relations_from d upA.2 1 songs).
    { apply relations_from_ext. intros si Hin. eapply covered_same_identity; [by apply Hcov|].
      by rewrite <- HsA. }
    exists (show_effect (B, d) ld).1. split.
    { rewrite (surjective_pairing (show_effect (B, d) ld)). by rewrite HcB. }
    split; [by rewrite HsB, HB2|]. split; [by intros k; rewrite HhB|].
    split; [by intros k; rewrite HhB, HhA|].
    intros k. rewrite HaB, HaA, Hrels, !fold_upsert_lookup, HrA, HA4, HB4.
    destruct (fold_last_write_same k (relations_from d upA.2 1 songs)
                (live_history_song B !! k) (live_history_song A !! k)) as [->|[-> ->]];
      [by left|apply I4].
  - (* the show is skipped *)
    destruct (HfA eq_refl) as (HsA & HcA & HaA). rewrite Hid, Htruthy in HfB.
    destruct (HfB eq_refl) as (HsB & HcB & HaB).
    exists (show_effect (B, d) ld).1. split.
    { rewrite (surjective_pairing (show_effect (B, d) ld)). by rewrite HcB. }
    split; [by rewrite HsB|]. split; [by intros k; rewrite HhB|].
    split; [by intros k; rewrite HhB, HhA|].
    intros k. rewrite HaB, HaA. apply I4.
Qed.

Lemma rerun_sim l A c B :
  cache_sound c (live_song A) ->
  let An := (fold_left show_effect l (A, c)).1 in
  rerun_inv A B An ->
  same_tables (fold_left show_effect l (B, song_id <$> live_song An)).1 An.
Proof.
  revert A c B. induction l as [|ld l IH]; intros A c B Hsound An Hinv.
  - subst An. cbn [fold_left fst] in *. destruct Hinv as (I1 & _ & I3 & I4).
    split; [|split; [done|]]; apply map_eq; intros k.
    + by destruct (I3 k).
    + by destruct (I4 k).
  - cbn [fold_left] in *. set (st' := show_effect (A, c) ld) in *.
    destruct (crawl_fold_kept l st') as [HkS HkN]. fold An in HkS, HkN.
    destruct (rerun_step A c B An ld Hsound HkS HkN Hinv) as (B' & -> & Hinv').
    destruct (show_effect_kept (A, c) ld) as (_ & _ & Hsound'). fold st' in Hsound'.
    specialize (IH st'.1 st'.2 B' (Hsound' Hsound)).
    rewrite <- surjective_pairing in IH. by apply IH.
Qed.

Lemma crawled_twice s : same_tables (crawled (crawled s)) (crawled s).
Proof.
  unfold crawled. destruct index_entries as [l|e]; [|done].
  apply rerun_sim.
  - intros n id. rewrite lookup_fmap. destruct (live_song s !! n) as [r|]; [|done].
    intros [= <-]. by exists r.
  - split; [done|]. split; [done|]. split; intros k; by right.
Qed.

(** ** Idempotence *)

(** C6. An execution over the store a first execution over the same
    pages has left, neither meeting a fault, ends as the first did and
    leaves the three tables with the rows they had: the same shows, songs
    and associations, none added. *)
Theorem C6_idempotent_rerun s :
  let first := crawl s [] in
  let second := crawl (db first.2) [] in
  second.1 = first.1
  ∧ same_tables (db second.2) (db first.2)
  ∧ size (live_history (db second.2)) = size (live_history (db first.2))
  ∧ size (live_song (db second.2)) = size (live_song (db first.2))
  ∧ size (live_history_song (db second.2)) = size (live_history_song (db first.2)).
Proof.
  intros first second. subst first second.
  destruct (crawl_ok s) as [Hdb1 Hres1].
  destruct (crawl_ok (db (crawl s []).2)) as [Hdb2 Hres2].
  rewrite Hres2, Hres1, Hdb2, Hdb1.
  destruct (crawled_twice s) as (H1 & H2 & H3).
  split; [done|]. split; [done|]. by rewrite H1, H2, H3.
Qed.

(** ** Well-formed stores *)

Lemma upsert_live_history_wf s ld :
  wf_store s ->
  wf_store (upsert_live_history s ld).1 ∧ 0 < (upsert_live_history s ld).2
  ∧ (upsert_live_history s ld).2 <= live_history_seq (upsert_live_history s ld).1.
Proof.
  intros (Hs1 & Hs2 & Hid & Hinj & Hsong & Hassoc).
  unfold upsert_live_history. fold (show_key ld).
  destruct (live_history s !! show_key ld) as [r|] eqn:Hr; cbn [fst snd].
  - split; [|by apply (Hid _ _ Hr)].
    split; [done|]. split; [done|]. cbn.
    assert (Hlook : ∀ k r', <[show_key ld := {| show_id := show_id r; show_venue := ld_venue ld;
                                                show_url := ld_url ld |}]> (live_history s) !! k
                            = Some r' ->
                            ∃ r0, live_history s !! k = Some r0 ∧ show_id r0 = show_id r').
    { intros k r'. destruct (decide (show_key ld = k)) as [<-|Hne].
      - rewrite lookup_insert_eq. intros [= <-]. by exists r.
      - rewrite lookup_insert_ne by done. intros H. by exists r'. }
    split; [|split; [|done]].
    + intros k r' (r0 & H0 & <-)%Hlook. by apply (Hid _ _ H0).
    + intros k k' r1 r2 (r1' & H1 & <-)%Hlook (r2' & H2 & <-)%Hlook. by apply Hinj.
  - split; [|cbn; lia]. split; [cbn; lia|]. split; [done|]. cbn.
    split; [|split; [|split; [done|]]].
    + intros k r'. destruct (decide (show_key ld = k)) as [<-|Hne].
      * rewrite lookup_insert_eq. intros [= <-]. cbn. lia.
      * rewrite lookup_insert_ne by done. intros H%Hid. lia.
    + intros k k' r1 r2.
      destruct (decide (show_key ld = k)) as [<-|Hne];
        destruct (decide (show_key ld = k')) as [<-|Hne']; try done.
      * rewrite lookup_insert_eq, lookup_insert_ne by done.
        intros [= <-] H%Hid. cbn. lia.
      * rewrite lookup_insert_eq, lookup_insert_ne by done.
        intros H%Hid [= <-]. cbn. lia.
      * rewrite !lookup_insert_ne by done. apply Hinj.
    + intros k row H%Hassoc. lia.
Qed.

Lemma upsert_live_song_wf s name url :
  wf_store s -> wf_store (upsert_live_song s name url).1.
Proof.
  intros (Hs1 & Hs2 & Hid & Hinj & Hsong & Hassoc). unfold upsert_live_song.
  destruct (live_song s !! name) as [r|] eqn:Hr; cbn [fst].
  - split; [done|]. split; [done|]. split; [done|]. split; [done|]. split; [|done].
    cbn. intros n r'. destruct (decide (name = n)) as [<-|Hne].
    + rewrite lookup_insert_eq. intros [= <-]. by apply (Hsong _ _ Hr).
    + rewrite lookup_insert_ne by done. apply Hsong.
  - split; [done|]. split; [cbn; lia|]. split; [done|]. split; [done|]. split; [|done].
    cbn. intros n r'. destruct (decide (name = n)) as [<-|Hne].
    + rewrite lookup_insert_eq. intros [= <-]. cbn. lia.
    + rewrite lookup_insert_ne by done. intros H%Hsong. lia.
Qed.

Lemma resolve_songs_wf songs st : wf_store st.1 -> wf_store (fold_left resolve_song songs st).1.
Proof.
  revert st. induction songs as [|si songs IH]; intros st Hwf; [done|].
  cbn [fold_left]. apply IH. unfold resolve_song.
  destruct (st.2 !! si_name si); [done|].
  pose proof (upsert_live_song_wf st.1 (si_name si) (Some (si_url si)) Hwf).
  by destruct (upsert_live_song st.1 (si_name si) (Some (si_url si))).
Qed.

Lemma fold_upsert_wf rels s live_id :
  wf_store s -> 0 < live_id <= live_history_seq s ->
  (∀ rel, rel ∈ rels -> (relation_key rel).1 = live_id) ->
  wf_store (fold_left upsert_live_history_song rels s).
Proof.
  intros (Hs1 & Hs2 & Hid & Hinj & Hsong & Hassoc) Hlive Hrels.
  destruct (fold_upsert_other rels s) as (Hh & Hseq & Hso & Hsseq).
  unfold wf_store. rewrite Hh, Hseq, Hso, Hsseq.
  split; [done|]. split; [done|]. split; [done|]. split; [done|]. split; [done|].
  intros k row. rewrite fold_upsert_lookup.
  intros [(rel & Hin & <- & _)|H]%fold_last_write_cases.
  - by rewrite (Hrels rel Hin).
  - by apply (Hassoc _ _ H).
Qed.

Lemma show_effect_truthy st ld :
  truthy_int (upsert_live_history st.1 ld).2 = true ->
  let st2 := fold_left resolve_song (page_songs (ld_url ld))
               ((upsert_live_history st.1 ld).1, st.2) in
  show_effect st ld
  = (fold_left upsert_live_history_song
       (relations_from st2.2 (upsert_live_history st.1 ld).2 1 (page_songs (ld_url ld)))
       st2.1, st2.2).
Proof.
  intros H st2. subst st2. unfold show_effect.
  destruct (upsert_live_history st.1 ld) as [s1 id]. cbn [fst snd] in *. by rewrite H.
Qed.

(** One turn of the loop of [run] on a well-formed store, without
    faults: the show has its row, its setlist is stored in full, and no
    association of another show is touched. *)
Lemma show_effect_wf st ld :
  wf_store st.1 -> cache_sound st.2 (live_song st.1) ->
  let id := (upsert_live_history st.1 ld).2 in
  let songs := page_songs (ld_url ld) in
  let st' := show_effect st ld in
  wf_store st'.1 ∧ cache_sound st'.2 (live_song st'.1)
  ∧ live_history st'.1
    = <[show_key ld := {| show_id := id; show_venue := ld_venue ld;
                          show_url := ld_url ld |}]> (live_history st.1)
  ∧ songs_kept (live_song st.1) (live_song st'.1)
  ∧ (∀ k, k.1 ≠ id -> live_history_song st'.1 !! k = live_history_song st.1 !! k)
  ∧ (songs = [] -> live_history_song st'.1 = live_history_song st.1)
  ∧ full_setlist st'.1 id songs.
Proof.
  intros Hwf Hsound id songs st'.
  destruct (upsert_live_history_wf st.1 ld Hwf) as (Hwf1 & Hpos & Hle). fold id in Hpos, Hle.
  destruct (upsert_live_history_spec st.1 ld) as (Hh1 & Hs1 & _ & Ha1 & _).
  fold id in Hh1. fold (show_key ld) in Hh1. cbn zeta in Hs1, Ha1.
  assert (Htruthy : truthy_int id = true).
  { unfold truthy_int. destruct (Z.eqb_spec id 0); [lia|done]. }
  pose proof (show_effect_truthy st ld Htruthy) as Heff. fold id songs st' in Heff.
  cbn zeta in Heff.
  set (st2 := fold_left resolve_song songs ((upsert_live_history st.1 ld).1, st.2)) in *.
  destruct (resolve_songs_spec songs ((upsert_live_history st.1 ld).1, st.2))
    as (Hh2 & Hseq2 & Ha2 & Hk2 & Hs2). fold st2 in Hh2, Hseq2, Ha2, Hk2, Hs2.
  cbn [fst snd] in *. rewrite Hs1 in Hk2, Hs2.
  destruct (Hs2 Hsound) as (Hsound2 & Hcov & _).
  pose proof (resolve_songs_wf songs ((upsert_live_history st.1 ld).1, st.2) Hwf1) as Hwf2.
  fold st2 in Hwf2.
  set (rels := relations_from st2.2 id 1 songs) in *.
  assert (Hrels : ∀ rel, rel ∈ rels -> (relation_key rel).1 = id).
  { by intros rel (j & sj & sid & _ & _ & _ & ->)%relations_from_elem. }
  destruct (fold_upsert_other rels st2.1) as (Hh3 & _ & Hs3 & _).
  rewrite Heff. cbn [fst snd].
  split; [apply (fold_upsert_wf rels st2.1 id); [done|by rewrite Hseq2|done]|].
  split; [by rewrite Hs3|]. split; [by rewrite Hh3, Hh2|]. split; [by rewrite Hs3|].
  split; [|split].
  - intros k Hk. rewrite fold_upsert_lookup, Ha2, Ha1.
    apply fold_last_write_untouched. intros rel Hin Hkey. apply Hk.
    by rewrite <- Hkey, (Hrels rel Hin).
  - intros Hnil. subst rels. by rewrite Hnil, <- Ha1, <- Ha2.
  - intros i si Hi. rewrite Hs3.
    destruct (Hcov si (list_elem_of_lookup_2 _ _ _ Hi)) as (r & Hr & Hc).
    destruct Hwf2 as (_ & _ & _ & _ & Hsongid & _).
    destruct Hc as [Hc|[_ H0]]; [|pose proof (Hsongid _ _ Hr); lia].
    destruct (last_occurrence st2.2 songs (song_id r) i si Hi Hc)
      as (j & sj & Hle' & Hj & Hcj & Hlast).
    destruct (Hsound2 _ _ Hcj) as (rj & Hrj & Hidj).
    exists r, j, sj, rj. repeat split; try done.
    rewrite fold_upsert_lookup, Z.add_comm.
    eapply fold_last_write_relations; eauto.
    pose proof (Hsongid _ _ Hr). lia.
Qed.

Lemma cache_sound_loaded (m : gmap string song_row) : cache_sound (song_id <$> m) m.
Proof.
  intros n id. rewrite lookup_fmap. destruct (m !! n) as [r|]; [|done].
  intros [= <-]. by exists r.
Qed.

Lemma full_setlist_kept s s' live_id songs :
  songs_kept (live_song s) (live_song s') ->
  (∀ sid, live_history_song s' !! (live_id, sid) = live_history_song s !! (live_id, sid)) ->
  full_setlist s live_id songs -> full_setlist s' live_id songs.
Proof.
  intros Hk Ha Hfull i si Hi.
  destruct (Hfull i si Hi) as (r & j & sj & rj & Hr & Hle & Hj & Hrj & Hid & Hrow).
  destruct (Hk _ _ Hr) as (r' & Hr' & Hid'). destruct (Hk _ _ Hrj) as (rj' & Hrj' & Hidj').
  exists r', j, sj, rj'. repeat split; try done; [congruence|].
  by rewrite Ha, Hid'.
Qed.

(** ** Fault isolation *)

Lemma scan_tables_at before t after :
  Forall (fun t' => has_song_column t' = false) before -> has_song_column t = true ->
  scan_tables (before ++ t :: after) = table_songs (tail (trs t)).
Proof.
  intros Hb Ht. induction Hb as [|t' before Ht' _ IH]; cbn [app scan_tables];
    [by rewrite Ht|by rewrite Ht'].
Qed.

(** The setlist of a page is the one of its first table with the song
    column. *)
Lemma page_songs_table u before t after :
  truthy_str u = true -> http_get u = Parsed (before ++ t :: after) ->
  Forall (fun t' => has_song_column t' = false) before -> has_song_column t = true ->
  first_error song_link_error (tail (trs t)) = None ->
  page_songs (Some u) = setlist_of (tail (trs t)).
Proof.
  intros Hu Hget Hb Ht Herr. unfold page_songs, detail_page_body.
  by rewrite Hu, Hget, (scan_tables_at _ _ _ Hb Ht), table_songs_setlist, Herr.
Qed.

(** Three shows, the detail page of the second cannot be fetched, no
    fault of the store. *)
Lemma three_shows_isolated s e1 e2 e3 u2 err :
  wf_store s ->
  index_entries = Return [e1; e2; e3] ->
  show_key e1 ≠ show_key e2 -> show_key e1 ≠ show_key e3 -> show_key e2 ≠ show_key e3 ->
  ld_url e2 = Some u2 -> http_get u2 = Fails err ->
  let res := crawl s [] in
  res.1 = Return tt ∧
  ∃ id1 id2 id3,
    live_history (db res.2) !! show_key e1
    = Some {| show_id := id1; show_venue := ld_venue e1; show_url := ld_url e1 |}
    ∧ live_history (db res.2) !! show_key e2
      = Some {| show_id := id2; show_venue := ld_venue e2; show_url := ld_url e2 |}
    ∧ live_history (db res.2) !! show_key e3
      = Some {| show_id := id3; show_venue := ld_venue e3; show_url := ld_url e3 |}
    ∧ full_setlist (db res.2) id1 (page_songs (ld_url e1))
    ∧ full_setlist (db res.2) id3 (page_songs (ld_url e3))
    ∧ (∀ sid, live_history_song (db res.2) !! (id2, sid)
              = live_history_song s !! (id2, sid))
    ∧ (live_history s !! show_key e2 = None ->
       ∀ sid, live_history_song (db res.2) !! (id2, sid) = None).
Proof.
  intros Hwf Hidx H12 H13 H23 Hu2 Hfail res. subst res.
  destruct (crawl_ok s) as [-> ->]. unfold crawled. rewrite Hidx. split; [done|].
  cbn [fold_left].
  set (st0 := (s, song_id <$> live_song s)).
  destruct (show_effect_wf st0 e1 Hwf (cache_sound_loaded _))
    as (Hwf1 & Hsound1 & Hh1 & Hk1 & Ho1 & _ & Hfull1).
  set (st1 := show_effect st0 e1) in *.
  destruct (show_effect_wf st1 e2 Hwf1 Hsound1)
    as (Hwf2 & Hsound2 & Hh2 & Hk2 & Ho2 & Hnil2 & _).
  set (st2 := show_effect st1 e2) in *.
  destruct (show_effect_wf st2 e3 Hwf2 Hsound2)
    as (Hwf3 & Hsound3 & Hh3 & Hk3 & Ho3 & _ & Hfull3).
  set (st3 := show_effect st2 e3) in *.
  set (id1 := (upsert_live_history st0.1 e1).2) in *.
  set (id2 := (upsert_live_history st1.1 e2).2) in *.
  set (id3 := (upsert_live_history st2.1 e3).2) in *.
  assert (Hsongs2 : page_songs (ld_url e2) = []).
  { rewrite Hu2. unfold page_songs, detail_page_body. rewrite Hfail.
    by destruct (truthy_str u2). }
  specialize (Hnil2 Hsongs2).
  assert (Hrow1 : live_history st3.1 !! show_key e1
                  = Some {| show_id := id1; show_venue := ld_venue e1; show_url := ld_url e1 |}).
  { rewrite Hh3, lookup_insert_ne, Hh2, lookup_insert_ne, Hh1 by done.
    apply lookup_insert_eq. }
  assert (Hrow2 : live_history st3.1 !! show_key e2
                  = Some {| show_id := id2; show_venue := ld_venue e2; show_url := ld_url e2 |}).
  { rewrite Hh3, lookup_insert_ne, Hh2 by done. apply lookup_insert_eq. }
  assert (Hrow3 : live_history st3.1 !! show_key e3
                  = Some {| show_id := id3; show_venue := ld_venue e3; show_url := ld_url e3 |}).
  { rewrite Hh3. apply lookup_insert_eq. }
  destruct Hwf3 as (_ & _ & _ & Hinj & _).
  assert (Hid12 : id1 ≠ id2) by (intros Heq; by apply H12, (Hinj _ _ _ _ Hrow1 Hrow2)).
  assert (Hid13 : id1 ≠ id3) by (intros Heq; by apply H13, (Hinj _ _ _ _ Hrow1 Hrow3)).
  assert (Hid23 : id2 ≠ id3) by (intros Heq; by apply H23, (Hinj _ _ _ _ Hrow2 Hrow3)).
  exists id1, id2, id3. split; [done|]. split; [done|]. split; [done|].
  split; [|split; [done|]].
  { apply (full_setlist_kept st1.1); [|by intros sid; rewrite Ho3, Hnil2|done].
    by eapply songs_kept_trans. }
  assert (Hsame : ∀ sid, live_history_song st3.1 !! (id2, sid)
                         = live_history_song s !! (id2, sid)).
  { intros sid. rewrite Ho3, Hnil2, Ho1 by (cbn; congruence). done. }
  split; [done|]. intros Hnew sid. rewrite Ho3, Hnil2 by (cbn; congruence).
  destruct (live_history_song st1.1 !! (id2, sid)) as [row|] eqn:Hrow; [|done].
  destruct Hwf1 as (_ & _ & _ & _ & _ & Hassoc). apply Hassoc in Hrow. cbn in Hrow.
  destruct (upsert_live_history_spec st1.1 e2) as (_ & _ & _ & _ & Hid).
  fold id2 in Hid. fold (show_key e2) in Hid.
  rewrite Hh1, lookup_insert_ne in Hid by done. unfold st0 in Hid. cbn [fst] in Hid.
  rewrite Hnew in Hid. lia.
Qed.

(** C8. [get_songs_from_detail_page] returns on every address, and
    returns the empty list when the fetch or the parse raises inside it.
    So, in an execution without store faults over three different shows
    where the detail page of the second cannot be fetched, the run
    returns and all three shows have their row; the first and the third,
    whose detail pages hold a table with the song column (the first such
    table [t1], [t3], with links [urljoin] accepts), have the setlist of
    the rows of that table stored in full: each song has its row and is
    associated with the show at the position and with the remark it has
    in the table; the associations of the second are those it had
    before: none when the show is new. *)
Theorem C8_detail_fault_isolated :
  (∀ url w, (get_songs_from_detail_page url w).1 = Return (page_songs url)) ∧
  (∀ u e, http_get u = Fails e -> detail_page_body u = Raise e) ∧
  (∀ u w, raises (detail_page_body u) = true ->
          (get_songs_from_detail_page (Some u) w).1 = Return []) ∧
  (∀ s e1 e2 e3 u1 u2 u3 err before1 t1 after1 before3 t3 after3,
     wf_store s ->
     index_entries = Return [e1; e2; e3] ->
     show_key e1 ≠ show_key e2 -> show_key e1 ≠ show_key e3 -> show_key e2 ≠ show_key e3 ->
     ld_url e2 = Some u2 -> http_get u2 = Fails err ->
     ld_url e1 = Some u1 -> truthy_str u1 = true ->
     http_get u1 = Parsed (before1 ++ t1 :: after1) ->
     Forall (fun t => has_song_column t = false) before1 -> has_song_column t1 = true ->
     first_error song_link_error (tail (trs t1)) = None ->
     ld_url e3 = Some u3 -> truthy_str u3 = true ->
     http_get u3 = Parsed (before3 ++ t3 :: after3) ->
     Forall (fun t => has_song_column t = false) before3 -> has_song_column t3 = true ->
     first_error song_link_error (tail (trs t3)) = None ->
     let res := crawl s [] in
     res.1 = Return tt ∧
     ∃ id1 id2 id3,
       live_history (db res.2) !! show_key e1
       = Some {| show_id := id1; show_venue := ld_venue e1; show_url := ld_url e1 |}
       ∧ live_history (db res.2) !! show_key e2
         = Some {| show_id := id2; show_venue := ld_venue e2; show_url := ld_url e2 |}
       ∧ live_history (db res.2) !! show_key e3
         = Some {| show_id := id3; show_venue := ld_venue e3; show_url := ld_url e3 |}
       ∧ full_setlist (db res.2) id1 (setlist_of (tail (trs t1)))
       ∧ full_setlist (db res.2) id3 (setlist_of (tail (trs t3)))
       ∧ (∀ sid, live_history_song (db res.2) !! (id2, sid)
                 = live_history_song s !! (id2, sid))
       ∧ (live_history s !! show_key e2 = None ->
          ∀ sid, live_history_song (db res.2) !! (id2, sid) = None)).
Proof.
  split; [by intros url w; rewrite get_songs_from_detail_page_spec|].
  split; [by intros u e H; unfold detail_page_body; rewrite H|].
  split.
  { intros u w H. rewrite get_songs_from_detail_page_spec. cbn [fst]. f_equal.
    unfold page_songs. destruct (truthy_str u); [|done].
    by destruct (detail_page_body u). }
  intros s e1 e2 e3 u1 u2 u3 err before1 t1 after1 before3 t3 after3
    Hwf Hidx H12 H13 H23 Hu2 Hfail Hu1 Ht1 Hg1 Hb1 Hc1 He1 Hu3 Ht3 Hg3 Hb3 Hc3 He3.
  cbn zeta.
  rewrite <- (page_songs_table u1 _ _ _ Ht1 Hg1 Hb1 Hc1 He1).
  rewrite <- (page_songs_table u3 _ _ _ Ht3 Hg3 Hb3 Hc3 He3).
  rewrite <- Hu1, <- Hu3.
  exact (three_shows_isolated s e1 e2 e3 u2 err Hwf Hidx H12 H13 H23 Hu2 Hfail).
Qed.

(** * Further properties of the code *)

(** ** [parse_date] *)

Lemma make_date_valid y m d :
  valid_date (y, m, d) -> make_date y m d = Return (y, m, d).
Proof.
  unfold valid_date, make_date. cbn [fst snd]. intros (Hy & Hm & Hd).
  repeat (match goal with |- context [?a <=? ?b] =>
            replace (a <=? b) with true by (symmetry; apply Z.leb_le; lia) end).
  done.
Qed.

Lemma make_date_returns y m d r :
  make_date y m d = Return r -> r = (y, m, d) ∧ valid_date r.
Proof.
  unfold make_date, valid_date.
  destruct (_ && _) eqn:H; [|done]. intros [= <-]. split; [done|]. cbn [fst snd].
  repeat (apply andb_prop in H as [H ?]).
  repeat match goal with H : (_ <=? _) = true |- _ => apply Z.leb_le in H end. lia.
Qed.

Lemma strptime_returns s fmt r : strptime s fmt = Return r -> valid_date r.
Proof.
  unfold strptime. destruct (re_format fmt s _) as [[fs [|c rest]]|]; try done.
  by intros [_ ?]%make_date_returns.
Qed.

Lemma try_formats_returns fmts s r :
  try_formats fmts s = Some (Return r) -> valid_date r.
Proof.
  induction fmts as [|fmt fmts IH]; [done|]. cbn [try_formats].
  destruct (strptime s fmt) as [d|[]] eqn:H; try done.
  intros [= <-]. by eapply strptime_returns.
Qed.

Lemma parse_date_body_valid s d :
  parse_date_body s = Return (Some d) -> valid_date d.
Proof.
  unfold parse_date_body.
  destruct (try_formats formats (trim (chars s))) as [[r|e]|] eqn:Hf.
  - intros [= <-]. by eapply try_formats_returns.
  - done.
  - destruct (re_search_ymd (chars s)) as [[[y m] dd]|]; [|done].
    destruct (make_date (int y) (int m) (int dd)) as [r|e] eqn:Hm; [|done].
    intros [= <-]. by apply make_date_returns in Hm as [_ ?].
Qed.

(** X1. Whatever text it is given, a date [parse_date] returns is a date
    of the calendar: year 1 to 9999, month 1 to 12, and a day the month
    has in that year. *)
Theorem parse_date_calendar s d :
  parse_date s = Return (Some d) -> valid_date d.
Proof.
  unfold parse_date. destruct (parse_date_body s) as [r|e] eqn:Hb; [|done].
  intros [= ->]. by eapply parse_date_body_valid.
Qed.


(** The digits 0 to 9 of ASCII. *)
Lemma ascii_digit c :
  48 <= c <= 57 ->
  decimal c = Some (c - 48) ∧ is_digit c = true ∧ is_space c = false.
Proof.
  intros H.
  assert (c = 48 ∨ c = 49 ∨ c = 50 ∨ c = 51 ∨ c = 52 ∨ c = 53 ∨ c = 54 ∨ c = 55
          ∨ c = 56 ∨ c = 57) as Hc by lia.
  repeat destruct Hc as [->|Hc]; try subst c; by vm_compute.
Qed.

Lemma digit_code n : 0 <= n <= 9 -> code (digit n) = 48 + n.
Proof.
  intros H.
  assert (n = 0 ∨ n = 1 ∨ n = 2 ∨ n = 3 ∨ n = 4 ∨ n = 5 ∨ n = 6 ∨ n = 7 ∨ n = 8 ∨ n = 9)
    as Hn by lia.
  repeat destruct Hn as [->|Hn]; try subst n; by vm_compute.
Qed.

(** The characters of a text that starts with a byte below 128, and of
    two texts put together. *)
Lemma chars_ascii c s : code c < 128 -> chars (String c s) = code c :: chars s.
Proof.
  intros H. unfold chars. cbn [chars_from].
  by destruct (Z.ltb_spec (code c) 128); [|lia].
Qed.

Lemma chars_from_start acc s : chars_from acc 0 s = chars s.
Proof. by destruct s. Qed.

Lemma chars_from_app acc need a b :
  lacking need a = 0%nat ->
  chars_from acc need (a +:+ b) = chars_from acc need a ++ chars b.
Proof.
  revert acc need. induction a as [|c a IH]; intros acc need H.
  - cbn in H. subst need. apply chars_from_start.
  - change (String c a +:+ b) with (String c (a +:+ b)).
    cbn [chars_from lacking] in *. destruct need as [|[|n]].
    + destruct (code c <? 128); [by rewrite IH|].
      destruct (code c <? 224); [by rewrite IH|].
      destruct (code c <? 240); by rewrite IH.
    + by rewrite IH.
    + by rewrite IH.
Qed.

Lemma chars_app a b : whole a = true -> chars (a +:+ b) = chars a ++ chars b.
Proof. unfold whole. intros H%Nat.eqb_eq. by apply chars_from_app. Qed.

Lemma int_acc_digit acc c t v :
  decimal c = Some v -> int_acc acc (c :: t) = int_acc (10 * acc + v) t.
Proof. intros H. cbn [int_acc]. by rewrite H. Qed.

Lemma chars_pad4 y :
  0 <= y <= 9999 ->
  ∃ a b c e,
    48 <= a <= 57 ∧ 48 <= b <= 57 ∧ 48 <= c <= 57 ∧ 48 <= e <= 57
    ∧ int [a; b; c; e] = y
    ∧ ∀ r, chars (pad4 y +:+ r) = a :: b :: c :: e :: chars r.
Proof.
  intros Hy.
  assert (H1 : 0 <= y / 1000 <= 9) by (Z.div_mod_to_equations; lia).
  assert (H2 : 0 <= y / 100 mod 10 <= 9) by (Z.div_mod_to_equations; lia).
  assert (H3 : 0 <= y mod 100 / 10 <= 9) by (Z.div_mod_to_equations; lia).
  assert (H4 : 0 <= y mod 100 mod 10 <= 9) by (Z.div_mod_to_equations; lia).
  pose proof (digit_code _ H1) as E1. pose proof (digit_code _ H2) as E2.
  pose proof (digit_code _ H3) as E3. pose proof (digit_code _ H4) as E4.
  exists (48 + y / 1000), (48 + y / 100 mod 10), (48 + y mod 100 / 10),
    (48 + y mod 100 mod 10).
  split; [lia|]. split; [lia|]. split; [lia|]. split; [lia|]. split.
  - unfold int.
    destruct (ascii_digit (48 + y / 1000)) as (D1 & _); [lia|].
    destruct (ascii_digit (48 + y / 100 mod 10)) as (D2 & _); [lia|].
    destruct (ascii_digit (48 + y mod 100 / 10)) as (D3 & _); [lia|].
    destruct (ascii_digit (48 + y mod 100 mod 10)) as (D4 & _); [lia|].
    rewrite (int_acc_digit _ _ _ _ D1), (int_acc_digit _ _ _ _ D2),
      (int_acc_digit _ _ _ _ D3), (int_acc_digit _ _ _ _ D4).
    cbn [int_acc]. Z.div_mod_to_equations; lia.
  - intros r. unfold pad4, pad2.
    change (String ?a (String ?b (String ?c (String ?e EmptyString))) +:+ r)
      with (String a (String b (String c (String e r)))).
    rewrite !chars_ascii by lia. by rewrite E1, E2, E3, E4.
Qed.

Lemma chars_pad2 n :
  0 <= n <= 99 ->
  ∃ a b,
    48 <= a <= 57 ∧ 48 <= b <= 57 ∧ int [a; b] = n
    ∧ ∀ r, chars (pad2 n +:+ r) = a :: b :: chars r.
Proof.
  intros Hn.
  assert (H1 : 0 <= n / 10 <= 9) by (Z.div_mod_to_equations; lia).
  assert (H2 : 0 <= n mod 10 <= 9) by (Z.div_mod_to_equations; lia).
  pose proof (digit_code _ H1) as E1. pose proof (digit_code _ H2) as E2.
  exists (48 + n / 10), (48 + n mod 10).
  split; [lia|]. split; [lia|]. split.
  - unfold int.
    destruct (ascii_digit (48 + n / 10)) as (D1 & _); [lia|].
    destruct (ascii_digit (48 + n mod 10)) as (D2 & _); [lia|].
    rewrite (int_acc_digit _ _ _ _ D1), (int_acc_digit _ _ _ _ D2).
    cbn [int_acc]. Z.div_mod_to_equations; lia.
  - intros r. unfold pad2.
    change (String ?a (String ?b EmptyString) +:+ r) with (String a (String b r)).
    rewrite !chars_ascii by lia. by rewrite E1, E2.
Qed.

Lemma days_in_month_le y m : days_in_month y m <= 31.
Proof.
  unfold days_in_month. destruct (m =? 2); [by destruct (is_leap y)|].
  by destruct (_ || _).
Qed.

(** Four digits are the year. *)
Lemma rep_year {R} a b c e rest (k : text -> text -> option R) :
  is_digit a = true -> is_digit b = true -> is_digit c = true -> is_digit e = true ->
  rep is_digit 4 (Some 4%nat) (a :: b :: c :: e :: rest) [] k = k [a; b; c; e] rest.
Proof.
  intros Ha Hb Hc He. rewrite !rep_take by done. by rewrite rep_done.
Qed.

Lemma ltrim_visible c t : is_space c = false -> ltrim (c :: t) = c :: t.
Proof. intros H. cbn [ltrim]. by rewrite H. Qed.

Lemma rtrim_ends_visible t : ends_visible t = true -> rtrim t = t.
Proof.
  induction t as [|c t IH]; [done|]. destruct t as [|c' t'].
  - cbn. by intros ->%negb_true_iff.
  - intros H. change (rtrim (c :: c' :: t'))
      with (match rtrim (c' :: t') with
            | [] => if is_space c then [] else [c]
            | r => c :: r
            end).
    by rewrite IH.
Qed.

(** What follows the year, for every month and day, under each of the
    three formats. *)
Lemma written_rest_facts (a b c e : Z) (Y0 : text) m d :
  1 <= m <= 12 -> 1 <= d <= 31 ->
  let fs := {| f_Y := Y0; f_m := chars "1"; f_d := chars "1" |} in
  let fs' := {| f_Y := Y0; f_m := chars (pad2 m); f_d := chars (pad2 d) |} in
  let dash := chars (written_rest m d "-" "-" EmptyString) in
  let kanji := chars (written_rest m d "年" "月" "日") in
  let slash := chars (written_rest m d "/" "/" EmptyString) in
  int (chars (pad2 m)) = m ∧ int (chars (pad2 d)) = d
  ∧ ends_visible (a :: b :: c :: e :: dash) = true
  ∧ ends_visible (a :: b :: c :: e :: kanji) = true
  ∧ ends_visible (a :: b :: c :: e :: slash) = true
  ∧ re_format [DLit "-"; Dm; DLit "-"; Dd] dash fs = Some (fs', [])
  ∧ re_format [DLit "-"; Dm; DLit "-"; Dd] kanji fs = None
  ∧ re_format [DLit "年"; Dm; DLit "月"; Dd; DLit "日"] kanji fs = Some (fs', [])
  ∧ re_format [DLit "-"; Dm; DLit "-"; Dd] slash fs = None
  ∧ re_format [DLit "年"; Dm; DLit "月"; Dd; DLit "日"] slash fs = None
  ∧ re_format [DLit "/"; Dm; DLit "/"; Dd] slash fs = Some (fs', []).
Proof.
  intros Hm Hd.
  assert (m = 1 ∨ m = 2 ∨ m = 3 ∨ m = 4 ∨ m = 5 ∨ m = 6 ∨ m = 7 ∨ m = 8 ∨ m = 9 ∨ m = 10 ∨ m = 11 ∨ m = 12) as Hm' by lia.
  assert (d = 1 ∨ d = 2 ∨ d = 3 ∨ d = 4 ∨ d = 5 ∨ d = 6 ∨ d = 7 ∨ d = 8 ∨ d = 9 ∨ d = 10 ∨ d = 11 ∨ d = 12 ∨ d = 13 ∨ d = 14 ∨ d = 15 ∨ d = 16 ∨ d = 17 ∨ d = 18 ∨ d = 19 ∨ d = 20 ∨ d = 21 ∨ d = 22 ∨ d = 23 ∨ d = 24 ∨ d = 25 ∨ d = 26 ∨ d = 27 ∨ d = 28 ∨ d = 29 ∨ d = 30 ∨ d = 31) as Hd' by lia.
  clear Hm Hd.
  repeat destruct Hm' as [->|Hm']; try subst m;
    (repeat destruct Hd' as [->|Hd']; try subst d; by vm_compute).
Qed.

Lemma strptime_year a b c e rest fmt :
  is_digit a = true -> is_digit b = true -> is_digit c = true -> is_digit e = true ->
  strptime (a :: b :: c :: e :: rest) (DY :: fmt)
  = match re_format fmt rest {| f_Y := [a; b; c; e]; f_m := chars "1"; f_d := chars "1" |} with
    | None => Raise ValueError
    | Some (fs, []) => make_date (int (f_Y fs)) (int (f_m fs)) (int (f_d fs))
    | Some (_, _ :: _) => Raise ValueError
    end.
Proof.
  intros Ha Hb Hc He. unfold strptime. cbn [re_format]. unfold re_Y.
  by rewrite rep_year.
Qed.

(** X2. Every date of the calendar, written with four digits for the
    year and two for month and day in any of the three formats
    [parse_date] tries first, parses to that date. *)
Theorem parse_date_three_formats d :
  valid_date d ->
  parse_date (written_date d "-" "-" EmptyString) = Return (Some d)
  ∧ parse_date (written_date d "年" "月" "日") = Return (Some d)
  ∧ parse_date (written_date d "/" "/" EmptyString) = Return (Some d).
Proof.
  destruct d as [[y m] d]. intros Hvalid.
  pose proof Hvalid as (Hy & Hm & Hd). cbn [fst snd] in Hy, Hm, Hd.
  pose proof (days_in_month_le y m) as Hle.
  destruct (chars_pad4 y) as (a & b & c & e & Ha & Hb & Hc & He & Hint & Hpad); [lia|].
  destruct (ascii_digit a Ha) as (_ & Da & Sa).
  destruct (ascii_digit b Hb) as (_ & Db & _).
  destruct (ascii_digit c Hc) as (_ & Dc & _).
  destruct (ascii_digit e He) as (_ & De & _).
  destruct (written_rest_facts a b c e [a; b; c; e] m d)
    as (Hm2 & Hd2 & V1 & V2 & V3 & R1 & R2a & R2 & R3a & R3b & R3); [lia|lia|].
  assert (Hdate : make_date (int [a; b; c; e]) (int (chars (pad2 m))) (int (chars (pad2 d)))
                  = Return (y, m, d))
    by (rewrite Hint, Hm2, Hd2; by apply make_date_valid).
  unfold written_date. cbn [fst snd].
  fold (written_rest m d "-" "-" EmptyString).
  fold (written_rest m d "年" "月" "日").
  fold (written_rest m d "/" "/" EmptyString).
  unfold parse_date, parse_date_body, trim. rewrite !Hpad.
  rewrite !ltrim_visible by done. rewrite !rtrim_ends_visible by done.
  unfold formats, fmt_dash, fmt_kanji, fmt_slash. cbn [try_formats].
  rewrite !strptime_year by done.
  split; [|split].
  - rewrite R1. cbn [f_Y f_m f_d]. by rewrite Hdate.
  - rewrite R2a, R2. cbn [f_Y f_m f_d]. by rewrite Hdate.
  - rewrite R3a, R3b, R3. cbn [f_Y f_m f_d]. by rewrite Hdate.
Qed.


Lemma re_Y_head_non_digit {R} c s (k : text -> text -> option R) :
  is_digit c = false -> rep is_digit 4 (Some 4%nat) (c :: s) [] k = None.
Proof. intros H. by apply rep_refuse. Qed.

Lemma strptime_head_non_digit c s fmt :
  is_digit c = false -> strptime (c :: s) (DY :: fmt) = Raise ValueError.
Proof.
  intros H. unfold strptime. cbn [re_format]. unfold re_Y.
  by rewrite re_Y_head_non_digit.
Qed.

Lemma rtrim_head c s : is_space c = false -> ∃ r, rtrim (c :: s) = c :: r.
Proof.
  intros H. cbn [rtrim]. destruct (rtrim s); [rewrite H|]; by eexists.
Qed.

Lemma re_search_skip p s :
  forallb non_digit p = true -> re_search_ymd (p ++ s) = re_search_ymd s.
Proof.
  induction p as [|c p IH]; [done|]. cbn [forallb]. intros [Hc Hp]%andb_prop.
  apply negb_true_iff in Hc. cbn [app].
  assert (Hat : re_ymd_at (c :: p ++ s) = None)
    by (unfold re_ymd_at; by rewrite re_Y_head_non_digit).
  cbn [re_search_ymd]. rewrite Hat. by apply IH.
Qed.

(** Marks without digits are skipped up to the next digit. *)
Lemma rep_skip {R} sep c r acc (k : text -> text -> option R) x :
  forallb non_digit sep = true -> is_digit c = true ->
  (∀ t, k t (c :: r) = Some x) ->
  rep non_digit 0 None (sep ++ c :: r) acc k = Some x.
Proof.
  intros Hsep Hc Hk. revert acc. induction sep as [|s0 sep IH]; intros acc.
  - cbn [app rep]. unfold non_digit. rewrite Hc. cbn [negb andb]. apply Hk.
  - cbn [forallb] in Hsep. apply andb_prop in Hsep as [Hs0 Hsep].
    cbn [app rep]. rewrite Hs0. cbn. by rewrite IH.
Qed.

(** Two digits are taken together. *)
Lemma rep_two {R} a b rest (k : text -> text -> option R) x :
  is_digit a = true -> is_digit b = true ->
  k [a; b] rest = Some x ->
  rep is_digit 1 (Some 2%nat) (a :: b :: rest) [] k = Some x.
Proof.
  intros Ha Hb Hk. rewrite rep_take by done.
  cbn [rep]. rewrite Hb. cbn. rewrite rep_done. cbn [app]. by rewrite Hk.
Qed.

(** X3. A date of the calendar written inside other text is recovered by
    the fallback pattern: the text starts with a word (not a blank, not a
    digit), has no decimal digit before the year, the year has four
    digits, month and day two, and what stands between them has no
    decimal digit; what follows the day is free. The texts before the
    year, the month and the day end with a whole character each. *)
Theorem parse_date_embedded d prefix sep1 sep2 suffix :
  valid_date d ->
  whole prefix = true -> whole sep1 = true -> whole sep2 = true ->
  starts_with_word prefix = true -> no_digits prefix = true ->
  no_digits sep1 = true -> no_digits sep2 = true ->
  parse_date (prefix +:+ written_date d sep1 sep2 suffix) = Return (Some d).
Proof.
  destruct d as [[y m] d]. intros Hvalid Wp W1 W2 Hword Hp Hs1 Hs2.
  pose proof Hvalid as (Hy & Hm & Hd). cbn [fst snd] in Hy, Hm, Hd.
  pose proof (days_in_month_le y m) as Hle.
  destruct (chars_pad4 y) as (a & b & c & e & Ha & Hb & Hc & He & Hint & Hpad); [lia|].
  destruct (chars_pad2 m) as (m1 & m2 & Hm1 & Hm2 & Hmi & Hpm); [lia|].
  destruct (chars_pad2 d) as (d1 & d2 & Hd1 & Hd2 & Hdi & Hpd); [lia|].
  destruct (ascii_digit a Ha) as (_ & Da & _). destruct (ascii_digit b Hb) as (_ & Db & _).
  destruct (ascii_digit c Hc) as (_ & Dc & _). destruct (ascii_digit e He) as (_ & De & _).
  destruct (ascii_digit m1 Hm1) as (_ & Dm1 & _). destruct (ascii_digit m2 Hm2) as (_ & Dm2 & _).
  destruct (ascii_digit d1 Hd1) as (_ & Dd1 & _). destruct (ascii_digit d2 Hd2) as (_ & Dd2 & _).
  assert (Htext : chars (prefix +:+ written_date (y, m, d) sep1 sep2 suffix)
                  = chars prefix
                    ++ a :: b :: c :: e
                    :: chars sep1 ++ m1 :: m2 :: chars sep2 ++ d1 :: d2 :: chars suffix).
  { unfold written_date. cbn [fst snd].
    by rewrite (chars_app prefix), Hpad, (chars_app sep1), Hpm, (chars_app sep2), Hpd. }
  unfold no_digits in Hp, Hs1, Hs2. unfold starts_with_word in Hword.
  unfold parse_date, parse_date_body. rewrite Htext.
  destruct (chars prefix) as [|w p]; [done|].
  apply andb_prop in Hword as [Hw1 Hw2]. apply negb_true_iff in Hw1, Hw2.
  assert (Hfmt : ∀ t, try_formats formats (trim ((w :: p) ++ t)) = None).
  { intros t. unfold trim. cbn [app]. rewrite ltrim_visible by done.
    destruct (rtrim_head w (p ++ t) Hw1) as [r ->].
    unfold formats, fmt_dash, fmt_kanji, fmt_slash. cbn [try_formats].
    by rewrite !strptime_head_non_digit. }
  rewrite Hfmt, re_search_skip by done.
  assert (Hat : re_ymd_at (a :: b :: c :: e
                   :: chars sep1 ++ m1 :: m2 :: chars sep2 ++ d1 :: d2 :: chars suffix)
                = Some ([a; b; c; e], [m1; m2], [d1; d2])).
  { unfold re_ymd_at. rewrite rep_year by done.
    apply rep_skip; [done|done|]. intros _.
    apply rep_two; [done|done|].
    apply rep_skip; [done|done|]. intros _.
    by apply rep_two. }
  cbn [re_search_ymd]. rewrite Hat, Hint, Hmi, Hdi. by rewrite make_date_valid.
Qed.


(** ** [load_env_file] *)

Lemma code_inj c1 c2 : code c1 = code c2 -> c1 = c2.
Proof.
  unfold code. intros H%N2Z.inj.
  rewrite <- (Ascii.ascii_N_embedding c1), <- (Ascii.ascii_N_embedding c2). by rewrite H.
Qed.

Lemma is_char_true x c : is_char x c = true ↔ c = x.
Proof.
  unfold is_char. rewrite Z.eqb_eq. split; [apply code_inj|by intros ->].
Qed.

Lemma prefix_char x c s :
  String.prefix (String x EmptyString) (String c s) = is_char x c.
Proof.
  cbn. destruct (Ascii.ascii_dec x c) as [->|Hne].
  - assert (is_char c c = true) as -> by (by apply is_char_true). by destruct s.
  - destruct (is_char x c) eqn:E; [|done]. apply is_char_true in E. by subst.
Qed.

Lemma str_in_char_cons x c s :
  str_in (String x EmptyString) (String c s) = is_char x c || str_in (String x EmptyString) s.
Proof. cbn [str_in]. by rewrite prefix_char. Qed.

Lemma str_in_char_nil x : str_in (String x EmptyString) EmptyString = false.
Proof. reflexivity. Qed.

Lemma str_in_char_app x s t :
  str_in (String x EmptyString) (s +:+ t)
  = str_in (String x EmptyString) s || str_in (String x EmptyString) t.
Proof.
  induction s as [|c s IH]; [done|].
  change (String c s +:+ t) with (String c (s +:+ t)).
  by rewrite !str_in_char_cons, IH, orb_assoc.
Qed.

Lemma split_eq_app k v :
  str_in "=" k = false -> split_eq (k +:+ "=" +:+ v) = (k, v).
Proof.
  induction k as [|c k IH]; [done|]. rewrite str_in_char_cons.
  intros [Hc Hk]%orb_false_elim.
  change (String c k +:+ ?r) with (String c (k +:+ r)). cbn [split_eq].
  by rewrite Hc, (IH Hk).
Qed.

Lemma split_eq_key line : str_in "=" (split_eq line).1 = false.
Proof.
  induction line as [|c line IH]; [done|]. cbn [split_eq].
  destruct (is_char "=" c) eqn:E; [done|]. cbn [fst].
  by rewrite str_in_char_cons, E, IH.
Qed.

(** *** Blanks at the ends of a text *)

Lemma sapp_cons a s x : String a s +:+ x = String a (s +:+ x).
Proof. reflexivity. Qed.

Lemma sapp_nil x : EmptyString +:+ x = x.
Proof. reflexivity. Qed.

Lemma lstrip_from_drop skip s : lstrip_from skip s = lstrip (sdrop skip s).
Proof.
  revert skip. induction s as [|c s IH]; intros [|n]; try done.
  cbn [lstrip_from sdrop]. apply IH.
Qed.

Lemma lstrip_unfold s :
  lstrip s = match blank_len s with O => s | S n => lstrip (sdrop (S n) s) end.
Proof.
  destruct s as [|c s]; [done|]. unfold lstrip at 1. cbn [lstrip_from].
  destruct (blank_len (String c s)) as [|n]; [done|]. cbn [sdrop]. apply lstrip_from_drop.
Qed.

Lemma lstrip_fix s : blank_len s = 0%nat -> lstrip s = s.
Proof. intros H. by rewrite lstrip_unfold, H. Qed.

(** The bytes of a blank stay a blank whatever follows. *)
Lemma blank_len_app s x n : blank_len s = S n -> blank_len (s +:+ x) = S n.
Proof.
  destruct s as [|a [|b [|c s]]]; rewrite ?sapp_cons, ?sapp_nil; unfold blank_len; try done.
  - by destruct (_ || _).
  - destruct (between 9 13 (code a) || between 28 32 (code a)); [done|].
    by destruct (_ && _).
Qed.

Lemma blank_len_length s : (blank_len s <= String.length s)%nat.
Proof.
  destruct s as [|a [|b [|c s]]]; unfold blank_len; cbn [String.length]; try lia.
  - destruct (_ || _); lia.
  - destruct (between 9 13 (code a) || between 28 32 (code a)); [lia|].
    destruct (_ && _); lia.
  - destruct (between 9 13 (code a) || between 28 32 (code a)); [lia|].
    destruct (_ && _); [lia|]. destruct (blank3 _ _ _); lia.
Qed.

Lemma sdrop_app n s x :
  (n <= String.length s)%nat -> sdrop n (s +:+ x) = sdrop n s +:+ x.
Proof.
  revert s. induction n as [|n IH]; intros s H; [by destruct s|].
  destruct s as [|c s]; cbn [String.length] in H; [lia|].
  rewrite sapp_cons. cbn [sdrop]. apply IH. lia.
Qed.

Lemma sdrop_length n s : String.length (sdrop n s) = (String.length s - n)%nat.
Proof.
  revert s. induction n as [|n IH]; intros s; [destruct s; cbn; lia|].
  destruct s as [|c s]; [done|]. cbn [sdrop String.length]. by rewrite IH.
Qed.

Lemma sdrop_split n s : ∃ u, s = u +:+ sdrop n s.
Proof.
  revert s. induction n as [|n IH]; intros s; [exists EmptyString; by destruct s|].
  destruct s as [|c s]; [by exists EmptyString|].
  destruct (IH s) as [u Hu]. exists (String c u). rewrite sapp_cons. cbn [sdrop]. by rewrite <- Hu.
Qed.

(** Induction along [lstrip]. *)
Lemma lstrip_ind (P : string -> Prop) :
  (∀ s, blank_len s = 0%nat -> P s) ->
  (∀ s, blank_len s ≠ 0%nat -> P (sdrop (blank_len s) s) -> P s) ->
  ∀ s, P s.
Proof.
  intros H0 HS s. remember (String.length s) as n eqn:Hn. revert s Hn.
  induction n as [n IH] using lt_wf_ind. intros s ->.
  destruct (blank_len s) as [|k] eqn:E; [by apply H0|].
  apply HS; [by rewrite E|]. eapply IH; [|done].
  rewrite sdrop_length, E. pose proof (blank_len_length s). lia.
Qed.

Lemma lstrip_result s : blank_len (lstrip s) = 0%nat.
Proof.
  induction s as [s H|s H IH] using lstrip_ind.
  - by rewrite lstrip_fix.
  - rewrite lstrip_unfold. destruct (blank_len s); [done|exact IH].
Qed.

Lemma lstrip_idem s : lstrip (lstrip s) = lstrip s.
Proof. apply lstrip_fix, lstrip_result. Qed.

Lemma lstrip_suffix s : ∃ u, s = u +:+ lstrip s.
Proof.
  induction s as [s H|s H [u IH]] using lstrip_ind.
  - exists EmptyString. by rewrite lstrip_fix.
  - rewrite lstrip_unfold. destruct (blank_len s) as [|n]; [done|].
    destruct (sdrop_split (S n) s) as [u0 Hu0]. exists (u0 +:+ u).
    rewrite Hu0 at 1. rewrite IH at 1. clear.
    induction u0 as [|c u0 IHu]; [done|]. rewrite !sapp_cons. by rewrite IHu.
Qed.

(** Blanks in front are passed whatever follows them. *)
Lemma blanks_app a b : lstrip a = EmptyString -> lstrip (a +:+ b) = lstrip b.
Proof.
  induction a as [a H|a H IH] using lstrip_ind.
  - rewrite lstrip_fix by done. by intros ->.
  - intros Ha. rewrite lstrip_unfold in Ha. rewrite (lstrip_unfold (a +:+ b)).
    destruct (blank_len a) as [|n] eqn:E; [done|].
    rewrite (blank_len_app _ _ _ E), sdrop_app by (rewrite <- E; apply blank_len_length).
    by apply IH.
Qed.

Lemma code_range c : 0 <= code c < 256.
Proof. unfold code. pose proof (Ascii.N_ascii_bounded c) as H. lia. Qed.

(** A blank starts at a whole character and none of its later bytes
    does. *)
Lemma blank_starts_whole s : blank_len s ≠ 0%nat -> starts_whole s.
Proof.
  destruct s as [|a s]; [done|]. cbn [starts_whole]. intros H.
  destruct (decide (code a < 128 ∨ 192 <= code a)) as [|Hn]; [done|]. exfalso. apply H.
  assert (128 <= code a < 192) as Ha by lia. clear H Hn.
  unfold blank_len, blank3, between.
  destruct s as [|b [|c s]];
    repeat match goal with
           | |- context [?x <=? ?y] => destruct (Z.leb_spec x y); try lia
           | |- context [?x =? ?y] => destruct (Z.eqb_spec x y); try lia
           end; cbn; try done.
Qed.

(** A text that does not start with a blank still does not when more
    text follows it, unless what follows starts in the middle of a
    character. *)
Lemma blank_len_keep t x :
  starts_whole x -> t ≠ EmptyString -> blank_len t = 0%nat -> blank_len (t +:+ x) = 0%nat.
Proof.
  intros Hx Ht. destruct t as [|a [|b [|c t]]]; [done| | |done].
  - destruct x as [|x1 [|x2 x]]; rewrite ?sapp_cons, ?sapp_nil; [done| |];
      cbn [starts_whole] in Hx; unfold blank_len, blank3, between;
      repeat match goal with
             | |- context [?x <=? ?y] => destruct (Z.leb_spec x y); try lia
             | |- context [?x =? ?y] => destruct (Z.eqb_spec x y); try lia
             end; cbn; try done.
  - destruct x as [|x1 x]; rewrite ?sapp_cons, ?sapp_nil; [done|].
    cbn [starts_whole] in Hx; unfold blank_len, blank3, between;
      repeat match goal with
             | |- context [?x <=? ?y] => destruct (Z.leb_spec x y); try lia
             | |- context [?x =? ?y] => destruct (Z.eqb_spec x y); try lia
             end; cbn; try done.
Qed.

Lemma lstrip_app t x :
  starts_whole x -> lstrip t ≠ EmptyString -> lstrip (t +:+ x) = lstrip t +:+ x.
Proof.
  intros Hx. induction t as [t H|t H IH] using lstrip_ind.
  - rewrite (lstrip_fix t H). intros Ht. by rewrite lstrip_fix by (by apply blank_len_keep).
  - rewrite (lstrip_unfold t), (lstrip_unfold (t +:+ x)).
    destruct (blank_len t) as [|n] eqn:E; [done|].
    rewrite (blank_len_app _ _ _ E), sdrop_app by (rewrite <- E; apply blank_len_length).
    apply IH.
Qed.

Lemma blanks_starts_whole z : lstrip z = EmptyString -> starts_whole z.
Proof.
  intros Hz. destruct (blank_len z) as [|n] eqn:E.
  - rewrite lstrip_fix in Hz by done. by subst.
  - apply blank_starts_whole. by rewrite E.
Qed.

(** [rstrip] cuts at blanks only. *)
Lemma rstrip_split s : ∃ z, s = rstrip s +:+ z ∧ lstrip z = EmptyString.
Proof.
  induction s as [|c s (z & IH & Hz)]; [by exists EmptyString|].
  cbn [rstrip]. destruct (lstrip (String c s)) eqn:E.
  - by exists (String c s).
  - exists z. rewrite sapp_cons. by rewrite <- IH.
Qed.

Lemma rstrip_blanks z : lstrip z = EmptyString -> rstrip z = EmptyString.
Proof. intros H. destruct z; [done|]. cbn [rstrip]. by rewrite H. Qed.

Lemma rstrip_app_blanks t z : lstrip z = EmptyString -> rstrip (t +:+ z) = rstrip t.
Proof.
  intros Hz. induction t as [|c t IH]; [by apply rstrip_blanks|].
  rewrite sapp_cons. cbn [rstrip]. rewrite IH. rewrite <- sapp_cons.
  destruct (lstrip (String c t)) eqn:E.
  - by rewrite blanks_app, Hz.
  - rewrite lstrip_app, E by (by apply blanks_starts_whole || by rewrite E). done.
Qed.

Lemma rstrip_idem s : rstrip (rstrip s) = rstrip s.
Proof.
  destruct (rstrip_split s) as (z & Hs & Hz).
  rewrite Hs at 2. by rewrite rstrip_app_blanks.
Qed.

Lemma strip_rstrip s : strip (rstrip s) = strip s.
Proof.
  destruct (rstrip_split s) as (z & Hs & Hz). unfold strip. rewrite Hs at 2.
  destruct (lstrip (rstrip s)) eqn:E.
  - by rewrite blanks_app, Hz.
  - rewrite lstrip_app, E by (by apply blanks_starts_whole || by rewrite E).
    by rewrite rstrip_app_blanks.
Qed.

Lemma strip_lstrip s : strip (lstrip s) = strip s.
Proof. unfold strip. by rewrite lstrip_idem. Qed.

Lemma strip_idem s : strip (strip s) = strip s.
Proof.
  unfold strip at 2. rewrite strip_rstrip. apply strip_lstrip.
Qed.

Lemma blank_len_visible c x : 32 < code c < 128 -> blank_len (String c x) = 0%nat.
Proof.
  intros Hc. unfold blank_len, blank3, between.
  destruct x as [|b [|d x]];
    repeat match goal with
           | |- context [?x <=? ?y] => destruct (Z.leb_spec x y); try lia
           | |- context [?x =? ?y] => destruct (Z.eqb_spec x y); try lia
           end; cbn; try done.
Qed.

(** A text that holds ['='] is not made of blanks, and [rstrip] stops
    after its last ['=']. *)
Lemma lstrip_eq_sign t x : lstrip (t +:+ String "=" x) ≠ EmptyString.
Proof.
  induction t as [t H|t H IH] using lstrip_ind.
  - destruct t as [|a t].
    + rewrite sapp_nil, lstrip_fix; [done|]. apply blank_len_visible. by vm_compute.
    + rewrite lstrip_fix; [done|]. apply blank_len_keep; [|done|done].
      cbn [starts_whole]. left. by vm_compute.
  - rewrite (lstrip_unfold (t +:+ _)).
    destruct (blank_len t) as [|n] eqn:E; [done|].
    rewrite (blank_len_app _ _ _ E), sdrop_app by (rewrite <- E; apply blank_len_length).
    apply IH.
Qed.

Lemma rstrip_eq_sign t x : rstrip (t +:+ String "=" x) = t +:+ String "=" (rstrip x).
Proof.
  induction t as [|c t IH]; rewrite ?sapp_cons, ?sapp_nil; cbn [rstrip].
  - pose proof (lstrip_eq_sign EmptyString x) as H. rewrite sapp_nil in H.
    by destruct (lstrip (String "=" x)).
  - pose proof (lstrip_eq_sign (String c t) x) as H. rewrite sapp_cons in H.
    rewrite IH. by destruct (lstrip (String c (t +:+ String "=" x))).
Qed.

(** A property of texts that is about their bytes passes to what
    [strip] keeps. *)
Lemma strip_bytes (f : string -> bool) s :
  (∀ a b, f (a +:+ b) = f a || f b) -> f s = false -> f (strip s) = false.
Proof.
  intros Happ Hs. unfold strip.
  destruct (lstrip_suffix s) as [u Hu]. destruct (rstrip_split (lstrip s)) as (z & Hz & _).
  rewrite Hu, Happ in Hs. apply orb_false_elim in Hs as [_ Hs].
  rewrite Hz, Happ in Hs. by apply orb_false_elim in Hs as [Hs _].
Qed.

Lemma has_nul_app a b : has_nul (a +:+ b) = has_nul a || has_nul b.
Proof.
  induction a as [|c a IH]; [done|]. rewrite sapp_cons. cbn [has_nul]. by rewrite IH, orb_assoc.
Qed.

Lemma strip_no_eq s : str_in "=" s = false -> str_in "=" (strip s) = false.
Proof. apply strip_bytes. apply str_in_char_app. Qed.

Lemma strip_no_nul s : has_nul s = false -> has_nul (strip s) = false.
Proof. apply strip_bytes. apply has_nul_app. Qed.

Lemma env_lines_app a b e :
  env_lines (a ++ b) e
  = match env_lines a e with Return e1 => env_lines b e1 | Raise x => Raise x end.
Proof.
  revert e. induction a as [|raw a IH]; intros e; [done|]. cbn [app env_lines].
  destruct (env_line e raw); [apply IH|done].
Qed.

(** X4. Which lines of [.env] do nothing and which end the load: a line
    that is blank, a comment or has no ['='] leaves the environment as
    it is; a line whose name is empty (it starts with ['='] once
    stripped) and that holds no NUL raises OSError, the error of
    [setenv] for an empty name, and the lines after it are not read. Without
    a file nothing changes. *)
Theorem load_env_file_line_kinds e raw :
  load_env_file None e = Return e
  ∧ (strip raw = EmptyString ∨ String.prefix "#" (strip raw) = true
     ∨ str_in "=" (strip raw) = false ->
     env_line e raw = Return e)
  ∧ (String.prefix "=" (strip raw) = true -> has_nul raw = false ->
     env_line e raw = Raise OSError
     ∧ ∀ before after e0,
         env_lines before e0 = Return e ->
         load_env_file (Some (before ++ raw :: after)) e0 = Raise OSError).
Proof.
  split; [done|]. split.
  - unfold env_line. intros [H|[H|H]]; rewrite H; [done| |];
      by rewrite ?andb_false_r; destruct (truthy_str (strip raw)).
  - intros Hp Hnul. assert (Hline : env_line e raw = Raise OSError).
    { apply strip_no_nul in Hnul.
      unfold env_line. destruct (strip raw) as [|c r]; [done|].
      rewrite prefix_char in Hp. apply is_char_true in Hp as ->.
      rewrite prefix_char, str_in_char_cons. cbn [split_eq fst snd].
      change (is_char "#" "=") with false. change (is_char "=" "=") with true.
      cbn [truthy_str negb andb orb]. unfold putenv.
      cbn [has_nul orb] in Hnul. apply orb_false_elim in Hnul as [_ Hnul].
      cbn [fst snd]. by rewrite (strip_no_nul _ Hnul). }
    split; [done|]. intros before after e0 Hb. cbn [load_env_file].
    rewrite env_lines_app, Hb. cbn [env_lines]. by rewrite Hline.
Qed.

Lemma env_line_assign e key value :
  truthy_str (strip key) = true -> String.prefix "#" (strip key) = false ->
  str_in "=" key = false -> has_nul key = false -> has_nul value = false ->
  env_line e (key +:+ "=" +:+ value) = Return (<[strip key := strip value]> e).
Proof.
  intros Hkey Hhash Heq Hnk Hnv.
  destruct (lstrip key) as [|c r] eqn:Hl.
  { unfold strip in Hkey. by rewrite Hl in Hkey. }
  assert (Hline : strip (key +:+ "=" +:+ value) = lstrip key +:+ "=" +:+ rstrip value).
  { unfold strip. change ("=" +:+ value) with (String "=" value).
    rewrite lstrip_app; [|cbn [starts_whole]; left; by vm_compute|by rewrite Hl].
    by rewrite rstrip_eq_sign. }
  assert (Hnoeq : str_in "=" (lstrip key) = false).
  { destruct (lstrip_suffix key) as [u Hu]. rewrite Hu, str_in_char_app in Heq.
    by apply orb_false_elim in Heq as [_ Heq]. }
  unfold env_line. rewrite Hline, (split_eq_app _ _ Hnoeq). cbn [fst snd].
  rewrite strip_lstrip, strip_rstrip.
  assert (Hcond : truthy_str (lstrip key +:+ "=" +:+ rstrip value)
                  && negb (String.prefix "#" (lstrip key +:+ "=" +:+ rstrip value))
                  && str_in "=" (lstrip key +:+ "=" +:+ rstrip value) = true).
  { rewrite !str_in_char_app. change (str_in "=" "=") with true.
    rewrite orb_true_r, andb_true_r. rewrite Hl.
    change (String c r +:+ ?x) with (String c (r +:+ x)). cbn [truthy_str andb].
    unfold strip in Hhash. rewrite Hl in Hhash. cbn [rstrip] in Hhash.
    pose proof (lstrip_idem key) as Hi. rewrite Hl in Hi. rewrite Hi in Hhash.
    rewrite prefix_char in Hhash |- *. by rewrite Hhash. }
  rewrite Hcond. unfold putenv.
  by rewrite Hkey, (strip_no_eq _ Heq), (strip_no_nul _ Hnk), (strip_no_nul _ Hnv).
Qed.


(** X5. A line [name=value] sets the stripped name to the stripped
    value: the line is cut at its first ['='], so the value may hold
    more of them. Lines apply in order, so a name has the value of the
    last line that sets it, whatever the lines before did. *)
Theorem load_env_file_assignment e0 lines e key value :
  truthy_str (strip key) = true -> String.prefix "#" (strip key) = false ->
  str_in "=" key = false -> has_nul key = false -> has_nul value = false ->
  env_line e (key +:+ "=" +:+ value) = Return (<[strip key := strip value]> e)
  ∧ (load_env_file (Some lines) e0 = Return e ->
     load_env_file (Some (lines ++ [key +:+ "=" +:+ value])) e0
     = Return (<[strip key := strip value]> e)).
Proof.
  intros Hkey Hhash Heq Hnk Hnv.
  pose proof (env_line_assign e key value Hkey Hhash Heq Hnk Hnv) as Hline.
  split; [done|]. cbn [load_env_file]. intros Hlines.
  rewrite env_lines_app, Hlines. cbn [env_lines]. by rewrite Hline.
Qed.

Lemma env_line_effect e raw e' :
  env_line e raw = Return e' ->
  e' = e ∨ ∃ k v, e' = <[k := v]> e ∧ truthy_str k = true ∧ str_in "=" k = false
                  ∧ strip k = k ∧ strip v = v.
Proof.
  unfold env_line. destruct (_ && _); [|intros [= <-]; by left].
  unfold putenv.
  destruct (_ || _); [done|].
  destruct (str_in "=" (strip (split_eq (strip raw)).1)) eqn:He; [done|].
  destruct (truthy_str (strip (split_eq (strip raw)).1)) eqn:Ht; [|done]. cbn [negb].
  intros [= <-]. right.
  eexists _, _. split; [done|]. by rewrite !strip_idem.
Qed.

(** X6. Loading [.env] only adds or overwrites: no variable is unset,
    and a variable whose value changed has a name that is not empty,
    holds no ['='] and has no blank at either end, and a value without
    blanks at its ends. *)
Theorem load_env_file_changes file e e' :
  load_env_file file e = Return e' ->
  (∀ k v, e !! k = Some v -> is_Some (e' !! k))
  ∧ (∀ k, e' !! k ≠ e !! k ->
          truthy_str k = true ∧ str_in "=" k = false ∧ strip k = k
          ∧ ∃ v, e' !! k = Some v ∧ strip v = v).
Proof.
  destruct file as [lines|]; cbn [load_env_file];
    [|intros [= <-]; split; [by eauto|done]].
  revert e. induction lines as [|raw lines IH]; intros e;
    [intros [= <-]; split; [by eauto|done]|].
  cbn [env_lines]. destruct (env_line e raw) as [e1|] eqn:Hline; [|done].
  intros [Hkeep Hchg]%IH. apply env_line_effect in Hline.
  split.
  - intros k v Hk. destruct Hline as [->|(k0 & v0 & -> & _)]; [by eapply Hkeep|].
    destruct (decide (k0 = k)) as [<-|Hne].
    + eapply Hkeep. apply lookup_insert_eq.
    + eapply Hkeep. by rewrite lookup_insert_ne.
  - intros k Hk. destruct (decide (e' !! k = e1 !! k)) as [Hsame|Hdiff]; [|by apply Hchg].
    destruct Hline as [->|(k0 & v0 & -> & Ht & He & Hs & Hv)]; [done|].
    destruct (decide (k0 = k)) as [<-|Hne].
    + split; [done|]. split; [done|]. split; [done|]. exists v0.
      by rewrite Hsame, lookup_insert_eq.
    + by rewrite Hsame, lookup_insert_ne in Hk.
Qed.

(** ** Connection settings *)

(** X7. The crawler and the exporter read the same five variables but
    fall back on different users, passwords and database names: they
    connect with the same settings exactly when DB_USER, DB_PASSWORD and
    DB_NAME are all set. *)
Theorem db_config_agree (e : environ) :
  crawler_db_config e = exporter_db_config e
  ↔ is_Some (e !! "DB_USER") ∧ is_Some (e !! "DB_PASSWORD") ∧ is_Some (e !! "DB_NAME").
Proof.
  unfold crawler_db_config, exporter_db_config, getenv. split.
  - intros [= Hu Hp Hn].
    destruct (e !! "DB_USER"), (e !! "DB_PASSWORD"), (e !! "DB_NAME"); try done.
  - by intros ([u ->] & [p ->] & [n ->]).
Qed.


(** ** Start-up: [__init__] and [_load_existing_songs] *)

Lemma init_db w : db (init w).2 = db w.
Proof.
  unfold init, load_existing_songs.
  destruct (pop_fault_fields (set_cache w ∅)) as (Hdb & _).
  destruct (pop_fault (set_cache w ∅)) as [f w1]. cbn [fst snd] in *.
  destruct (connect f); [|done]. by destruct (execute_fails f 0).
Qed.

Lemma init_result w :
  (init w).1 = match next_fault w with
               | ConnectFails => Raise OperationalError
               | _ => Return tt
               end.
Proof.
  unfold init, load_existing_songs, next_fault, pop_fault, set_cache.
  cbn [faults db song_cache trace].
  destruct (faults w) as [|f fs]; [done|].
  destruct f as [| |[|k]|]; done.
Qed.

(** X8. Constructing the analyzer never writes to the store and throws
    away any earlier cache. When the connection opens and the SELECT
    runs, the cache holds exactly the names of the table, each with its
    identity; when the SELECT fails the error is swallowed and the cache
    is left empty; when the connection cannot be opened the constructor
    raises. *)
Theorem init_loads_cache w :
  let res := init w in
  db res.2 = db w
  ∧ match next_fault w with
    | ConnectFails => res.1 = Raise OperationalError
    | ExecuteFails 0 => res.1 = Return tt ∧ song_cache res.2 = ∅
    | _ =>
        res.1 = Return tt
        ∧ song_cache res.2 = song_id <$> live_song (db w)
        ∧ cache_agrees res.2
        ∧ cache_sound (song_cache res.2) (live_song (db res.2))
    end.
Proof.
  cbn zeta. unfold init, load_existing_songs, next_fault.
  assert (Hpop : pop_fault (set_cache w ∅)
                 = ((pop_fault w).1, set_cache (pop_fault w).2 ∅)).
  { unfold pop_fault, set_cache. cbn. destruct (faults w) eqn:E; cbn; by rewrite ?E. }
  rewrite Hpop. destruct (pop_fault_fields w) as (Hdb & _).
  destruct (pop_fault w) as [f w1]. cbn [fst snd] in *.
  assert (Hok : ∀ c : gmap string Z,
             c = song_id <$> live_song (db w) ->
             c = song_id <$> live_song (db w)
             ∧ cache_agrees (set_cache (set_cache w1 ∅) c)
             ∧ cache_sound c (live_song (db w1))).
  { intros c ->. split; [done|]. split.
    - intros n. cbn. rewrite Hdb, lookup_fmap. by rewrite fmap_is_Some.
    - rewrite Hdb. apply cache_sound_loaded. }
  destruct f as [| |[|k]|]; cbn [connect execute_fails Nat.eqb];
    cbn [fst snd db song_cache set_cache];
    (split; [done|]); try done; (split; [done|]);
    apply Hok; by rewrite (right_id_L ∅ (∪)), Hdb.
Qed.


(** ** The list page *)

Lemma history_row_entry cells ld :
  history_row cells = Return (Some ld) ->
  row_title_venue cells = Some (ld_performance_name ld, ld_venue ld)
  ∧ valid_date (ld_date ld).
Proof.
  unfold history_row, row_title_venue. destruct cells as [|c0 [|c1 [|c2 rest]]]; try done.
  destruct (detail_url_of c1) as [u|]; [|done].
  unfold parse_date. destruct (parse_date_body (td_text c0)) as [[d|]|] eqn:Hd; try done.
  intros [= <-]. split; [done|]. by eapply parse_date_body_valid.
Qed.

Lemma history_row_none cells : row_title_venue cells = None -> history_row cells = Return None.
Proof. unfold history_row, row_title_venue. by destruct cells as [|c0 [|c1 [|c2 rest]]]. Qed.

(** A row raises exactly when [urljoin] refuses its link, and raises
    that exception. *)
Lemma history_row_result cells :
  match show_link_error cells with
  | Some e => history_row cells = Raise e
  | None => ∃ r, history_row cells = Return r
  end.
Proof.
  unfold history_row, show_link_error, link_error, detail_url_of.
  destruct cells as [|c0 [|c1 [|c2 rest]]]; try by eexists.
  destruct (parse_date_returns (td_text c0)) as [r Hr]. rewrite Hr.
  destruct (linked c1) as [[a h]|]; [destruct (urljoin base_url h)|]; try done;
    destruct r; by eexists.
Qed.

Lemma history_rows_entries rows acc :
  match first_error show_link_error rows with
  | Some e => history_rows rows acc = Raise e
  | None =>
      ∃ l, history_rows rows acc = Return (acc ++ l)
           ∧ (fun ld => (ld_performance_name ld, ld_venue ld)) <$> l
             `sublist_of` omap row_title_venue rows
           ∧ Forall (fun ld => valid_date (ld_date ld)) l
  end.
Proof.
  revert acc. induction rows as [|row rows IH]; intros acc.
  { exists []. by rewrite app_nil_r. }
  rewrite first_error_cons. cbn [history_rows omap list_omap].
  pose proof (history_row_result row) as Hres.
  destruct (show_link_error row) as [e|]; [by rewrite Hres|].
  destruct Hres as [r Hrow]. rewrite Hrow. destruct r as [ld|].
  - destruct (history_row_entry _ _ Hrow) as [Htv Hvalid]. rewrite Htv.
    specialize (IH (acc ++ [ld])). destruct (first_error show_link_error rows); [done|].
    destruct IH as (l & -> & Hsub & Hall).
    exists (ld :: l). rewrite <- app_assoc. split; [done|]. split.
    + cbn. by apply sublist_skip.
    + by constructor.
  - specialize (IH acc). destruct (first_error show_link_error rows); [done|].
    destruct IH as (l & -> & Hsub & Hall). exists l. split; [done|]. split; [|done].
    destruct (row_title_venue row); [by apply sublist_cons|done].
Qed.

(** An error of reading the index is the one of its fetch or the one of
    a link. *)
Lemma index_entries_raises e :
  index_entries = Raise e ->
  http_get main_url = Fails e
  ∨ ∃ t ts, http_get main_url = Parsed (t :: ts)
            ∧ first_error show_link_error (tail (trs t)) = Some e.
Proof.
  unfold index_entries. destruct (http_get main_url) as [e'|[|t ts]]; try done.
  - intros [= ->]. by left.
  - intros He. right. exists t, ts. split; [done|].
    pose proof (history_rows_entries (tail (trs t)) []) as H.
    destruct (first_error show_link_error (tail (trs t))) as [e'|].
    + rewrite H in He. by injection He as ->.
    + destruct H as (l & Hl & _). by rewrite Hl in He.
Qed.

(** X9. [get_live_history] reads the rows after the first one in
    document order. When [urljoin] accepts every link, the (title,
    venue) pairs of the entries form a subsequence of those of the rows
    and every entry has a date of the calendar; otherwise the exception
    of the first refused link leaves the function, since the address is
    joined outside any [try]. Parsing the dates never raises, so an
    error of [get_live_history] is the one of the fetch or the one of a
    link; a page without the table gives the empty history. The store
    and the cache are not touched. *)
Theorem get_live_history_entries :
  (∀ rows,
      match first_error show_link_error rows with
      | Some e => history_rows rows [] = Raise e
      | None =>
          ∃ l, history_rows rows [] = Return l
               ∧ (fun ld => (ld_performance_name ld, ld_venue ld)) <$> l
                 `sublist_of` omap row_title_venue rows
               ∧ Forall (fun ld => valid_date (ld_date ld)) l
               ∧ (length l <= length rows)%nat
      end)
  ∧ (∀ e, index_entries = Raise e ->
          http_get main_url = Fails e
          ∨ ∃ t ts, http_get main_url = Parsed (t :: ts)
                    ∧ first_error show_link_error (tail (trs t)) = Some e)
  ∧ (http_get main_url = Parsed [] -> index_entries = Return [])
  ∧ (∀ w, (get_live_history w).1 = index_entries
          ∧ db (get_live_history w).2 = db w
          ∧ song_cache (get_live_history w).2 = song_cache w).
Proof.
  split; [|split; [|split]].
  - intros rows. pose proof (history_rows_entries rows []) as H.
    destruct (first_error show_link_error rows); [done|].
    destruct H as (l & Hl & Hsub & Hall).
    exists l. repeat split; try done.
    apply sublist_length in Hsub. rewrite length_fmap in Hsub.
    etrans; [exact Hsub|]. clear. induction rows as [|r rows IH]; [done|].
    cbn. destruct (row_title_venue r); cbn; lia.
  - apply index_entries_raises.
  - unfold index_entries. by intros ->.
  - intros w. unfold get_live_history, index_entries, bind, log, raise, ret.
    destruct (http_get main_url) as [e|[|t ts]]; try done.
    by destruct (history_rows (tail (trs t)) []).
Qed.

(** X10. Without the index page nothing is crawled: when its fetch
    fails the execution raises, whatever the store does, and the store
    is as it was; when the page has no table the run ends normally (if
    the analyzer could be constructed) with the store as it was. In
    both cases no entry is begun. *)
Theorem crawl_without_index s fs :
  (∀ e, http_get main_url = Fails e ->
        raises (crawl s fs).1 = true ∧ db (crawl s fs).2 = s
        ∧ ∀ i, EvBegin i ∉ trace (crawl s fs).2)
  ∧ (http_get main_url = Parsed [] ->
     db (crawl s fs).2 = s
     ∧ (∀ i, EvBegin i ∉ trace (crawl s fs).2)
     ∧ (head fs ≠ Some ConnectFails -> (crawl s fs).1 = Return tt)).
Proof.
  set (w0 := {| db := s; song_cache := ∅; faults := fs; trace := [] |}).
  pose proof (init_db w0) as Hdb. pose proof (init_result w0) as Hinit.
  pose proof (load_existing_songs_trace (set_cache w0 ∅)) as Htr.
  assert (Hnf : next_fault w0 = ConnectFails ↔ head fs = Some ConnectFails).
  { unfold next_fault, pop_fault, w0. cbn. destruct fs as [|f fs']; cbn; [done|].
    split; [by intros ->|by intros [= ->]]. }
  unfold crawl, bind. fold w0. change (init w0) with (load_existing_songs (set_cache w0 ∅)) in *.
  destruct (load_existing_songs (set_cache w0 ∅)) as [[[]|x] w1] eqn:Hl; cbn [fst snd] in *.
  - unfold run, get_live_history, bind, log, raise, ret.
    split; [intros e He|intros He]; rewrite He; cbn [fst snd db trace].
    + rewrite Htr. cbn. split; [done|]. split; [done|].
      intros i [Hin|Hin]%elem_of_cons; [done|by apply elem_of_nil in Hin].
    + cbn [enumerate for_each]. unfold ret. cbn [fst snd db trace]. rewrite Htr. cbn.
      split; [done|]. split; [|done].
      intros i [Hin|Hin]%elem_of_cons; [done|by apply elem_of_nil in Hin].
  - split; [intros e He|intros He].
    + rewrite Htr. cbn. split; [done|]. split; [done|]. intros i Hin. by apply elem_of_nil in Hin.
    + rewrite Htr. cbn. split; [done|]. split; [intros i Hin; by apply elem_of_nil in Hin|].
      intros Hhead. destruct (next_fault w0) eqn:Hf; try done.
      by destruct Hhead, Hnf as [-> _].
Qed.


(** ** The detail page *)

Lemma scan_tables_result tables :
  scan_tables tables = Return []
  ∨ (∃ rows, scan_tables tables = Return (setlist_of rows))
  ∨ ∃ e, scan_tables tables = Raise e.
Proof.
  induction tables as [|t tables IH]; [by left|]. cbn [scan_tables].
  destruct (has_song_column t); [|done]. right. rewrite table_songs_setlist.
  destruct (first_error song_link_error (tail (trs t))) as [e|]; [right|left]; by eexists.
Qed.

(** X11. The setlist is read from the first table that has the song
    column, and from that table only: tables before it without the
    column are passed over, and tables after it are never looked at,
    even when that first table holds no song. When [urljoin] accepts
    every link of that table the result is its setlist; otherwise the
    exception of the first refused link ends the scan (and
    [get_songs_from_detail_page], which catches it, returns the empty
    list). A page where no table has the column gives the empty
    setlist. *)
Theorem scan_tables_first before t after :
  Forall (fun t' => has_song_column t' = false) before ->
  (has_song_column t = true ->
   scan_tables (before ++ t :: after)
   = match first_error song_link_error (tail (trs t)) with
     | None => Return (setlist_of (tail (trs t)))
     | Some e => Raise e
     end)
  ∧ scan_tables before = Return [].
Proof.
  intros Hb. induction Hb as [|t' before Ht' _ IH].
  - split; [|done]. intros Ht. cbn [app scan_tables]. rewrite Ht. apply table_songs_setlist.
  - cbn [app scan_tables]. by rewrite Ht'.
Qed.

Lemma join_remark_truthy old t : truthy_str t = true -> truthy_str (join_remark old t) = true.
Proof. by destruct old as [[|c r]|]. Qed.

Lemma classify_remark_ok l cells : Forall remark_ok l -> Forall remark_ok (classify l cells).
Proof.
  intros Hl. unfold classify. destruct (song_of cells) as [si|] eqn:Hs.
  - apply Forall_app. split; [done|]. constructor; [|done]. left.
    unfold song_of in Hs. destruct cells as [|c0 [|c1 rest]]; try done.
    destruct (linked c1) as [[a h]|]; [|done].
    destruct (urljoin base_url h); [|done]. by injection Hs as <-.
  - destruct (remark_of cells) as [t|] eqn:Hr; [|done].
    destruct l as [|x l _] using rev_ind; [done|].
    rewrite attach_remark_snoc. apply Forall_app in Hl as [Hl _].
    apply Forall_app. split; [done|]. constructor; [|done]. right.
    eexists. split; [done|]. apply join_remark_truthy. by eapply remark_of_truthy.
Qed.

Lemma fold_classify_remark_ok rows l :
  Forall remark_ok l -> Forall remark_ok (fold_left classify rows l).
Proof.
  revert l. induction rows as [|r rows IH]; intros l Hl; [done|].
  cbn [fold_left]. by apply IH, classify_remark_ok.
Qed.

Lemma setlist_remark_ok rows : Forall remark_ok (setlist_of rows).
Proof. by apply fold_classify_remark_ok. Qed.

(** X12. Whatever the page, an entry [get_songs_from_detail_page]
    returns has no remark or a remark that is not empty: an empty text
    is never attached, and joining never yields the empty text. *)
Theorem detail_page_remarks url w :
  ∃ songs, (get_songs_from_detail_page url w).1 = Return songs
           ∧ Forall remark_ok songs.
Proof.
  rewrite get_songs_from_detail_page_spec. exists (page_songs url). split; [done|].
  unfold page_songs, detail_page_body. destruct url as [u|]; [|done].
  destruct (truthy_str u); [|done]. destruct (http_get u) as [e|soup]; [done|].
  destruct (scan_tables_result soup) as [->|[[rows ->]|[e ->]]]; [done| |done].
  apply setlist_remark_ok.
Qed.


(** ** Shows *)

Lemma upsert_live_history_hit s ld r :
  live_history s !! show_key ld = Some r ->
  upsert_live_history s ld
  = ({| live_history :=
          <[show_key ld := {| show_id := show_id r; show_venue := ld_venue ld;
                              show_url := ld_url ld |}]> (live_history s);
        live_history_seq := live_history_seq s;
        live_song := live_song s;
        live_song_seq := live_song_seq s;
        live_history_song := live_history_song s |}, show_id r).
Proof. intros H. unfold upsert_live_history. fold (show_key ld). by rewrite H. Qed.

(** X13. Saving a show that is already stored, without faults, gives
    back the identity it has and rewrites venue and address of its own
    row only: the other shows, the songs and the associations stay as
    they are. Saving the same data again leaves the three tables as
    they are. *)
Theorem save_live_history_again ld ld' w :
  faults w = [] -> show_key ld' = show_key ld ->
  let r1 := save_live_history ld w in
  let r2 := save_live_history ld' r1.2 in
  ∃ id,
    r1.1 = Return (Some id) ∧ r2.1 = Return (Some id)
    ∧ live_history (db r2.2) !! show_key ld
      = Some {| show_id := id; show_venue := ld_venue ld'; show_url := ld_url ld' |}
    ∧ (∀ k, k ≠ show_key ld -> live_history (db r2.2) !! k = live_history (db w) !! k)
    ∧ live_song (db r2.2) = live_song (db w)
    ∧ live_history_song (db r2.2) = live_history_song (db w)
    ∧ (ld' = ld -> same_tables (db r2.2) (db r1.2)).
Proof.
  intros Hf Hkey r1 r2. subst r1 r2.
  rewrite (save_live_history_ok ld w Hf). cbn [fst snd].
  rewrite save_live_history_ok by done. cbn [fst snd db set_db].
  destruct (upsert_live_history_spec (db w) ld) as (Hh1 & Hs1 & _ & Ha1 & Hid1).
  set (s1 := (upsert_live_history (db w) ld).1) in *.
  set (id := (upsert_live_history (db w) ld).2) in *.
  fold (show_key ld) in Hh1.
  assert (Hrow : live_history s1 !! show_key ld'
                 = Some {| show_id := id; show_venue := ld_venue ld; show_url := ld_url ld |})
    by (rewrite Hkey, Hh1; apply lookup_insert_eq).
  rewrite (upsert_live_history_hit s1 ld' _ Hrow).
  cbn [fst snd show_id live_history live_history_seq live_song live_history_song].
  exists id. split; [done|]. split; [done|]. rewrite Hkey.
  split; [apply lookup_insert_eq|]. split.
  { intros k Hk. by rewrite lookup_insert_ne, Hh1, lookup_insert_ne. }
  split; [done|]. split; [done|].
  intros ->. split; [|by split]. cbn [live_history]. rewrite Hh1.
  by rewrite insert_insert_eq.
Qed.


(** ** What an execution keeps, whatever the faults *)

Lemma assoc_kept_refl m : assoc_kept m m.
Proof. intros k row H. by exists row. Qed.

Lemma assoc_kept_trans m1 m2 m3 : assoc_kept m1 m2 -> assoc_kept m2 m3 -> assoc_kept m1 m3.
Proof. intros H12 H23 k row H. destruct (H12 k row H) as [row2 H2]. by apply (H23 k row2). Qed.

Lemma rows_kept_refl s : rows_kept s s.
Proof.
  split; [apply shows_kept_refl|]. split; [apply songs_kept_refl|apply assoc_kept_refl].
Qed.

Lemma rows_kept_trans s1 s2 s3 : rows_kept s1 s2 -> rows_kept s2 s3 -> rows_kept s1 s3.
Proof.
  intros (Ha & Hb & Hc) (Ha' & Hb' & Hc').
  split; [by eapply shows_kept_trans|].
  split; [by eapply songs_kept_trans|by eapply assoc_kept_trans].
Qed.

Lemma keeps_same w w' : db w' = db w -> song_cache w' = song_cache w -> keeps w w'.
Proof.
  intros Hd Hc. unfold keeps. rewrite Hd, Hc.
  split; [apply rows_kept_refl|]. split; [done|]. split; [lia|done].
Qed.

Lemma keeps_trans w1 w2 w3 : keeps w1 w2 -> keeps w2 w3 -> keeps w1 w3.
Proof.
  intros (Hr & Hc & Hs & Hwf) (Hr' & Hc' & Hs' & Hwf').
  split; [by eapply rows_kept_trans|]. split; [by etrans|]. split; [lia|auto].
Qed.

Lemma upsert_live_history_rows s ld :
  rows_kept s (upsert_live_history s ld).1
  ∧ live_history_seq s <= live_history_seq (upsert_live_history s ld).1.
Proof.
  split.
  - split; [apply upsert_live_history_kept|].
    destruct (upsert_live_history_spec s ld) as (_ & -> & _ & -> & _).
    split; [apply songs_kept_refl|apply assoc_kept_refl].
  - unfold upsert_live_history.
    destruct (live_history s !! (ld_date ld, ld_performance_name ld)); cbn; lia.
Qed.

Lemma upsert_live_song_rows s name url :
  rows_kept s (upsert_live_song s name url).1
  ∧ live_history_seq (upsert_live_song s name url).1 = live_history_seq s.
Proof.
  destruct (upsert_live_song_spec s name url) as (_ & Hh & Hs & Ha & _).
  split; [|done]. split; [rewrite Hh; apply shows_kept_refl|].
  split; [apply upsert_live_song_kept|rewrite Ha; apply assoc_kept_refl].
Qed.

Lemma save_live_history_keeps ld w :
  let res := save_live_history ld w in
  keeps w res.2
  ∧ (∀ id, res.1 = Return (Some id) -> wf_store (db w) ->
           0 < id <= live_history_seq (db res.2)).
Proof.
  cbn zeta. unfold save_live_history.
  destruct (pop_fault_fields w) as (Hdb & Hc & _).
  destruct (pop_fault w) as [f w1]. cbn [fst snd] in *.
  assert (Hsame : keeps w w1) by (by apply keeps_same).
  destruct (connect f); [|by split].
  destruct (execute_fails f 0); [by split|].
  destruct (upsert_live_history_rows (db w1) ld) as [Hrows Hseq].
  pose proof (upsert_live_history_wf (db w1) ld) as Hwf.
  destruct (upsert_live_history (db w1) ld) as [txn id]. cbn [fst snd] in *.
  destruct (commit f); [|by split]. cbn [fst snd db set_db].
  split.
  - apply (keeps_trans _ w1); [done|]. unfold keeps. cbn [db song_cache set_db].
    split; [done|]. split; [done|]. split; [done|]. intros H. by apply Hwf.
  - intros id' [= <-] H. rewrite <- Hdb in H. destruct (Hwf H) as (_ & ? & ?). lia.
Qed.

Lemma save_song_keeps name url w :
  let w' := (save_song name url w).2 in
  keeps w w' ∧ live_history_seq (db w') = live_history_seq (db w).
Proof.
  cbn zeta. unfold save_song.
  destruct (song_cache w !! name) as [id|] eqn:Hmiss; [split; [by apply keeps_same|done]|].
  destruct (pop_fault_fields w) as (Hdb & Hc & _).
  destruct (pop_fault w) as [f w1]. cbn [fst snd] in *.
  assert (Hsame : keeps w w1) by (by apply keeps_same).
  destruct (connect f); cbn [fst snd]; [|by rewrite Hdb].
  destruct (execute_fails f 0); cbn [fst snd]; [by rewrite Hdb|].
  destruct (upsert_live_song_rows (db w1) name url) as [Hrows Hseq].
  pose proof (upsert_live_song_wf (db w1) name url) as Hwf.
  destruct (upsert_live_song (db w1) name url) as [txn id]. cbn [fst snd] in *.
  assert (Hsub : song_cache w1 ⊆ <[name := id]> (song_cache w1)).
  { apply insert_subseteq. by rewrite Hc. }
  destruct (commit f), (truthy_int id); cbn [fst snd db set_db set_cache song_cache];
    rewrite ?Hseq; (split; [|by rewrite Hdb]);
    (apply (keeps_trans _ w1); [done|]); unfold keeps; cbn [db song_cache set_db set_cache];
    try (split; [done|]; split; [done|]; split; [lia|done]);
    try (split; [apply rows_kept_refl|]; split; [done|]; split; [lia|done]).
Qed.

Lemma save_new_song_keeps si w :
  let w' := (save_new_song si w).2 in
  keeps w w' ∧ live_history_seq (db w') = live_history_seq (db w).
Proof.
  cbn zeta. unfold save_new_song.
  destruct (song_cache w !! si_name si); [split; [by apply keeps_same|done]|].
  unfold bind, ret. pose proof (save_song_keeps (si_name si) (Some (si_url si)) w) as H.
  by destruct (save_song (si_name si) (Some (si_url si)) w) as [[id|e] w1].
Qed.


Lemma for_each_keeps {A} (xs : list A) (body : A -> M unit) w :
  (∀ x w, keeps w (body x w).2) -> keeps w (for_each xs body w).2.
Proof.
  intros Hbody. revert w. induction xs as [|x xs IH]; intros w; [by apply keeps_same|].
  cbn [for_each]. unfold bind. pose proof (Hbody x w) as H.
  destruct (body x w) as [[[]|e] w1]; cbn [snd] in *; [|done].
  by apply (keeps_trans _ w1).
Qed.

Lemma for_each_save_new_song_keeps songs w :
  let w' := (for_each songs save_new_song w).2 in
  keeps w w' ∧ live_history_seq (db w') = live_history_seq (db w).
Proof.
  cbn zeta. revert w. induction songs as [|si songs IH]; intros w.
  { split; [by apply keeps_same|done]. }
  cbn [for_each]. unfold bind. destruct (save_new_song_keeps si w) as [Hk Hs].
  destruct (save_new_song si w) as [[[]|e] w1]; cbn [snd] in *; [|done].
  destruct (IH w1) as [Hk' Hs']. split; [by apply (keeps_trans _ w1)|lia].
Qed.

Lemma fold_upsert_assoc_kept rels s :
  assoc_kept (live_history_song s)
             (live_history_song (fold_left upsert_live_history_song rels s)).
Proof.
  intros k row H. rewrite fold_upsert_lookup, H. clear H. revert row.
  induction rels as [|r rels IH]; intros row; cbn [fold_left]; [by eexists|].
  assert (∃ row', last_write k (Some row) r = Some row') as [row' ->]
    by (unfold last_write; destruct (decide _); eauto).
  apply IH.
Qed.

Lemma batch_rows live_id songs w :
  let w' := (save_live_song_relations_batch live_id songs w).2 in
  rows_kept (db w) (db w') ∧ song_cache w' = song_cache w
  ∧ live_history_seq (db w') = live_history_seq (db w)
  ∧ (wf_store (db w) -> 0 < live_id <= live_history_seq (db w) -> wf_store (db w')).
Proof.
  cbn zeta. destruct (batch_world live_id songs w) as (Hc & _ & ->).
  set (rels := relations_from (song_cache w) live_id 1 songs).
  destruct (fold_upsert_other rels (db w)) as (Hh & Hseq & Hso & _).
  split; [|split; [done|]].
  - destruct (batch_fault_hits _ _); [apply rows_kept_refl|].
    split; [rewrite Hh; apply shows_kept_refl|].
    split; [rewrite Hso; apply songs_kept_refl|apply fold_upsert_assoc_kept].
  - destruct (batch_fault_hits _ _); [done|]. split; [done|].
    intros Hwf Hid. apply (fold_upsert_wf _ _ live_id); [done|done|].
    by intros rel (j & sj & sid & _ & _ & _ & ->)%relations_from_elem.
Qed.

Lemma process_show_keeps i ld w : keeps w (process_show (i, ld) w).2.
Proof.
  unfold process_show, bind, log. fold (add_trace w [EvBegin i]).
  rewrite save_live_history_add_trace.
  destruct (save_live_history_keeps ld w) as [Hk1 Hid].
  destruct (save_live_history ld w) as [[id|e] w1]; cbn [fst snd] in *; [|exact Hk1].
  destruct (truthy_opt truthy_int id) eqn:Htruthy; cbn [negb]; [|exact Hk1].
  destruct id as [lid|]; [|done]. change (default 0 (Some lid)) with lid.
  specialize (Hid lid eq_refl).
  rewrite get_songs_from_detail_page_spec.
  set (w2 := add_trace (add_trace w1 [EvBegin i]) (detail_requests (ld_url ld))).
  assert (Hk2 : keeps w w2) by exact Hk1.
  assert (Hs2 : live_history_seq (db w2) = live_history_seq (db w1)) by done.
  clearbody w2.
  destruct (page_songs (ld_url ld)) as [|si rest] eqn:Hsongs; [exact Hk2|].
  rewrite <- Hsongs. clear Hsongs.
  destruct (for_each_save_new_song_keeps (page_songs (ld_url ld)) w2) as [Hk3 Hs3].
  destruct (for_each (page_songs (ld_url ld)) save_new_song w2) as [[[]|e] w3];
    cbn [fst snd] in *; [|by apply (keeps_trans _ w2)].
  destruct (batch_rows lid (page_songs (ld_url ld)) w3) as (Hr4 & Hc4 & Hs4 & Hwf4).
  pose proof (keeps_trans _ _ _ Hk2 Hk3) as (Hr & Hc & Hs & Hwf).
  assert (Hk4 : keeps w (save_live_song_relations_batch lid (page_songs (ld_url ld)) w3).2).
  { split; [by eapply rows_kept_trans|]. split; [by rewrite Hc4|]. split; [lia|].
    intros H. apply Hwf4; [by apply Hwf|]. specialize (Hid H). lia. }
  destruct (save_live_song_relations_batch lid (page_songs (ld_url ld)) w3) as [[[]|e] w4];
    cbn [fst snd] in *; exact Hk4.
Qed.

Lemma run_keeps w : keeps w (run w).2.
Proof.
  unfold run, get_live_history, bind, log, raise, ret.
  destruct (http_get main_url) as [e|[|t ts]]; cbn [fst snd]; try by apply keeps_same.
  destruct (history_rows (tail (trs t)) []) as [l|e]; cbn [fst snd]; [|by apply keeps_same].
  eapply keeps_trans; [|apply for_each_keeps; intros [i ld] w'; apply process_show_keeps].
  by apply keeps_same.
Qed.

Lemma crawl_keeps s fs :
  rows_kept s (db (crawl s fs).2) ∧ (wf_store s -> wf_store (db (crawl s fs).2)).
Proof.
  unfold crawl, bind. set (w0 := Build_world _ _ _ _).
  pose proof (init_db w0) as Hdb.
  destruct (init w0) as [[[]|e] w1]; cbn [fst snd db] in *.
  - destruct (run_keeps w1) as (Hr & _ & _ & Hwf). by rewrite Hdb in *.
  - rewrite Hdb. split; [apply rows_kept_refl|done].
Qed.

(** X14. An execution leaves a well-formed store well formed, whatever
    the pages hold and whichever connections, statements or commits
    fail: identities stay positive, below their sequences and distinct
    between shows, and every association belongs to a show identity
    that has been handed out. *)
Theorem crawl_keeps_well_formed s fs :
  wf_store s -> wf_store (db (crawl s fs).2).
Proof. apply crawl_keeps. Qed.

(** X15. An execution never deletes: every show, song and association
    row of the store it starts on is still there when it ends, shows
    and songs with the identity they had, whatever the pages hold and
    whichever faults occur. *)
Theorem crawl_keeps_rows s fs : rows_kept s (db (crawl s fs).2).
Proof. apply crawl_keeps. Qed.

(** X16. During [run] the cache only grows: a name that is cached keeps
    its identity to the end, whatever the faults. *)
Theorem run_cache_grows w n id :
  song_cache w !! n = Some id -> song_cache (run w).2 !! n = Some id.
Proof.
  destruct (run_keeps w) as (_ & Hc & _). intros H. by eapply lookup_weaken.
Qed.


(** ** Requests and delays *)

Lemma detail_requests_cases url :
  detail_requests url = [] ∨ ∃ u, detail_requests url = [EvGet u].
Proof.
  unfold detail_requests. destruct url as [u|]; [|by left].
  destruct (truthy_str u); [right; by exists u|by left].
Qed.

Lemma process_show_spaced i ld w :
  let res := process_show (i, ld) w in
  ∃ t, trace res.2 = trace w ++ t
       ∧ (res.1 = Return tt -> fold_left spaced_step t (Some true) = Some true)
       ∧ fold_left spaced_step t (Some true) ≠ None.
Proof.
  cbn zeta. rewrite process_show_trace. eexists. split; [done|].
  destruct (detail_requests_cases (ld_url ld)) as [Hr|[u Hr]]; rewrite Hr;
    destruct (process_show (i, ld) w).1 as [[]|e], (show_saved ld w); by cbn.
Qed.

Lemma for_each_spaced entries w :
  let res := for_each entries process_show w in
  ∃ t, trace res.2 = trace w ++ t
       ∧ (res.1 = Return tt -> fold_left spaced_step t (Some true) = Some true)
       ∧ fold_left spaced_step t (Some true) ≠ None.
Proof.
  cbn zeta. revert w. induction entries as [|[i ld] entries IH]; intros w.
  { exists []. by rewrite app_nil_r. }
  cbn [for_each]. unfold bind.
  destruct (process_show_spaced i ld w) as (t1 & Ht1 & Hret1 & Hsome1).
  destruct (process_show (i, ld) w) as [[[]|e] w1]; cbn [fst snd] in *.
  - destruct (IH w1) as (t2 & Ht2 & Hret2 & Hsome2).
    exists (t1 ++ t2). rewrite Ht2, Ht1, <- app_assoc. split; [done|].
    by rewrite fold_left_app, Hret1.
  - exists t1. by split.
Qed.

(** X17. The detail requests of an execution are spaced: the trace
    starts with the request for the index page, and among the requests
    after that one no two follow each other without a delay in between,
    whatever the pages hold and whichever faults occur. An execution
    that cannot construct the analyzer makes no request. *)
Theorem crawl_requests_spaced s fs :
  (trace (crawl s fs).2 = [] ∧ raises (crawl s fs).1 = true)
  ∨ ∃ t, trace (crawl s fs).2 = EvGet main_url :: t ∧ spaced t = true.
Proof.
  unfold spaced, crawl, bind, init.
  set (w0 := set_cache _ ∅).
  pose proof (load_existing_songs_trace w0) as Ht0.
  destruct (load_existing_songs w0) as [[[]|e] w1]; cbn [fst snd] in *; [|by left].
  right. unfold run, get_live_history, bind, log, raise, ret.
  set (w2 := Build_world _ _ _ _).
  assert (Ht2 : trace w2 = [EvGet main_url]) by (subst w2; cbn; by rewrite Ht0).
  destruct (http_get main_url) as [e|[|t ts]]; cbn [fst snd].
  - exists []. by rewrite Ht2.
  - exists []. cbn [enumerate for_each]. unfold ret. cbn [snd]. by rewrite Ht2.
  - destruct (history_rows (tail (trs t)) []) as [l|e]; cbn [snd];
      [|exists []; by rewrite Ht2].
    destruct (for_each_spaced (enumerate 0 l) w2) as (t' & Ht' & _ & Hsome).
    exists t'. rewrite Ht', Ht2. split; [done|].
    by destruct (fold_left spaced_step t' (Some true)).
Qed.


(** ** The faults that end an execution *)

Lemma pop_fault_connects w :
  connects w -> (pop_fault w).1 ≠ ConnectFails ∧ connects (pop_fault w).2.
Proof.
  unfold connects, pop_fault. destruct (faults w) as [|f fs] eqn:E; cbn [fst snd faults].
  - intros H. split; [done|]. by rewrite E.
  - intros [? ?]%Forall_cons. by split.
Qed.

Lemma save_live_history_returns ld w :
  connects w ->
  ∃ id, (save_live_history ld w).1 = Return id ∧ connects (save_live_history ld w).2.
Proof.
  intros [Hf Hrest]%pop_fault_connects. unfold save_live_history.
  destruct (pop_fault w) as [f w1]. cbn [fst snd] in *.
  destruct f as [| |k|]; cbn [connect execute_fails commit]; [|done| |].
  - destruct (upsert_live_history (db w1) ld) as [txn id].
    eexists. split; [reflexivity|exact Hrest].
  - destruct (Nat.eqb k 0); [eexists; split; [reflexivity|exact Hrest]|].
    destruct (upsert_live_history (db w1) ld) as [txn id].
    eexists. split; [reflexivity|exact Hrest].
  - destruct (upsert_live_history (db w1) ld) as [txn id].
    eexists. split; [reflexivity|exact Hrest].
Qed.

Lemma save_song_returns name url w :
  connects w ->
  ∃ id, (save_song name url w).1 = Return id ∧ connects (save_song name url w).2.
Proof.
  intros Hw. unfold save_song.
  destruct (song_cache w !! name) as [id|]; [eexists; by split|].
  destruct (pop_fault_connects w Hw) as [Hf Hrest].
  destruct (pop_fault w) as [f w1]. cbn [fst snd] in *.
  destruct f as [| |k|]; cbn [connect execute_fails commit]; [|done| |].
  - destruct (upsert_live_song (db w1) name url) as [txn id].
    eexists. split; [reflexivity|]. by destruct (truthy_int id).
  - destruct (Nat.eqb k 0); [eexists; split; [reflexivity|exact Hrest]|].
    destruct (upsert_live_song (db w1) name url) as [txn id].
    eexists. split; [reflexivity|]. by destruct (truthy_int id).
  - destruct (upsert_live_song (db w1) name url) as [txn id].
    eexists. split; [reflexivity|]. by destruct (truthy_int id).
Qed.

Lemma save_new_song_returns si w :
  connects w -> (save_new_song si w).1 = Return tt ∧ connects (save_new_song si w).2.
Proof.
  intros Hw. unfold save_new_song. destruct (song_cache w !! si_name si); [done|].
  unfold bind, ret. destruct (save_song_returns (si_name si) (Some (si_url si)) w Hw)
    as (id & Hid & Hrest).
  destruct (save_song (si_name si) (Some (si_url si)) w) as [[id'|e] w1];
    cbn [fst snd] in *; done.
Qed.

Lemma for_each_returns {A} (xs : list A) (body : A -> M unit) w :
  (∀ x w, connects w -> (body x w).1 = Return tt ∧ connects (body x w).2) ->
  connects w -> (for_each xs body w).1 = Return tt ∧ connects (for_each xs body w).2.
Proof.
  intros Hbody. revert w. induction xs as [|x xs IH]; intros w Hw; [done|].
  cbn [for_each]. unfold bind. destruct (Hbody x w Hw) as [Hret Hrest].
  destruct (body x w) as [[[]|e] w1]; cbn [fst snd] in *; [by apply IH|done].
Qed.

Lemma batch_connects live_id songs w :
  connects w ->
  (save_live_song_relations_batch live_id songs w).1 = Return tt
  ∧ connects (save_live_song_relations_batch live_id songs w).2.
Proof.
  intros Hw. unfold save_live_song_relations_batch.
  destruct songs as [|si rest]; [done|]. cbv beta iota. generalize (si :: rest) as l. intros l.
  destruct (pop_fault_connects w Hw) as [Hf Hrest].
  destruct (pop_fault w) as [f w1]. cbn [fst snd] in *.
  destruct f as [| |k|]; cbn [connect commit]; [|done| |].
  all: destruct (relations_from (song_cache w1) live_id 1 l) as [|r rels]; [done|].
  all: destruct (executemany _ 0 (r :: rels) (db w1)) as [txn [[]|e]]; done.
Qed.

Lemma process_show_returns i ld w :
  connects w ->
  (process_show (i, ld) w).1 = Return tt ∧ connects (process_show (i, ld) w).2.
Proof.
  intros Hw. unfold process_show, bind, log. fold (add_trace w [EvBegin i]).
  rewrite save_live_history_add_trace.
  destruct (save_live_history_returns ld w Hw) as (id & Hid & Hw1).
  destruct (save_live_history ld w) as [[id'|e] w1]; cbn [fst snd] in *; [|done].
  destruct (negb (truthy_opt truthy_int id')); [done|].
  rewrite get_songs_from_detail_page_spec.
  set (w2 := add_trace (add_trace w1 [EvBegin i]) (detail_requests (ld_url ld))).
  assert (Hw2 : connects w2) by exact Hw1. clearbody w2.
  destruct (page_songs (ld_url ld)) as [|si rest] eqn:Hsongs; [done|].
  rewrite <- Hsongs. clear Hsongs.
  destruct (for_each_returns (page_songs (ld_url ld)) save_new_song w2 save_new_song_returns Hw2)
    as [Hret3 Hw3].
  destruct (for_each (page_songs (ld_url ld)) save_new_song w2) as [[[]|e] w3];
    cbn [fst snd] in *; [|done].
  destruct (batch_connects (default 0 id') (page_songs (ld_url ld)) w3 Hw3) as [Hret4 Hw4].
  destruct (save_live_song_relations_batch (default 0 id') (page_songs (ld_url ld)) w3)
    as [[[]|e] w4]; cbn [fst snd] in *; done.
Qed.

Lemma init_returns w :
  connects w -> (init w).1 = Return tt ∧ connects (init w).2.
Proof.
  intros Hw. unfold init, load_existing_songs.
  assert (Hw0 : connects (set_cache w ∅)) by exact Hw.
  destruct (pop_fault_connects _ Hw0) as [Hf Hrest].
  destruct (pop_fault (set_cache w ∅)) as [f w1]. cbn [fst snd] in *.
  destruct f as [| |k|]; cbn [connect execute_fails]; [done|done| |done].
  by destruct (Nat.eqb k 0).
Qed.

(** ** Pacing *)

(** C2 (amended). In every execution, whatever the pages and the faults
    of the store, an entry begins only when the entry before it has
    ended. A turn of the loop that returns ends in one of two ways: when
    [save_live_history] gave the entry an identity, with the delay,
    after its detail request if it made one; otherwise with the skip,
    and then without delay. A turn that raises has no delay either: the
    entry has its detail request when it was saved, and nothing when it
    was not. Among the faults considered (a connection that cannot be
    opened, a statement or a commit that fails and is rolled back) a
    turn returns whenever every connection of the schedule opens, so it
    raises only when a connection cannot be opened (in
    [save_live_history], [save_song] or the batch, which connect outside
    their [try]); the error then leaves the loop, and no entry is begun
    after it. *)
Theorem C2_pacing_after_saved_entries :
  (∀ s fs, paced true (trace (snd (crawl s fs))) = true) ∧
  (∀ i ld w,
     let res := process_show (i, ld) w in
     trace (snd res)
     = trace w ++ EvBegin i ::
         match fst res with
         | Return _ =>
             if show_saved ld w then detail_requests (ld_url ld) ++ [EvSleep] else [EvSkip]
         | Raise _ =>
             if show_saved ld w then detail_requests (ld_url ld) else []
         end) ∧
  (∀ i ld w, connects w -> fst (process_show (i, ld) w) = Return tt) ∧
  (∀ i ld rest w e,
     fst (process_show (i, ld) w) = Raise e ->
     ¬ connects w
     ∧ for_each ((i, ld) :: rest) process_show w = (Raise e, snd (process_show (i, ld) w))).
Proof.
  split; [|split; [|split]].
  - intros s fs. unfold paced, crawl, bind, init.
    set (w0 := set_cache _ ∅).
    pose proof (load_existing_songs_trace w0) as Ht0.
    destruct (load_existing_songs w0) as [[[]|e] w1]; cbn [fst snd] in *;
      [|by rewrite Ht0].
    unfold run, get_live_history, bind, log, raise, ret.
    set (w2 := Build_world _ _ _ _).
    assert (Hidle : pace_of true (trace w2) = Some Idle) by (subst w2; cbn; by rewrite Ht0).
    destruct (http_get main_url) as [e|[|t ts]]; cbn [fst snd].
    + by rewrite Hidle.
    + cbn [enumerate for_each]. unfold ret. cbn [snd]. by rewrite Hidle.
    + destruct (history_rows (tail (trs t)) []) as [l|e]; cbn [snd]; [|by rewrite Hidle].
      destruct (pace_for_each (enumerate 0 l) w2 Hidle) as [_ H].
      by destruct (pace_of true (trace (for_each (enumerate 0 l) process_show w2).2)).
  - intros i ld w. apply process_show_trace.
  - intros i ld w Hw. by apply process_show_returns.
  - intros i ld rest w e Hraise. split.
    + intros Hw. apply (process_show_returns i ld) in Hw as [Hret _].
      by rewrite Hret in Hraise.
    + cbn [for_each]. unfold bind.
      by destruct (process_show (i, ld) w) as [[[]|e'] w1]; cbn [fst snd] in *;
        [|injection Hraise as ->].
Qed.

(** X18. Among the faults of the store considered here (a connection
    that cannot be opened, a statement or a commit that fails and is
    rolled back), only a connection that cannot be opened ends an
    execution early. When every connection opens, the execution returns
    as soon as the index is read, whichever statements and commits fail
    and whatever the detail pages hold; the errors passed on are those
    of reading the index: the one of its fetch, or the one of [urljoin]
    on a link of a row. When the connection of [save_live_history]
    cannot be opened, the error leaves the loop: the entry is begun and
    nothing else happens, neither for it nor for the entries after
    it. *)
Theorem run_ends_on_connection_only :
  (∀ s fs, Forall (fun f => f ≠ ConnectFails) fs ->
     (crawl s fs).1
     = match index_entries with Return _ => Return tt | Raise e => Raise e end)
  ∧ (∀ e, index_entries = Raise e ->
          http_get main_url = Fails e
          ∨ ∃ t ts, http_get main_url = Parsed (t :: ts)
                    ∧ first_error show_link_error (tail (trs t)) = Some e)
  ∧ (∀ i ld rest w, next_fault w = ConnectFails ->
       let res := for_each ((i, ld) :: rest) process_show w in
       res.1 = Raise OperationalError ∧ db res.2 = db w
       ∧ song_cache res.2 = song_cache w ∧ trace res.2 = trace w ++ [EvBegin i]).
Proof.
  split.
  - intros s fs Hfs. unfold crawl, bind.
    set (w0 := Build_world _ _ _ _).
    assert (Hw0 : connects w0) by exact Hfs.
    destruct (init_returns w0 Hw0) as [Hret Hw1].
    destruct (init w0) as [[[]|e] w1]; cbn [fst snd] in *; [|done].
    unfold run, get_live_history, index_entries, bind, log, raise, ret.
    destruct (http_get main_url) as [e|[|t ts]]; cbn [fst snd]; [done|done|].
    destruct (history_rows (tail (trs t)) []) as [l|e]; cbn [fst snd]; [|done].
    apply for_each_returns; [|exact Hw1]. intros [i ld] w. apply process_show_returns.
  - split; [apply index_entries_raises|].
    intros i ld rest w Hf. cbn zeta. cbn [for_each]. unfold bind at 1.
    unfold process_show, bind, log. fold (add_trace w [EvBegin i]).
    rewrite save_live_history_add_trace. unfold save_live_history, next_fault in *.
    destruct (pop_fault_fields w) as (Hdb & Hc & Ht & _).
    destruct (pop_fault w) as [f w1]. cbn [fst snd] in *. subst f.
    cbn [connect fst snd add_trace db song_cache trace]. by rewrite Hdb, Hc, Ht.
Qed.


(** ** The frame of the persistence calls *)

Lemma fold_last_write_changed key rels acc :
  fold_left (last_write key) rels acc ≠ acc ->
  ∃ rel, rel ∈ rels ∧ relation_key rel = key.
Proof.
  revert acc. induction rels as [|r rels IH]; intros acc; cbn [fold_left]; [done|].
  destruct (decide (relation_key r = key)) as [Hk|Hk].
  - intros _. exists r. split; [by left|done].
  - unfold last_write at 2. rewrite decide_False by done.
    intros (rel & Hin & Hrel)%IH. exists rel. split; [by right|done].
Qed.

(** X19. Whatever the fault of its connection, the batch leaves shows,
    songs and both sequences alone and removes no association; an
    association it writes or changes belongs to the show it was called
    for and to a song of its list whose identity the cache holds and
    which is not 0. *)
Theorem batch_touches_own_rows live_id songs w :
  let s' := db (save_live_song_relations_batch live_id songs w).2 in
  live_history s' = live_history (db w) ∧ live_song s' = live_song (db w)
  ∧ live_history_seq s' = live_history_seq (db w)
  ∧ live_song_seq s' = live_song_seq (db w)
  ∧ assoc_kept (live_history_song (db w)) (live_history_song s')
  ∧ (∀ k, live_history_song s' !! k ≠ live_history_song (db w) !! k ->
          k.1 = live_id ∧ k.2 ≠ 0
          ∧ ∃ si, si ∈ songs ∧ song_cache w !! si_name si = Some k.2).
Proof.
  cbn zeta. destruct (batch_world live_id songs w) as (_ & _ & ->).
  set (rels := relations_from (song_cache w) live_id 1 songs).
  destruct (fold_upsert_other rels (db w)) as (Hh & Hseq & Hso & Hsseq).
  destruct (batch_fault_hits _ _).
  { split; [done|]. split; [done|]. split; [done|]. split; [done|].
    split; [apply assoc_kept_refl|]. by intros k []. }
  split; [done|]. split; [done|]. split; [done|]. split; [done|].
  split; [apply fold_upsert_assoc_kept|].
  intros k. rewrite fold_upsert_lookup.
  intros (rel & Hin & <-)%fold_last_write_changed.
  apply relations_from_elem in Hin as (j & sj & sid & Hj & Hc & Hn & ->).
  cbn [relation_key fst snd]. split; [done|]. split; [done|].
  exists sj. split; [by eapply list_elem_of_lookup_2|done].
Qed.

(** X20. An identity [save_song] returns (other than 0) settles the
    name: every later call for the name returns it from the cache,
    whatever address it carries, and changes nothing. The call itself
    leaves the rows and cache entries of other names, the shows and the
    associations as they were. *)
Theorem save_song_settles name url w id :
  (save_song name url w).1 = Return (Some id) -> id ≠ 0 ->
  let w' := (save_song name url w).2 in
  (∀ url', save_song name url' w' = (Return (Some id), w'))
  ∧ (∀ n, n ≠ name -> live_song (db w') !! n = live_song (db w) !! n
                      ∧ song_cache w' !! n = song_cache w !! n)
  ∧ live_history (db w') = live_history (db w)
  ∧ live_history_song (db w') = live_history_song (db w).
Proof.
  intros Hret Hid. cbn zeta.
  assert (Hhit : ∀ w', song_cache w' !! name = Some id ->
                       ∀ url', save_song name url' w' = (Return (Some id), w')).
  { intros w' H url'. unfold save_song. by rewrite H. }
  revert Hret. unfold save_song.
  destruct (song_cache w !! name) as [id'|] eqn:Hmiss; cbn [fst snd].
  { intros [= ->]. split; [by apply Hhit|]. by split. }
  destruct (pop_fault_fields w) as (Hdb & Hc & _).
  destruct (pop_fault w) as [f w1]. cbn [fst snd] in *.
  destruct (connect f); [|done].
  destruct (execute_fails f 0); [done|].
  destruct (upsert_live_song_spec (db w1) name url) as (Hso & Hh & _ & Ha & _).
  destruct (upsert_live_song (db w1) name url) as [txn id']. cbn [fst snd] in *.
  destruct (commit f); [|done]. intros [= ->].
  assert (Ht : truthy_int id = true).
  { unfold truthy_int. by destruct (Z.eqb_spec id 0). }
  rewrite Ht. cbn [fst snd db song_cache set_db set_cache].
  split; [intros url'; by rewrite lookup_insert_eq|].
  split; [|by rewrite Hh, Ha, Hdb].
  intros n Hn. rewrite Hso, !lookup_insert_ne by done. by rewrite Hdb, Hc.
Qed.


(** ** The cache as a copy of the song table *)

Lemma steady_same w w' :
  live_song (db w') = live_song (db w) -> live_song_seq (db w') = live_song_seq (db w) ->
  song_cache w' = song_cache w -> (faults w' = faults w ∨ faults w' = tail (faults w)) ->
  steady w -> steady w'.
Proof.
  intros Hso Hseq Hc Hf (Ha & Hs & Hfs). split; [|split].
  - intros n. rewrite Hc, Hso. apply Ha.
  - lia.
  - destruct Hf as [->| ->]; [done|]. destruct (faults w); [done|].
    by apply Forall_cons in Hfs as [_ ?].
Qed.

Lemma save_live_history_songs ld w :
  let w' := (save_live_history ld w).2 in
  live_song (db w') = live_song (db w) ∧ live_song_seq (db w') = live_song_seq (db w)
  ∧ song_cache w' = song_cache w ∧ faults w' = tail (faults w).
Proof.
  cbn zeta. unfold save_live_history.
  destruct (pop_fault_fields w) as (Hdb & Hc & _ & Hf).
  destruct (pop_fault w) as [f w1]. cbn [fst snd] in *.
  destruct (connect f); cbn [fst snd]; [|by rewrite Hdb].
  destruct (execute_fails f 0); cbn [fst snd]; [by rewrite Hdb|].
  destruct (upsert_live_history_spec (db w1) ld) as (_ & Hso & Hseq & _).
  destruct (upsert_live_history (db w1) ld) as [txn id]. cbn [fst snd] in *.
  destruct (commit f); cbn [fst snd db set_db]; [|by rewrite Hdb].
  by rewrite Hso, Hseq, Hdb.
Qed.

Lemma batch_songs live_id songs w :
  let w' := (save_live_song_relations_batch live_id songs w).2 in
  live_song (db w') = live_song (db w) ∧ live_song_seq (db w') = live_song_seq (db w)
  ∧ song_cache w' = song_cache w.
Proof.
  cbn zeta. destruct (batch_world live_id songs w) as (Hc & _ & ->).
  split; [|split; [|done]]; destruct (batch_fault_hits _ _); try done; apply fold_upsert_other.
Qed.

Lemma batch_faults live_id songs w :
  let w' := (save_live_song_relations_batch live_id songs w).2 in
  faults w' = faults w ∨ faults w' = tail (faults w).
Proof.
  cbn zeta. unfold save_live_song_relations_batch.
  destruct songs as [|si rest]; [by left|]. cbv beta iota.
  generalize (si :: rest) as l. intros l.
  destruct (pop_fault_fields w) as (_ & _ & _ & Hf).
  destruct (pop_fault w) as [f w1]. cbn [fst snd] in *. right.
  destruct (connect f); [|done].
  destruct (relations_from (song_cache w1) live_id 1 l) as [|r rels]; [done|].
  destruct (executemany _ 0 (r :: rels) (db w1)) as [txn [[]|e]]; [|done].
  by destruct (commit f).
Qed.

Lemma next_fault_commits w :
  Forall (fun f => f ≠ CommitFails) (faults w) -> next_fault w ≠ CommitFails.
Proof.
  unfold next_fault, pop_fault. destruct (faults w) as [|f fs]; cbn; [done|].
  by intros [? _]%Forall_cons.
Qed.

Lemma save_song_steady name url w : steady w -> steady (save_song name url w).2.
Proof.
  intros (Ha & Hs & Hfs). split.
  { apply save_song_agrees; [done|done|by apply next_fault_commits]. }
  unfold save_song. destruct (song_cache w !! name) as [id|]; [done|].
  destruct (pop_fault_fields w) as (Hdb & _ & _ & Hf).
  destruct (pop_fault w) as [f w1]. cbn [fst snd] in *.
  assert (Hfs1 : Forall (fun f => f ≠ CommitFails) (faults w1)).
  { rewrite Hf. destruct (faults w); [done|]. by apply Forall_cons in Hfs as [_ ?]. }
  destruct (connect f); cbn [fst snd]; [|by rewrite Hdb].
  destruct (execute_fails f 0); cbn [fst snd]; [by rewrite Hdb|].
  assert (Hseq : 0 <= live_song_seq (upsert_live_song (db w1) name url).1).
  { unfold upsert_live_song. rewrite Hdb. destruct (live_song (db w) !! name); cbn; lia. }
  destruct (upsert_live_song (db w1) name url) as [txn id]. cbn [fst snd] in *.
  destruct (commit f), (truthy_int id); cbn [fst snd db faults set_db set_cache];
    rewrite ?Hdb; done.
Qed.

Lemma save_new_song_steady si w : steady w -> steady (save_new_song si w).2.
Proof.
  intros Hw. unfold save_new_song. destruct (song_cache w !! si_name si); [done|].
  unfold bind, ret. pose proof (save_song_steady (si_name si) (Some (si_url si)) w Hw) as H.
  by destruct (save_song (si_name si) (Some (si_url si)) w) as [[id|e] w1].
Qed.

Lemma for_each_steady {A} (xs : list A) (body : A -> M unit) w :
  (∀ x w, steady w -> steady (body x w).2) -> steady w -> steady (for_each xs body w).2.
Proof.
  intros Hbody. revert w. induction xs as [|x xs IH]; intros w Hw; [done|].
  cbn [for_each]. unfold bind. pose proof (Hbody x w Hw) as H.
  destruct (body x w) as [[[]|e] w1]; cbn [snd] in *; [by apply IH|done].
Qed.

Lemma process_show_steady i ld w : steady w -> steady (process_show (i, ld) w).2.
Proof.
  intros Hw. unfold process_show, bind, log. fold (add_trace w [EvBegin i]).
  rewrite save_live_history_add_trace.
  destruct (save_live_history_songs ld w) as (Hso & Hseq & Hc & Hf).
  assert (Hw1 : steady (save_live_history ld w).2).
  { apply (steady_same w); auto. }
  destruct (save_live_history ld w) as [[id|e] w1]; cbn [fst snd] in *; [|exact Hw1].
  destruct (negb (truthy_opt truthy_int id)); [exact Hw1|].
  rewrite get_songs_from_detail_page_spec.
  set (w2 := add_trace (add_trace w1 [EvBegin i]) (detail_requests (ld_url ld))).
  assert (Hw2 : steady w2) by exact Hw1. clearbody w2.
  destruct (page_songs (ld_url ld)) as [|si rest] eqn:Hsongs; [exact Hw2|].
  rewrite <- Hsongs. clear Hsongs.
  pose proof (for_each_steady (page_songs (ld_url ld)) save_new_song w2
                save_new_song_steady Hw2) as Hw3.
  destruct (for_each (page_songs (ld_url ld)) save_new_song w2) as [[[]|e] w3];
    cbn [fst snd] in *; [|exact Hw3].
  destruct (batch_songs (default 0 id) (page_songs (ld_url ld)) w3) as (Hso4 & Hseq4 & Hc4).
  pose proof (batch_faults (default 0 id) (page_songs (ld_url ld)) w3) as Hf4.
  assert (Hw4 : steady (save_live_song_relations_batch (default 0 id)
                          (page_songs (ld_url ld)) w3).2).
  { apply (steady_same w3); auto. }
  destruct (save_live_song_relations_batch (default 0 id) (page_songs (ld_url ld)) w3)
    as [[[]|e] w4]; cbn [fst snd] in *; exact Hw4.
Qed.

Lemma run_steady w : steady w -> steady (run w).2.
Proof.
  intros Hw. unfold run, get_live_history, bind, log, raise, ret.
  destruct (http_get main_url) as [e|[|t ts]]; cbn [fst snd]; try exact Hw.
  destruct (history_rows (tail (trs t)) []) as [l|e]; cbn [fst snd]; [|exact Hw].
  apply for_each_steady; [|exact Hw]. intros [i ld] w'. apply process_show_steady.
Qed.

Lemma init_steady s fs :
  0 <= live_song_seq s -> loads fs = true -> Forall (fun f => f ≠ CommitFails) fs ->
  steady (init {| db := s; song_cache := ∅; faults := fs; trace := [] |}).2.
Proof.
  intros Hs Hl Hfs.
  assert (Hagree : ∀ fs' t, cache_agrees {| db := s;
                     song_cache := (song_id <$> live_song s) ∪ ∅; faults := fs'; trace := t |}).
  { intros fs' t n. cbn. by rewrite (right_id_L ∅ (∪)), lookup_fmap, fmap_is_Some. }
  unfold init, load_existing_songs, pop_fault, set_cache. cbn [faults db song_cache trace].
  destruct fs as [|f fs']; cbn [connect execute_fails].
  { split; [apply Hagree|]. by split. }
  apply Forall_cons in Hfs as [Hf Hfs'].
  destruct f as [| |[|k]|]; try done; cbn [connect execute_fails Nat.eqb snd];
    (split; [apply Hagree|]); by split.
Qed.

(** X21. As long as no commit fails the cache is a copy of the song
    table: when the cache was loaded at construction, an execution
    ends with a cache entry for exactly the names that have a row,
    whatever the pages hold and whichever connections or statements
    fail. *)
Theorem crawl_cache_write_through s fs :
  0 <= live_song_seq s -> loads fs = true ->
  Forall (fun f => f ≠ CommitFails) fs ->
  cache_agrees (crawl s fs).2.
Proof.
  intros Hs Hl Hfs. pose proof (init_steady s fs Hs Hl Hfs) as Hw1.
  unfold crawl, bind.
  destruct (init _) as [[[]|e] w1]; cbn [fst snd] in *; [|apply Hw1].
  by apply run_steady.
Qed.


(** ** Entries that are skipped *)

Lemma save_live_history_cases ld w :
  wf_store (db w) ->
  let r := save_live_history ld w in
  (db r.2 = db w ∧ song_cache r.2 = song_cache w)
  ∨ ∃ id, r.1 = Return (Some id) ∧ 0 < id.
Proof.
  intros Hwf. cbn zeta. unfold save_live_history.
  destruct (pop_fault_fields w) as (Hdb & Hc & _).
  destruct (pop_fault w) as [f w1]. cbn [fst snd] in *.
  destruct (connect f); cbn [fst snd]; [|by left].
  destruct (execute_fails f 0); cbn [fst snd]; [by left|].
  rewrite <- Hdb in Hwf. destruct (upsert_live_history_wf (db w1) ld Hwf) as (_ & Hpos & _).
  destruct (upsert_live_history (db w1) ld) as [txn id]. cbn [fst snd] in *.
  destruct (commit f); cbn [fst snd]; [|by left].
  right. by exists id.
Qed.

(** X22. An entry whose show cannot be saved changes nothing. On a
    well-formed store, when [save_live_history] gives the entry no
    identity (its connection, statement or commit fails), the three
    tables and the cache are as they were, no request is made and no
    delay taken: the entry is begun and skipped, or begun and the error
    of the connection passed on. *)
Theorem skipped_show_changes_nothing i ld w :
  wf_store (db w) -> show_saved ld w = false ->
  let res := process_show (i, ld) w in
  same_tables (db res.2) (db w) ∧ song_cache res.2 = song_cache w
  ∧ trace res.2 = trace w ++ EvBegin i :: (if raises res.1 then [] else [EvSkip]).
Proof.
  intros Hwf Hsaved. cbn zeta.
  pose proof (process_show_trace i ld w) as Ht. cbn zeta in Ht. rewrite Hsaved in Ht.
  assert (Htrace : trace (process_show (i, ld) w).2
                   = trace w ++ EvBegin i ::
                       (if raises (process_show (i, ld) w).1 then [] else [EvSkip])).
  { rewrite Ht. by destruct (process_show (i, ld) w).1. }
  split; [|split; [|exact Htrace]]; clear Ht Htrace.
  all: unfold process_show, bind, log; fold (add_trace w [EvBegin i]);
    rewrite save_live_history_add_trace; unfold show_saved in Hsaved;
    destruct (save_live_history_cases ld w Hwf) as [[Hdb Hc]|(id0 & Hid & Hpos)];
    destruct (save_live_history ld w) as [[id|e] w1]; cbn [fst snd] in *;
    try discriminate.
  all: try (rewrite Hsaved; cbn [negb snd db song_cache add_trace]).
  all: try (cbn [snd db song_cache add_trace]; by rewrite ?Hdb, ?Hc).
  all: injection Hid as ->; cbn in Hsaved; unfold truthy_int in Hsaved;
    destruct (Z.eqb_spec id0 0); [lia|done].
Qed.

End Crawler.

(** * The properties on a sample site *)

Lemma wf_empty_store : wf_store empty_store.
Proof.
  unfold wf_store, empty_store. cbn.
  repeat split; try lia; intros *; rewrite ?lookup_empty; intros; discriminate.
Qed.


(** C4 on a sample table: a note ahead of the first song is dropped, and
    two notes after a song are joined in order. *)
Lemma C4_remark_attachment_witness :
  table_songs demo_urljoin
    ([note_cells "Opening"] ++ song_cells "Intro" "/song/intro"
     :: [note_cells "a"; note_cells "b"] ++ [song_cells "Finale" "/song/finale"])
  = Return (setlist_of demo_urljoin [note_cells "Opening"]
            ++ {| si_name := "Intro"; si_url := "https://anifesdb.net/song/intro";
                  si_remark := Some "a; b" |}
            :: setlist_of demo_urljoin [song_cells "Finale" "/song/finale"])
  ∧ table_songs demo_urljoin
      ([] ++ note_cells "Opening" :: [song_cells "Intro" "/song/intro"])
    = table_songs demo_urljoin ([] ++ [song_cells "Intro" "/song/intro"]).
Proof.
  destruct (C4_remark_attachment demo_urljoin) as (_ & H2 & H3 & _). split.
  - apply (H2 [note_cells "Opening"] (song_cells "Intro" "/song/intro")
              {| si_name := "Intro"; si_url := "https://anifesdb.net/song/intro";
                 si_remark := None |}
              [note_cells "a"; note_cells "b"] ["a"; "b"]
              [song_cells "Finale" "/song/finale"]).
    + reflexivity.
    + repeat constructor.
    + right. exists (song_cells "Finale" "/song/finale"), []. split; [reflexivity|].
      eexists. reflexivity.
    + by vm_compute.
  - apply (H3 [] (note_cells "Opening") "Opening").
    + constructor.
    + reflexivity.
Defined.

(** C5 on the setlist of the first sample show, with both songs cached:
    the rows of the table, the entries, and the positions stored. *)
Lemma C5_position_fidelity_witness :
  let rows := [note_cells "Opening"; song_cells "Intro" "/song/intro";
               note_cells "Encore note"; song_cells "Finale" "/song/finale"] in
  let songs := [{| si_name := "Intro"; si_url := "https://anifesdb.net/song/intro";
                   si_remark := Some "Encore note" |};
                {| si_name := "Finale"; si_url := "https://anifesdb.net/song/finale";
                   si_remark := None |}] in
  let w := world_of empty_store {["Intro" := 1; "Finale" := 2]} [] in
  let w' := snd (save_live_song_relations_batch 7 songs w) in
  live_history_song (db w') !! (7, 2) = Some {| song_order := 2; remark := None |}.
Proof.
  intros rows songs w w'.
  assert (H1 : table_songs demo_urljoin rows = Return songs) by reflexivity.
  assert (H2 : ∀ si, si ∈ songs ->
                     truthy_opt truthy_int (song_cache w !! si_name si) = true).
  { intros si Hin. apply elem_of_cons in Hin as [->|Hin]; [reflexivity|].
    apply elem_of_cons in Hin as [->|Hin]; [reflexivity|].
    by apply elem_of_nil in Hin. }
  assert (H3 : next_fault w = NoFault) by reflexivity.
  destruct (C5_position_fidelity demo_urljoin rows songs 7 w H1 H2 H3) as (_ & _ & H).
  apply (H 1%nat {| si_name := "Finale"; si_url := "https://anifesdb.net/song/finale";
                    si_remark := None |} 2); [reflexivity|reflexivity|].
  intros [|[|k]] sk Hk Hsk; [|done|by destruct k].
  injection Hsk as <-. by vm_compute.
Defined.

(** C10 on a setlist of three with the second name unknown to the cache:
    positions 1 and 3 are written, 2 is not. *)
Lemma C10_missing_song_gap_witness :
  let songs := [{| si_name := "A"; si_url := "/a"; si_remark := None |};
                {| si_name := "B"; si_url := "/b"; si_remark := None |};
                {| si_name := "C"; si_url := "/c"; si_remark := Some "x" |}] in
  let w := world_of empty_store {["A" := 1; "C" := 3]} [] in
  let rels := relations_from (song_cache w) 7 1 songs in
  let res := save_live_song_relations_batch 7 songs w in
  (∀ rel, rel ∈ rels -> relation_order rel ≠ Z.of_nat 1 + 1) ∧
  (∀ (j : nat) sj sid,
     songs !! j = Some sj -> song_cache w !! si_name sj = Some sid -> sid ≠ 0 ->
     (7, sid, Z.of_nat j + 1, si_remark sj) ∈ rels) ∧
  fst res = Return tt ∧
  db (snd res) = fold_left upsert_live_history_song rels (db w) ∧
  (∀ sid row,
     live_history_song (db (snd res)) !! (7, sid) = Some row ->
     song_order row = Z.of_nat 1 + 1 ->
     live_history_song (db w) !! (7, sid) = Some row).
Proof.
  intros songs w.
  apply (C10_missing_song_gap 7 songs w 1
           {| si_name := "B"; si_url := "/b"; si_remark := None |});
    reflexivity.
Defined.

(** C3 on a store that has the song: cached, the call changes nothing;
    not cached, the upsert overwrites the address and keeps the
    identity. *)
Lemma C3_known_song_url_witness :
  let s := store_with_song "A" 1 (Some "/old") in
  save_song "A" (Some "/new") (world_of s {["A" := 1]} [])
  = (Return (Some 1), world_of s {["A" := 1]} [])
  ∧ save_new_song {| si_name := "A"; si_url := "/new"; si_remark := None |}
      (world_of s {["A" := 1]} [])
    = (Return tt, world_of s {["A" := 1]} [])
  ∧ (let res := save_song "A" (Some "/new") (world_of s ∅ []) in
     fst res = Return (Some 1)
     ∧ live_song (db (snd res)) !! "A" = Some {| song_id := 1; song_url := Some "/new" |}).
Proof.
  intros s. destruct C3_known_song_url as (H1 & H2 & H3). split; [|split].
  - apply H1. reflexivity.
  - apply H2. exists 1. reflexivity.
  - apply (H3 (world_of s ∅ []) "A" (Some "/new")
              {| song_id := 1; song_url := Some "/old" |}); reflexivity.
Defined.

(** C2 on the first sample show. Without faults its turn returns, with
    its request and the delay. When the connection of [save_song] cannot
    be opened the turn raises after the request, without delay, and the
    second show is never begun. *)
Lemma C2_pacing_after_saved_entries_witness :
  let ld := demo_show (2024, 5, 1) "LIVE A" "/live/a" "Tokyo" in
  let ld2 := demo_show (2024, 4, 1) "LIVE B" "/live/b" "Osaka" in
  let w0 := world_of empty_store ∅ [] in
  let w := world_of empty_store ∅ [NoFault; ConnectFails] in
  (fst (process_show demo_urljoin demo_http (0%nat, ld) w0) = Return tt
   ∧ trace (snd (process_show demo_urljoin demo_http (0%nat, ld) w0))
     = [EvBegin 0; EvGet "https://anifesdb.net/live/a"; EvSleep])
  ∧ (¬ connects w
     ∧ for_each [(0%nat, ld); (1%nat, ld2)] (process_show demo_urljoin demo_http) w
       = (Raise OperationalError, snd (process_show demo_urljoin demo_http (0%nat, ld) w)))
  ∧ trace (snd (process_show demo_urljoin demo_http (0%nat, ld) w))
    = [EvBegin 0; EvGet "https://anifesdb.net/live/a"].
Proof.
  intros ld ld2 w0 w.
  destruct (C2_pacing_after_saved_entries demo_urljoin demo_http) as (_ & H2 & H3 & H4).
  split; [split|split].
  - apply H3. unfold connects. simpl. constructor.
  - etrans; [apply (H2 0%nat ld w0)|]. by vm_compute.
  - apply H4. by vm_compute.
  - etrans; [apply (H2 0%nat ld w)|]. by vm_compute.
Defined.

(** C8 on the sample site, whose second show has no detail page to
    fetch: the rows stored for the first and the third show are those
    of their tables. *)
Lemma C8_detail_fault_isolated_witness :
  let e1 := demo_show (2024, 5, 1) "LIVE A" "/live/a" "Tokyo" in
  let e2 := demo_show (2024, 4, 1) "LIVE B" "/live/b" "Osaka" in
  let e3 := demo_show (2024, 3, 1) "LIVE C" "/live/c" "Kobe" in
  let t1 := {| th_texts := ["No"; "楽曲名"];
               trs := [[];
                       note_cells "Opening";
                       song_cells "Intro" "/song/intro";
                       note_cells "Encore note";
                       song_cells "Finale" "/song/finale"] |} in
  let t3 := {| th_texts := ["No"; "楽曲名"];
               trs := [[]; song_cells "Finale" "/song/finale-2";
                       note_cells "x"; note_cells "y"] |} in
  let res := crawl demo_urljoin demo_http empty_store [] in
  (res.1 = Return tt ∧
   ∃ id1 id2 id3,
     live_history (db res.2) !! show_key e1
     = Some {| show_id := id1; show_venue := ld_venue e1; show_url := ld_url e1 |}
     ∧ live_history (db res.2) !! show_key e2
       = Some {| show_id := id2; show_venue := ld_venue e2; show_url := ld_url e2 |}
     ∧ live_history (db res.2) !! show_key e3
       = Some {| show_id := id3; show_venue := ld_venue e3; show_url := ld_url e3 |}
     ∧ full_setlist (db res.2) id1 (setlist_of demo_urljoin (tail (trs t1)))
     ∧ full_setlist (db res.2) id3 (setlist_of demo_urljoin (tail (trs t3)))
     ∧ (∀ sid, live_history_song (db res.2) !! (id2, sid)
               = live_history_song empty_store !! (id2, sid))
     ∧ (live_history empty_store !! show_key e2 = None ->
        ∀ sid, live_history_song (db res.2) !! (id2, sid) = None))
  ∧ ∃ id1 id3 intro finale,
      show_id <$> live_history (db res.2) !! show_key e1 = Some id1
      ∧ show_id <$> live_history (db res.2) !! show_key e3 = Some id3
      ∧ song_id <$> live_song (db res.2) !! "Intro" = Some intro
      ∧ song_id <$> live_song (db res.2) !! "Finale" = Some finale
      ∧ live_history_song (db res.2) !! (id1, intro)
        = Some {| song_order := 1; remark := Some "Encore note" |}
      ∧ live_history_song (db res.2) !! (id1, finale)
        = Some {| song_order := 2; remark := None |}
      ∧ live_history_song (db res.2) !! (id3, finale)
        = Some {| song_order := 1; remark := Some "x; y" |}
      ∧ size (live_history_song (db res.2)) = 3%nat.
Proof.
  intros e1 e2 e3 t1 t3. split; [|exists 1, 3, 1, 2; by vm_compute].
  destruct (C8_detail_fault_isolated demo_urljoin demo_http) as (_ & _ & _ & H).
  apply (H empty_store e1 e2 e3 "https://anifesdb.net/live/a" "https://anifesdb.net/live/b"
           "https://anifesdb.net/live/c" RequestException [] t1 [] [] t3 []).
  - apply wf_empty_store.
  - by vm_compute.
  - discriminate.
  - discriminate.
  - discriminate.
  - reflexivity.
  - reflexivity.
  - reflexivity.
  - reflexivity.
  - reflexivity.
  - constructor.
  - by vm_compute.
  - by vm_compute.
  - reflexivity.
  - reflexivity.
  - reflexivity.
  - constructor.
  - by vm_compute.
  - by vm_compute.
Defined.

(** ** Further properties on samples *)

(** X1 on a date written in kanji. *)
Lemma parse_date_calendar_witness : valid_date (2024, 4, 1).
Proof. apply (parse_date_calendar "2024年04月01日"). by vm_compute. Defined.

(** X2 on a leap day. *)
Lemma parse_date_three_formats_witness :
  parse_date (written_date (2024, 2, 29) "-" "-" EmptyString) = Return (Some (2024, 2, 29))
  ∧ parse_date (written_date (2024, 2, 29) "年" "月" "日") = Return (Some (2024, 2, 29))
  ∧ parse_date (written_date (2024, 2, 29) "/" "/" EmptyString) = Return (Some (2024, 2, 29)).
Proof. apply parse_date_three_formats. by vm_compute. Defined.

(** X3 on a date between a label and a weekday. *)
Lemma parse_date_embedded_witness :
  parse_date ("開催日: " +:+ written_date (2024, 5, 1) "." "." " (Wed)")
  = Return (Some (2024, 5, 1)).
Proof. apply parse_date_embedded; by vm_compute. Defined.

(** X4: a comment does nothing; a line without a name ends the load. *)
Lemma load_env_file_line_kinds_witness :
  env_line ∅ "  # comment" = Return ∅
  ∧ load_env_file (Some (["DB_HOST=db"] ++ " =x" :: ["DB_PORT=1"])) ∅ = Raise OSError.
Proof.
  split.
  - apply (load_env_file_line_kinds ∅ "  # comment"). right. left. reflexivity.
  - destruct (load_env_file_line_kinds (<["DB_HOST" := "db"]> ∅) " =x") as (_ & _ & H).
    destruct (H eq_refl eq_refl) as [_ H']. apply H'. by vm_compute.
Defined.

(** X5: blanks around name and value go, an ideographic space among
    them; the value keeps its ['=']. *)
Lemma load_env_file_assignment_witness :
  let key := "　DB_URL " in
  let value := " postgres://h/db?x=1 " in
  let e := <["DB_URL" := "old"]> ∅ in
  (strip key = "DB_URL" ∧ strip value = "postgres://h/db?x=1")
  ∧ env_line e (key +:+ "=" +:+ value) = Return (<[strip key := strip value]> e)
  ∧ (load_env_file (Some (["DB_URL=old"] ++ [key +:+ "=" +:+ value])) ∅
     = Return (<[strip key := strip value]> e)).
Proof.
  intros key value e. split; [by vm_compute|].
  assert (H : env_line e (key +:+ "=" +:+ value) = Return (<[strip key := strip value]> e)
              ∧ (load_env_file (Some ["DB_URL=old"]) ∅ = Return e ->
                 load_env_file (Some (["DB_URL=old"] ++ [key +:+ "=" +:+ value])) ∅
                 = Return (<[strip key := strip value]> e)))
    by (apply load_env_file_assignment; reflexivity).
  destruct H as [H1 H2]. split; [exact H1|]. apply H2. by vm_compute.
Defined.

(** X6 on a file of one assignment and one comment. *)
Lemma load_env_file_changes_witness :
  let e : gmap string string := <["B" := "2"]> ∅ in
  let e' : gmap string string := <["A" := "1"]> e in
  (∀ k v, e !! k = Some v -> is_Some (e' !! k))
  ∧ (∀ k, e' !! k ≠ e !! k ->
          truthy_str k = true ∧ str_in "=" k = false ∧ strip k = k
          ∧ ∃ v, e' !! k = Some v ∧ strip v = v).
Proof.
  intros e e'. apply (load_env_file_changes (Some [" A = 1 "; "# c"])). by vm_compute.
Defined.

(** X7 with the three variables set. *)
Lemma db_config_agree_witness :
  let e : gmap string string := <["DB_USER" := "u"]> (<["DB_PASSWORD" := "p"]> (<["DB_NAME" := "n"]> ∅)) in
  crawler_db_config e = exporter_db_config e.
Proof.
  intros e. apply db_config_agree. split; [|split]; eexists; by vm_compute.
Defined.

(** X9 on the rows of the sample index, and on a page with a link that
    [urljoin] refuses. *)
Lemma get_live_history_entries_witness :
  let rows := [show_cells "2024-05-01" "LIVE A" "/live/a" "Tokyo";
               show_cells "TBD" "LIVE X" "/live/x" "Nagoya";
               show_cells "2024/03/01" "LIVE C" "/live/c" "Kobe"] in
  let bad := show_cells "2024-04-01" "LIVE B" "http://[::1" "Osaka" in
  let bad_site := fun _ : string => Parsed [{| th_texts := []; trs := [] :: rows ++ [bad] |}] in
  (∃ l, history_rows demo_urljoin rows [] = Return l
        ∧ (fun ld => (ld_performance_name ld, ld_venue ld)) <$> l
          `sublist_of` omap row_title_venue rows
        ∧ Forall (fun ld => valid_date (ld_date ld)) l
        ∧ (length l <= length rows)%nat)
  ∧ history_rows demo_urljoin (rows ++ [bad]) [] = Raise ValueError
  ∧ (bad_site main_url = Fails ValueError
     ∨ ∃ t ts, bad_site main_url = Parsed (t :: ts)
               ∧ first_error (show_link_error demo_urljoin) (tail (trs t)) = Some ValueError).
Proof.
  intros rows bad bad_site.
  destruct (get_live_history_entries demo_urljoin demo_http) as (H1 & _).
  split; [exact (H1 rows)|]. split; [exact (H1 (rows ++ [bad]))|].
  destruct (get_live_history_entries demo_urljoin bad_site) as (_ & H2 & _).
  apply (H2 ValueError). by vm_compute.
Defined.

(** X10 on a site that is down. *)
Lemma crawl_without_index_witness :
  let res := crawl demo_urljoin (fun _ => Fails RequestException) empty_store [CommitFails] in
  raises res.1 = true ∧ db res.2 = empty_store ∧ ∀ i, EvBegin i ∉ trace res.2.
Proof.
  intros res.
  destruct (crawl_without_index demo_urljoin (fun _ => Fails RequestException)
              empty_store [CommitFails]) as [H _].
  apply (H RequestException). reflexivity.
Defined.

(** X11 on a page of three tables, the second and third with the song
    column; and on the same page with a link in the second table that
    [urljoin] refuses. *)
Lemma scan_tables_first_witness :
  let t0 := {| th_texts := ["日付"]; trs := [[]; song_cells "Other" "/song/o"] |} in
  let t := {| th_texts := ["No"; "楽曲名"]; trs := [[]; song_cells "Intro" "/song/intro"] |} in
  let t' := {| th_texts := ["No"; "楽曲名"];
               trs := [[]; song_cells "Intro" "/song/intro"; song_cells "Bad" "http://[::1"] |} in
  let t2 := {| th_texts := ["楽曲名"]; trs := [[]; song_cells "Late" "/song/late"] |} in
  scan_tables demo_urljoin ([t0] ++ t :: [t2])
  = Return [{| si_name := "Intro"; si_url := "https://anifesdb.net/song/intro";
               si_remark := None |}]
  ∧ scan_tables demo_urljoin ([t0] ++ t' :: [t2]) = Raise ValueError.
Proof.
  intros t0 t t' t2. split.
  - destruct (scan_tables_first demo_urljoin [t0] t [t2]) as [H _].
    + constructor; [by vm_compute|constructor].
    + apply H. by vm_compute.
  - destruct (scan_tables_first demo_urljoin [t0] t' [t2]) as [H _].
    + constructor; [by vm_compute|constructor].
    + apply H. by vm_compute.
Defined.

(** X13: the first sample show saved, then saved again with another
    venue. *)
Lemma save_live_history_again_witness :
  let ld := demo_show (2024, 5, 1) "LIVE A" "/live/a" "Tokyo" in
  let ld' := demo_show (2024, 5, 1) "LIVE A" "/live/a2" "Chiba" in
  let w := world_of empty_store ∅ [] in
  let r1 := save_live_history ld w in
  let r2 := save_live_history ld' r1.2 in
  ∃ id,
    r1.1 = Return (Some id) ∧ r2.1 = Return (Some id)
    ∧ live_history (db r2.2) !! show_key ld
      = Some {| show_id := id; show_venue := ld_venue ld'; show_url := ld_url ld' |}
    ∧ (∀ k, k ≠ show_key ld -> live_history (db r2.2) !! k = live_history (db w) !! k)
    ∧ live_song (db r2.2) = live_song (db w)
    ∧ live_history_song (db r2.2) = live_history_song (db w)
    ∧ (ld' = ld -> same_tables (db r2.2) (db r1.2)).
Proof. intros ld ld' w. apply save_live_history_again; reflexivity. Defined.

(** X14 on the sample site, with a commit and a statement failing. *)
Lemma crawl_keeps_well_formed_witness :
  wf_store (db (crawl demo_urljoin demo_http empty_store
                  [NoFault; CommitFails; ExecuteFails 0]).2).
Proof. apply crawl_keeps_well_formed. apply wf_empty_store. Defined.

(** X16 on the sample site, from a cache that knows a song. *)
Lemma run_cache_grows_witness :
  song_cache (run demo_urljoin demo_http (world_of empty_store {["Old" := 9]} [])).2 !! "Old"
  = Some 9.
Proof. apply run_cache_grows. reflexivity. Defined.

(** X18 on the sample site: statements and commits fail, the execution
    returns; on a site whose index has a link [urljoin] refuses, the
    execution raises that error; the connection of the first show
    fails, the loop is left. *)
Lemma run_ends_on_connection_only_witness :
  let bad := show_cells "2024-04-01" "LIVE B" "http://[::1" "Osaka" in
  let bad_site := fun _ : string => Parsed [{| th_texts := []; trs := [[]; bad] |}] in
  (crawl demo_urljoin demo_http empty_store [NoFault; ExecuteFails 0; CommitFails]).1
  = Return tt
  ∧ (crawl demo_urljoin bad_site empty_store [NoFault; ExecuteFails 0; CommitFails]).1
    = Raise ValueError
  ∧ (bad_site main_url = Fails ValueError
     ∨ ∃ t ts, bad_site main_url = Parsed (t :: ts)
               ∧ first_error (show_link_error demo_urljoin) (tail (trs t)) = Some ValueError)
  ∧ (let w := world_of empty_store ∅ [ConnectFails] in
     let ld := demo_show (2024, 5, 1) "LIVE A" "/live/a" "Tokyo" in
     let res := for_each [(0%nat, ld); (1%nat, ld)] (process_show demo_urljoin demo_http) w in
     res.1 = Raise OperationalError ∧ db res.2 = db w
     ∧ song_cache res.2 = song_cache w ∧ trace res.2 = trace w ++ [EvBegin 0]).
Proof.
  intros bad bad_site.
  destruct (run_ends_on_connection_only demo_urljoin demo_http) as (H1 & _ & H3).
  destruct (run_ends_on_connection_only demo_urljoin bad_site) as (H1' & H2' & _).
  split; [|split; [|split]].
  - etrans; [apply H1; repeat constructor; discriminate|]. by vm_compute.
  - etrans; [apply H1'; repeat constructor; discriminate|]. by vm_compute.
  - apply (H2' ValueError). by vm_compute.
  - intros w ld. apply H3. reflexivity.
Defined.

(** X19 on a batch of three entries: the row it writes for song 1
    belongs to an entry of the list. *)
Lemma batch_touches_own_rows_witness :
  let songs := [{| si_name := "A"; si_url := "/a"; si_remark := None |};
                {| si_name := "B"; si_url := "/b"; si_remark := None |};
                {| si_name := "C"; si_url := "/c"; si_remark := Some "x" |}] in
  let w := world_of empty_store {["A" := 1; "C" := 3]} [] in
  ∃ si, si ∈ songs ∧ song_cache w !! si_name si = Some 1.
Proof.
  intros songs w.
  destruct (batch_touches_own_rows 7 songs w) as (_ & _ & _ & _ & _ & H).
  destruct (H (7, 1)) as (_ & _ & Hsi); [by vm_compute|exact Hsi].
Defined.

(** X20 on a new song. *)
Lemma save_song_settles_witness :
  let w := world_of empty_store ∅ [] in
  let w' := (save_song "A" (Some "/a") w).2 in
  (∀ url', save_song "A" url' w' = (Return (Some 1), w'))
  ∧ (∀ n, n ≠ "A" -> live_song (db w') !! n = live_song (db w) !! n
                     ∧ song_cache w' !! n = song_cache w !! n)
  ∧ live_history (db w') = live_history (db w)
  ∧ live_history_song (db w') = live_history_song (db w).
Proof.
  intros w. apply (save_song_settles "A" (Some "/a") w 1); [reflexivity|discriminate].
Defined.

(** X21 on the sample site, from a store that has a song, with the
    statement that inserts Intro failing: the cache ends with the old
    song and Finale, as the table does, and neither has Intro. *)
Lemma crawl_cache_write_through_witness :
  let w := (crawl demo_urljoin demo_http (store_with_song "Old" 5 None)
              [NoFault; NoFault; ExecuteFails 0]).2 in
  cache_agrees w
  ∧ dom (song_cache w) = {["Old"; "Finale"]}
  ∧ dom (live_song (db w)) = {["Old"; "Finale"]}.
Proof.
  intros w. split; [|by vm_compute].
  apply crawl_cache_write_through.
  - by vm_compute.
  - reflexivity.
  - repeat constructor; discriminate.
Defined.

(** X22 on the first sample show, the commit failing. *)
Lemma skipped_show_changes_nothing_witness :
  let ld := demo_show (2024, 5, 1) "LIVE A" "/live/a" "Tokyo" in
  let w := world_of empty_store ∅ [CommitFails] in
  let res := process_show demo_urljoin demo_http (0%nat, ld) w in
  same_tables (db res.2) (db w) ∧ song_cache res.2 = song_cache w
  ∧ trace res.2 = trace w ++ EvBegin 0 :: (if raises res.1 then [] else [EvSkip]).
Proof.
  intros ld w. apply skipped_show_changes_nothing; [apply wf_empty_store|reflexivity].
Defined.

(** ** Where the code departs from the specification *)

(** C2, as the specification words it, fails: when [save_live_history] fails for the first
    show (its statement raises), the second show begins right after the
    skip, with no delay in between. *)
Lemma C2_counterexample :
  let t := trace (crawl demo_urljoin demo_http empty_store [NoFault; ExecuteFails 0]).2 in
  t = [EvGet main_url; EvBegin 0; EvSkip;
       EvBegin 1; EvGet "https://anifesdb.net/live/b"; EvSleep;
       EvBegin 2; EvGet "https://anifesdb.net/live/c"; EvSleep]
  ∧ paced false t = false.
Proof. by vm_compute. Qed.

(** C3, as the specification words it, fails: the song Finale is created from the first
    show with one address and met again in the third show with another;
    the row keeps the first address. *)
Lemma C3_counterexample :
  let res := crawl demo_urljoin demo_http empty_store [] in
  page_songs demo_urljoin demo_http (Some "https://anifesdb.net/live/c")
  = [{| si_name := "Finale"; si_url := "https://anifesdb.net/song/finale-2";
        si_remark := Some "x; y" |}]
  ∧ res.1 = Return tt
  ∧ live_song (db res.2) !! "Finale"
    = Some {| song_id := 2; song_url := Some "https://anifesdb.net/song/finale" |}
  ∧ song_url <$> live_song (db res.2) !! "Finale"
    ≠ Some (Some "https://anifesdb.net/song/finale-2").
Proof. by vm_compute. Qed.
